(** * Action tracking over a property graph: the [ActionTracker] class

    A shallow embedding of [src/action-tracker.ts].  The class talks to a
    Neo4j store through Cypher queries; the embedding has three layers:

    - the property graph the queries read and write (module [Graph]:
      labelled nodes with an internal identity, typed relationships,
      schema);
    - the queries, one definition per query text of the class, read
      clause by clause over a stream of rows ([record_query],
      [similar_query], [history_query], [suggest_query],
      [recommend_query], [related_query]);
    - the methods of the class, in a small monad [IO] that threads the
      store, counts the calls made on the driver and turns a thrown error
      into the [catch] branch of each method.

    What the class takes from its platform and from the store (JSON
    serialisation, the similarity function, the full-text index, the path
    expander) is the interface [Platform]. *)

From Stdlib Require Import String Ascii List ZArith QArith Bool Arith Lia.
From Stdlib Require Import Sorting.Sorted Sorting.Permutation.
Import ListNotations.

Local Open Scope string_scope.
Local Open Scope list_scope.
Local Open Scope nat_scope.

Set Implicit Arguments.

(** ** Property graph *)

Abbreviation NodeId := nat (only parsing).

(** [new Date().toISOString()] renders the clock, for the years 0000 to
    9999, as a fixed-width string [YYYY-MM-DDTHH:mm:ss.sssZ]; on such
    strings the order of Cypher on strings is the order of the instants,
    and [datetime(...)] reads the instant back.  A timestamp is kept as
    the instant it denotes, in milliseconds since the epoch. *)
Definition Timestamp := Z.

Inductive Status := success | failure.

Module User.
Record t := mk { id : string; name : string; createdAt : Timestamp }.
End User.

Module MCP.
Record t := mk { id : string; type : string; name : string;
                 createdAt : Timestamp }.
End MCP.

Module Action.
Record t := mk { id : string; type : string; name : string;
                 parameters : string; result : string;
                 status : Status; timestamp : Timestamp }.
End Action.

Inductive Label := LUser | LAction | LMCP.

Definition Label_eqb (a b : Label) : bool :=
  match a, b with
  | LUser, LUser | LAction, LAction | LMCP, LMCP => true
  | _, _ => false
  end.

(** What [initializeSchema] can create, and the full-text index that
    [getActionRecommendations] queries by name. *)
Inductive SchemaItem :=
| UniqueId (l : Label)
| RangeIndex (l : Label) (property : string)
| FulltextIndex (indexName : string).

Definition SchemaItem_eqb (a b : SchemaItem) : bool :=
  match a, b with
  | UniqueId l, UniqueId l' => Label_eqb l l'
  | RangeIndex l p, RangeIndex l' p' => Label_eqb l l' && String.eqb p p'
  | FulltextIndex n, FulltextIndex n' => String.eqb n n'
  | _, _ => false
  end.

Module Graph.

Record Store := mk {
  next_node : NodeId;
  users : list (NodeId * User.t);
  mcps : list (NodeId * MCP.t);
  actions : list (NodeId * Action.t);
  PERFORMED : list (NodeId * NodeId);   (* (user) -[:PERFORMED]-> (action) *)
  USED : list (NodeId * NodeId);        (* (action) -[:USED]-> (mcp) *)
  schema : list SchemaItem
}.

Definition empty : Store := mk 0 [] [] [] [] [] [].

Definition has_schema (g : Store) (i : SchemaItem) : bool :=
  existsb (SchemaItem_eqb i) (schema g).

Definition add_user (u : User.t) (g : Store) : Store :=
  mk (S (next_node g)) (users g ++ [(next_node g, u)]) (mcps g) (actions g)
     (PERFORMED g) (USED g) (schema g).

Definition add_mcp (m : MCP.t) (g : Store) : Store :=
  mk (S (next_node g)) (users g) (mcps g ++ [(next_node g, m)]) (actions g)
     (PERFORMED g) (USED g) (schema g).

(** [CREATE (action:Action {...}) CREATE (user)-[:PERFORMED]->(action)
  CREATE (action)-[:USED]->(mcp)] for one row. *)
Definition add_action (user mcp : NodeId) (a : Action.t) (g : Store) : Store :=
  mk (S (next_node g)) (users g) (mcps g) (actions g ++ [(next_node g, a)])
     (PERFORMED g ++ [(user, next_node g)]) (USED g ++ [(next_node g, mcp)])
     (schema g).

Definition add_schema (i : SchemaItem) (g : Store) : Store :=
  mk (next_node g) (users g) (mcps g) (actions g) (PERFORMED g) (USED g)
     (schema g ++ [i]).

Fixpoint distinct (l : list string) : bool :=
  match l with
  | [] => true
  | x :: r => negb (existsb (String.eqb x) r) && distinct r
  end.

Definition ids_of (l : Label) (g : Store) : list string :=
  match l with
  | LUser => map (fun n => User.id (snd n)) (users g)
  | LAction => map (fun n => Action.id (snd n)) (actions g)
  | LMCP => map (fun n => MCP.id (snd n)) (mcps g)
  end.

(** A uniqueness constraint of the schema holds of the data. *)
Definition item_holds (g : Store) (i : SchemaItem) : bool :=
  match i with
  | UniqueId l => distinct (ids_of l g)
  | _ => true
  end.

Definition constraints_hold (g : Store) : bool :=
  forallb (item_holds g) (schema g).

(** Edges of one action node. *)
Definition performers (g : Store) (action : NodeId) : list NodeId :=
  map fst (filter (fun e => Nat.eqb (snd e) action) (PERFORMED g)).

Definition targets (g : Store) (action : NodeId) : list NodeId :=
  map snd (filter (fun e => Nat.eqb (fst e) action) (USED g)).

Definition is_user (g : Store) (n : NodeId) : bool :=
  existsb (fun u => Nat.eqb (fst u) n) (users g).

Definition is_mcp (g : Store) (n : NodeId) : bool :=
  existsb (fun m => Nat.eqb (fst m) n) (mcps g).

End Graph.

Import Graph.

(** ** Errors a call can throw *)

Inductive Error :=
| ServiceUnavailable                 (* the driver cannot reach the store *)
| ConstraintValidationFailed         (* a write breaks a uniqueness constraint *)
| NoSuchIndex (indexName : string)   (* full-text query on a missing index *)
| InvalidLimit (n : Z)               (* LIMIT with a negative count *)
| ProcedureNotFound (name : string)  (* CALL of a name that is no procedure *)
| SyntaxError (text : string).       (* JSON.parse on malformed text *)

(** A [message] is a string literal or a template literal ending in
    [${error}]. *)
Inductive Message :=
| Text (s : string)
| Template (prefix : string) (error : Error).

(** The object a method returns: [{success: true, ...payload}] or
    [{success: false, message}]. *)
Inductive Reply (P : Type) : Type :=
| Success (payload : P)
| Failure (message : Message).

Arguments Success {P} payload.
Arguments Failure {P} message.

(** ** What the class takes from outside

    [JSON.stringify] and [JSON.parse] of the JavaScript platform; the
    store's string similarity (the function
    [apoc.text.jaroWinklerDistance], a score the queries compare with
    0.7), its full-text matcher (the Lucene query of
    [db.index.fulltext.queryNodes]) and its path expander (the procedure
    [apoc.path.subgraphAll]).  Scores are rationals: every finite double
    is one, and the queries only compare them.

    Functions and procedures are apart in the store: an expression
    applies a function, [CALL] runs a procedure.  [suggestNextAction]
    applies [apoc.text.jaroWinklerDistance] in a [WHERE] (line 361);
    [findSimilarActions] runs the same name under [CALL ... YIELD
    similarity] (line 243).  APOC has the function and no procedure of
    that name; [jaroWinklerDistance_procedure] says whether the store at
    hand has one besides, which then yields the function's score. *)
Class Platform := {
  Json : Type;
  JSON_stringify : Json -> string;
  JSON_parse : string -> option Json;
  jaroWinklerDistance : string -> string -> Q;
  jaroWinklerDistance_procedure : bool;
  fulltext_matches : string -> Action.t -> bool;
  Subgraph : Type;
  subgraphAll : Store -> NodeId -> Z -> Subgraph
}.

(** ** The similarity of the store *)

Module JaroWinkler.

(** The first position of [s] from [lo] up to [hi] (not included) that
    is still free and holds [c] is taken. *)
Fixpoint take_match (c : ascii) (lo hi i : nat) (s : list ascii) (flags : list bool)
  : option (list bool) :=
  match s, flags with
  | x :: s', f :: flags' =>
      if (lo <=? i) && (i <? hi) && negb f && Ascii.eqb c x
      then Some (true :: flags')
      else option_map (cons f) (take_match c lo hi (S i) s' flags')
  | _, _ => None
  end.

(** Each character of the shorter string, in turn, looks for a match
    within [range] positions of its own; the matched characters of the
    shorter string and the taken positions of the longer one result. *)
Fixpoint scan (range mi : nat) (shorter longer : list ascii) (flags : list bool)
  : list ascii * list bool :=
  match shorter with
  | [] => ([], flags)
  | c :: rest =>
      match take_match c (mi - range) (Nat.min (mi + range + 1) (length longer)) 0
                       longer flags with
      | Some flags' =>
          let (ms, f) := scan range (S mi) rest longer flags' in (c :: ms, f)
      | None => scan range (S mi) rest longer flags
      end
  end.

Fixpoint flagged (s : list ascii) (flags : list bool) : list ascii :=
  match s, flags with
  | x :: s', f :: flags' => if f then x :: flagged s' flags' else flagged s' flags'
  | _, _ => []
  end.

Fixpoint mismatches (a b : list ascii) : nat :=
  match a, b with
  | x :: a', y :: b' => (if Ascii.eqb x y then 0 else 1) + mismatches a' b'
  | _, _ => 0
  end.

Fixpoint common_prefix (n : nat) (a b : list ascii) : nat :=
  match n, a, b with
  | S n', x :: a', y :: b' => if Ascii.eqb x y then S (common_prefix n' a' b') else 0
  | _, _, _ => 0
  end.

Definition of_nat (n : nat) : Q := inject_Z (Z.of_nat n).

(** Modelled from the spec: the string similarity of the store, which
    the repository calls as [apoc.text.jaroWinklerDistance] and does not
    contain.  The spec names the metric (Jaro-Winkler, a score between 0
    and 1, 1 for equal payloads); this is that metric in its usual form:
    with [m] matches, half of the out-of-order matches counting as
    transpositions, the Jaro score is the mean of [m/|left|], [m/|right|]
    and [(m - t)/m]; from 0.7 on, a common prefix of up to four characters
    lifts it by a tenth of what is missing to 1 per character. *)
Definition similarity (left right : string) : Q :=
  let l := list_ascii_of_string left in
  let r := list_ascii_of_string right in
  let (shorter, longer) := if length r <? length l then (r, l) else (l, r) in
  let range := length longer / 2 - 1 in
  let (ms1, flags) := scan range 0 shorter longer (repeat false (length longer)) in
  let ms2 := flagged longer flags in
  let m := length ms1 in
  if m =? 0 then 0%Q
  else
    let j := ((of_nat m / of_nat (length l) + of_nat m / of_nat (length r)
               + (of_nat m - of_nat (mismatches ms1 ms2) / 2) / of_nat m) / 3)%Q in
    if Qle_bool (7 # 10) j
    then (j + (1 # 10) * of_nat (common_prefix 4 l r) * (1 - j))%Q
    else j.

End JaroWinkler.

(** ** Generic row operations of Cypher *)

Section Rows.
Variable A : Type.

(** [ORDER BY]: [ahead x y] says that [x] sorts strictly before [y]; rows
    that tie keep the order they arrived in. *)
Fixpoint place (ahead : A -> A -> bool) (x : A) (sorted : list A) : list A :=
  match sorted with
  | [] => [x]
  | y :: r => if ahead y x then y :: place ahead x r else x :: y :: r
  end.

Definition order_by (ahead : A -> A -> bool) (rows : list A) : list A :=
  fold_right (place ahead) [] rows.

(** [LIMIT n]: a negative count is an error of the query. *)
Definition limit_rows (n : Z) (rows : list A) : Error + list A :=
  if (n <? 0)%Z then inl (InvalidLimit n) else inr (firstn (Z.to_nat n) rows).

End Rows.

(** [COLLECT(DISTINCT s)] keeps the first occurrence of each string. *)
Fixpoint collect_distinct (l : list string) : list string :=
  match l with
  | [] => []
  | x :: r => x :: filter (fun y => negb (String.eqb x y)) (collect_distinct r)
  end.

(** Grouping by the non-aggregated columns of a [RETURN]: the groups come
    in the order of their first row, each with its rows in order. *)
Section Grouping.
Variables (R K : Type) (key : R -> K) (K_eqb : K -> K -> bool).

Fixpoint join_group (x : R) (groups : list (K * list R)) : list (K * list R) :=
  match groups with
  | [] => [(key x, [x])]
  | (k, rows) :: rest =>
      if K_eqb k (key x) then (k, rows ++ [x]) :: rest
      else (k, rows) :: join_group x rest
  end.

Definition group_rows (rows : list R) : list (K * list R) :=
  fold_left (fun groups x => join_group x groups) rows [].

End Grouping.

(** ** Temporal values of Cypher *)

(** A Cypher duration keeps three groups that are never converted into
    one another: months, days and seconds (with a sub-second part).
    Between two UTC instants the months and days groups hold the whole
    days; they are kept together here, in days. *)
Record Duration := mkDuration {
  whole_days : Z;      (* the months and days groups *)
  seconds : Z;         (* the seconds group *)
  milliseconds : Z     (* the sub-second part *)
}.

Definition ms_per_day : Z := 86400000.

(** [duration.between(datetime(a), datetime(b))] on two UTC instants:
    Cypher counts the whole months from [a] to [b], then the whole days
    after them, and leaves the rest, less than a day, in the seconds
    group.  One day and five minutes give [P1DT5M]. *)
Definition duration_between (a b : Timestamp) : Duration :=
  let d := (b - a)%Z in
  mkDuration (Z.quot d ms_per_day)
             (Z.quot (Z.rem d ms_per_day) 1000)
             (Z.rem d 1000).

(** The component [.minutes] of a duration: the whole minutes of its
    seconds group; months and days are no part of it, so that
    [P1DT5M.minutes] is 5. *)
Definition minutes (d : Duration) : Z := Z.quot (seconds d) 60.

(** ** The queries of the class *)

Definition threshold : Q := 7 # 10.

(** [x > y] on scores. *)
Definition Qgtb (x y : Q) : bool := negb (Qle_bool x y).

Definition node_at {X} (nodes : list (NodeId * X)) (n : NodeId) : list (NodeId * X) :=
  filter (fun x => Nat.eqb (fst x) n) nodes.

(** [MERGE (user:User {id: $userId}) ON CREATE SET user.name = $userName,
    user.createdAt = $timestamp]: every User node with that id is a row;
    when there is none, one is created with the [ON CREATE] properties. *)
Definition merge_user (userId userName : string) (timestamp : Timestamp)
           (g : Store) : Store * list NodeId :=
  match filter (fun u => String.eqb (User.id (snd u)) userId) (users g) with
  | [] => (add_user (User.mk userId userName timestamp) g, [next_node g])
  | found => (g, map fst found)
  end.

(** [MERGE (mcp:MCP {id: $mcpId}) ON CREATE SET mcp.type = $mcpType,
    mcp.name = $mcpName, mcp.createdAt = $timestamp]. *)
Definition merge_mcp (mcpId mcpType mcpName : string) (timestamp : Timestamp)
           (g : Store) : Store * list NodeId :=
  match filter (fun m => String.eqb (MCP.id (snd m)) mcpId) (mcps g) with
  | [] => (add_mcp (MCP.mk mcpId mcpType mcpName timestamp) g, [next_node g])
  | found => (g, map fst found)
  end.

(** The second [MERGE] runs once per incoming row. *)
Fixpoint merge_mcp_each (rows : list NodeId) (mcpId mcpType mcpName : string)
         (timestamp : Timestamp) (g : Store) : Store * list (NodeId * NodeId) :=
  match rows with
  | [] => (g, [])
  | user :: rest =>
      let (g1, found) := merge_mcp mcpId mcpType mcpName timestamp g in
      let (g2, out) := merge_mcp_each rest mcpId mcpType mcpName timestamp g1 in
      (g2, map (pair user) found ++ out)
  end.

(** The three [CREATE] clauses run once per row [(user, mcp)]; the rows
    that leave them carry the new action node. *)
Fixpoint create_each (rows : list (NodeId * NodeId)) (a : Action.t) (g : Store)
  : Store * list NodeId :=
  match rows with
  | [] => (g, [])
  | (user, mcp) :: rest =>
      let (g', out) := create_each rest a (add_action user mcp a g) in
      (g', next_node g :: out)
  end.

Module RecordQ.
Record params := mk {
  userId : string; userName : string;
  mcpId : string; mcpType : string; mcpName : string;
  actionId : string; actionType : string; actionName : string;
  parametersJson : string; resultJson : string;
  status : Status; timestamp : Timestamp
}.
End RecordQ.

(** The properties of [CREATE (action:Action {...})]. *)
Definition new_action (p : RecordQ.params) : Action.t :=
  Action.mk (RecordQ.actionId p) (RecordQ.actionType p) (RecordQ.actionName p)
            (RecordQ.parametersJson p) (RecordQ.resultJson p) (RecordQ.status p)
            (RecordQ.timestamp p).

(** The write of [recordAction] (lines 115-156), from the store before it
    to the store after it and the rows [action.id AS actionId].  The
    query is one transaction: when the data it leaves would break a
    uniqueness constraint nothing of it is kept. *)
Definition record_query (p : RecordQ.params) (g : Store)
  : Error + (Store * list string) :=
  let (g1, us) := merge_user (RecordQ.userId p) (RecordQ.userName p)
                             (RecordQ.timestamp p) g in
  let (g2, rows) := merge_mcp_each us (RecordQ.mcpId p) (RecordQ.mcpType p)
                                   (RecordQ.mcpName p) (RecordQ.timestamp p) g1 in
  let (g3, created) := create_each rows (new_action p) g2 in
  if constraints_hold g3
  then inr (g3, map (fun _ => RecordQ.actionId p) created)
  else inl ConstraintValidationFailed.

(** [MATCH (action:Action)-[:USED]->(mcp:MCP)]: one row per USED
    relationship from an Action node to an MCP node. *)
Definition match_action_used_mcp (g : Store)
  : list ((NodeId * Action.t) * (NodeId * MCP.t)) :=
  flat_map (fun a =>
    flat_map (fun e =>
      if Nat.eqb (fst e) (fst a)
      then map (pair a) (node_at (mcps g) (snd e))
      else [])
    (USED g))
  (actions g).

Module SimilarQ.
Record params := mk {
  mcpType : string; actionType : string; parametersJson : string; limit : Z
}.
Record row := mkRow { action : Action.t; mcp : MCP.t; similarity : Q }.
End SimilarQ.

Module HistoryQ.
Record params := mk { userId : string; limit : Z }.
Record row := mkRow { action : Action.t; mcp : MCP.t }.
End HistoryQ.

Module SuggestQ.
Record params := mk {
  userId : string; mcpType : string; currentActionType : string;
  currentParamsJson : string
}.
(** The variables bound by the three [MATCH] clauses. *)
Record binding := mkBinding {
  currentAction : NodeId * Action.t;
  mcp : NodeId * MCP.t;
  user : NodeId * User.t;
  nextAction : NodeId * Action.t
}.
Record row := mkRow {
  nextActionType : string; nextActionName : string;
  parametersList : list string; frequency : nat
}.
End SuggestQ.

Module RecommendQ.
Record params := mk { userId : string; context : string }.
Record binding := mkBinding {
  action : NodeId * Action.t;
  mcp : NodeId * MCP.t;
  user : NodeId * User.t
}.
Record row := mkRow {
  mcpType : string; mcpName : string;
  actionType : string; actionName : string;
  parameterSamples : list string; frequency : nat
}.
End RecommendQ.

Module RelatedQ.
Record params := mk { actionId : string; maxDepth : Z }.
End RelatedQ.

Section Queries.
Context {P : Platform}.

(** The query of [findSimilarActions] (lines 238-253).  The [MATCH] and
    its [WHERE] on the two types give the candidates; [CALL
    apoc.text.jaroWinklerDistance($parametersJson, action.parameters)
    YIELD similarity] gives each its score, on a store where the call
    resolves (see [similar_query]). *)
Definition similar_candidates (p : SimilarQ.params) (g : Store) : list SimilarQ.row :=
  map (fun r => SimilarQ.mkRow (snd (fst r)) (snd (snd r))
                 (jaroWinklerDistance (SimilarQ.parametersJson p)
                                      (Action.parameters (snd (fst r)))))
      (filter (fun r => String.eqb (MCP.type (snd (snd r))) (SimilarQ.mcpType p)
                        && String.eqb (Action.type (snd (fst r))) (SimilarQ.actionType p))
              (match_action_used_mcp g)).

(** [ORDER BY similarity DESC, action.timestamp DESC]. *)
Definition similar_ahead (x y : SimilarQ.row) : bool :=
  Qgtb (SimilarQ.similarity x) (SimilarQ.similarity y)
  || (Qeq_bool (SimilarQ.similarity x) (SimilarQ.similarity y)
      && (Action.timestamp (SimilarQ.action y) <? Action.timestamp (SimilarQ.action x))%Z).

(** [WHERE similarity > 0.7 RETURN action, mcp, similarity ORDER BY ...
    LIMIT $limit].  The names of a query are resolved before it runs: on
    a store without a procedure named [apoc.text.jaroWinklerDistance] the
    [CALL] is refused and the query fails, whatever the data and the
    parameters. *)
Definition similar_query (p : SimilarQ.params) (g : Store) : Error + list SimilarQ.row :=
  if jaroWinklerDistance_procedure
  then limit_rows (SimilarQ.limit p)
         (order_by similar_ahead
            (filter (fun r => Qgtb (SimilarQ.similarity r) threshold)
                    (similar_candidates p g)))
  else inl (ProcedureNotFound "apoc.text.jaroWinklerDistance").

(** The query of [getUserActionHistory] (lines 297-305):
    [MATCH (user:User {id: $userId})-[:PERFORMED]->(action:Action)-[:USED]->(mcp:MCP)]. *)
Definition history_matches (p : HistoryQ.params) (g : Store) : list HistoryQ.row :=
  flat_map (fun u =>
    flat_map (fun e =>
      if Nat.eqb (fst e) (fst u)
      then flat_map (fun a =>
             flat_map (fun e' =>
               if Nat.eqb (fst e') (fst a)
               then map (fun m => HistoryQ.mkRow (snd a) (snd m))
                        (node_at (mcps g) (snd e'))
               else [])
             (USED g))
           (node_at (actions g) (snd e))
      else [])
    (PERFORMED g))
  (filter (fun u => String.eqb (User.id (snd u)) (HistoryQ.userId p)) (users g)).

Definition history_ahead (x y : HistoryQ.row) : bool :=
  (Action.timestamp (HistoryQ.action y) <? Action.timestamp (HistoryQ.action x))%Z.

Definition history_query (p : HistoryQ.params) (g : Store) : Error + list HistoryQ.row :=
  limit_rows (HistoryQ.limit p) (order_by history_ahead (history_matches p g)).

(** The query of [suggestNextAction] (lines 358-387). *)

(** First [MATCH] and its [WHERE]: the anchors. *)
Definition anchors (p : SuggestQ.params) (g : Store)
  : list ((NodeId * Action.t) * (NodeId * MCP.t)) :=
  filter (fun r =>
            String.eqb (Action.type (snd (fst r))) (SuggestQ.currentActionType p)
            && String.eqb (MCP.type (snd (snd r))) (SuggestQ.mcpType p)
            && Qgtb (jaroWinklerDistance (SuggestQ.currentParamsJson p)
                                         (Action.parameters (snd (fst r))))
                    threshold)
         (match_action_used_mcp g).

(** [MATCH (user:User)-[:PERFORMED]->(currentAction)]. *)
Definition performers_of (g : Store) (a : NodeId) : list (NodeId * User.t) :=
  flat_map (fun e => if Nat.eqb (snd e) a then node_at (users g) (fst e) else [])
           (PERFORMED g).

(** [MATCH (user)-[:PERFORMED]->(nextAction:Action)-[:USED]->(mcp)], for a
    bound [user] and a bound [mcp]. *)
Definition actions_by_on (g : Store) (user mcp : NodeId) : list (NodeId * Action.t) :=
  flat_map (fun e =>
    if Nat.eqb (fst e) user
    then flat_map (fun a =>
           flat_map (fun e' =>
             if Nat.eqb (fst e') (fst a) && Nat.eqb (snd e') mcp then [a] else [])
           (USED g))
         (node_at (actions g) (snd e))
    else [])
  (PERFORMED g).

(** The pairs of an anchor and a later action of its user on its MCP
    node: [WHERE nextAction.timestamp > currentAction.timestamp]. *)
Definition successors (p : SuggestQ.params) (g : Store) : list SuggestQ.binding :=
  flat_map (fun r =>
    flat_map (fun u =>
      map (SuggestQ.mkBinding (fst r) (snd r) u)
          (filter (fun n => (Action.timestamp (snd (fst r)) <? Action.timestamp (snd n))%Z)
                  (actions_by_on g (fst u) (fst (snd r)))))
    (performers_of g (fst (fst r))))
  (anchors p g).

(** [WITH ..., duration.between(datetime(currentAction.timestamp),
    datetime(nextAction.timestamp)) AS timeDiff WHERE timeDiff.minutes < 30]. *)
Definition in_window (b : SuggestQ.binding) : bool :=
  (minutes (duration_between (Action.timestamp (snd (SuggestQ.currentAction b)))
                             (Action.timestamp (snd (SuggestQ.nextAction b))))
   <? 30)%Z.

Definition windowed (p : SuggestQ.params) (g : Store) : list SuggestQ.binding :=
  filter in_window (successors p g).

Definition pair_eqb (x y : string * string) : bool :=
  String.eqb (fst x) (fst y) && String.eqb (snd x) (snd y).

(** [RETURN nextAction.type, nextAction.name, COLLECT(DISTINCT
    nextAction.parameters), COUNT(nextAction)]: one row per pair of type
    and name. *)
Definition suggest_groups (bs : list SuggestQ.binding) : list SuggestQ.row :=
  map (fun kg =>
         SuggestQ.mkRow (fst (fst kg)) (snd (fst kg))
           (collect_distinct
              (map (fun b => Action.parameters (snd (SuggestQ.nextAction b))) (snd kg)))
           (length (snd kg)))
      (group_rows
         (fun b => (Action.type (snd (SuggestQ.nextAction b)),
                    Action.name (snd (SuggestQ.nextAction b))))
         pair_eqb bs).

Definition suggest_query (p : SuggestQ.params) (g : Store) : Error + list SuggestQ.row :=
  limit_rows 3
    (order_by (fun x y => SuggestQ.frequency y <? SuggestQ.frequency x)
              (suggest_groups (windowed p g))).

(** The query of [getActionRecommendations] (lines 425-448).
    [db.index.fulltext.queryNodes("actionContext", $context)] needs the
    full-text index of that name; no statement of [initializeSchema]
    creates it. *)
Definition recommend_matches (p : RecommendQ.params) (g : Store)
  : list RecommendQ.binding :=
  flat_map (fun a =>
    flat_map (fun m =>
      map (RecommendQ.mkBinding a m) (performers_of g (fst a)))
    (flat_map (fun e => if Nat.eqb (fst e) (fst a) then node_at (mcps g) (snd e) else [])
              (USED g)))
  (filter (fun a => fulltext_matches (RecommendQ.context p) (snd a)) (actions g)).

Definition quad_eqb (x y : string * string * string * string) : bool :=
  match x, y with
  | (a, b, c, d), (a', b', c', d') =>
      String.eqb a a' && String.eqb b b' && String.eqb c c' && String.eqb d d'
  end.

Definition recommend_groups (bs : list RecommendQ.binding) : list RecommendQ.row :=
  map (fun kg =>
         match fst kg with
         | (mt, mn, at_, an) =>
             RecommendQ.mkRow mt mn at_ an
               (collect_distinct
                  (map (fun b => Action.parameters (snd (RecommendQ.action b))) (snd kg)))
               (length (snd kg))
         end)
      (group_rows
         (fun b => (MCP.type (snd (RecommendQ.mcp b)), MCP.name (snd (RecommendQ.mcp b)),
                    Action.type (snd (RecommendQ.action b)),
                    Action.name (snd (RecommendQ.action b))))
         quad_eqb bs).

Definition recommend_query (p : RecommendQ.params) (g : Store)
  : Error + list RecommendQ.row :=
  if has_schema g (FulltextIndex "actionContext")
  then limit_rows 5
         (order_by (fun x y => RecommendQ.frequency y <? RecommendQ.frequency x)
                   (recommend_groups (recommend_matches p g)))
  else inl (NoSuchIndex "actionContext").

(** The query of [getRelatedActions] (lines 191-199): one row per Action
    node with the id, holding the subgraph around it. *)
Definition related_query (p : RelatedQ.params) (g : Store) : Error + list Subgraph :=
  inr (map (fun a => subgraphAll g (fst a) (RelatedQ.maxDepth p))
           (filter (fun a => String.eqb (Action.id (snd a)) (RelatedQ.actionId p))
                   (actions g))).

End Queries.

(** [CREATE CONSTRAINT IF NOT EXISTS ... REQUIRE n.id IS UNIQUE] and
    [CREATE INDEX IF NOT EXISTS ...]: nothing happens when the item is
    there; a constraint that the data already breaks cannot be created. *)
Definition create_if_not_exists (i : SchemaItem) (g : Store) : Error + (Store * unit) :=
  if has_schema g i then inr (g, tt)
  else if item_holds g i then inr (add_schema i g, tt)
  else inl ConstraintValidationFailed.

(** ** The runtime around the class *)

(** What one call takes from outside: the value [uuidv4()] draws, the
    reading of the clock, and whether the store answers. *)
Record Ext := mkExt { uuidv4 : string; now : Timestamp; reachable : bool }.

(** The store, the number of calls made on the driver and its sessions,
    and the lines written to the console. *)
Record World := mkWorld { db : Store; driver_calls : nat; console : list string }.

Definition IO (A : Type) : Type := Ext -> World -> (Error + A) * World.

Definition ret {A} (x : A) : IO A := fun _ w => (inr x, w).

Definition bind {A B} (m : IO A) (k : A -> IO B) : IO B :=
  fun ext w =>
    match m ext w with
    | (inr x, w') => k x ext w'
    | (inl e, w') => (inl e, w')
    end.

Declare Scope io_scope.
Delimit Scope io_scope with io.
Notation "x <- m ;; k" := (bind m (fun x => k))
  (at level 61, m at next level, right associativity) : io_scope.
Notation "m ;; k" := (bind m (fun _ => k))
  (at level 61, right associativity) : io_scope.
Local Open Scope io_scope.

(** [try { body } catch (error) { handler }]. *)
Definition try_catch {A} (body : IO A) (handler : Error -> IO A) : IO A :=
  fun ext w =>
    match body ext w with
    | (inr x, w') => (inr x, w')
    | (inl e, w') => handler e ext w'
    end.

(** [... finally { fin }]: [fin] runs on both exits. *)
Definition finally {A} (body : IO A) (fin : IO unit) : IO A :=
  fun ext w =>
    match body ext w with
    | (r, w') =>
        match fin ext w' with
        | (inr _, w'') => (r, w'')
        | (inl e, w'') => (inl e, w'')
        end
    end.

Definition lift {A} (r : Error + A) : IO A := fun _ w => (r, w).

Definition called (w : World) : World :=
  mkWorld (db w) (S (driver_calls w)) (console w).

Definition log (line : string) : IO unit :=
  fun _ w => (inr tt, mkWorld (db w) (driver_calls w) (console w ++ [line])).

Definition uuid : IO string := fun ext w => (inr (uuidv4 ext), w).

Definition clock : IO Timestamp := fun ext w => (inr (now ext), w).

(** [this.driver.session()], [session.close()], [this.driver.close()]. *)
Definition driver_session : IO unit := fun _ w => (inr tt, called w).
Definition session_close : IO unit := fun _ w => (inr tt, called w).
Definition driver_close : IO unit := fun _ w => (inr tt, called w).

(** [this.driver.verifyConnectivity()]. *)
Definition verifyConnectivity : IO unit :=
  fun ext w =>
    if reachable ext then (inr tt, called w)
    else (inl ServiceUnavailable, called w).

(** [session.run(query, params)]: the query runs as one transaction,
    which leaves the store it computes or, on an error, the store as it
    was. *)
Definition session_run {R} (query : Store -> Error + (Store * R)) : IO R :=
  fun ext w =>
    if reachable ext then
      match query (db w) with
      | inr (g', r) => (inr r, called (mkWorld g' (driver_calls w) (console w)))
      | inl e => (inl e, called w)
      end
    else (inl ServiceUnavailable, called w).

Definition reading {R} (query : Store -> Error + R) (g : Store) : Error + (Store * R) :=
  match query g with
  | inr r => inr (g, r)
  | inl e => inl e
  end.

(** [list.map(f)] where [f] can throw: the first throw ends the map. *)
Fixpoint map_throw {A B} (f : A -> Error + B) (l : list A) : Error + list B :=
  match l with
  | [] => inr []
  | x :: r =>
      match f x with
      | inl e => inl e
      | inr y =>
          match map_throw f r with
          | inl e => inl e
          | inr ys => inr (y :: ys)
          end
      end
  end.

(** ** The class [ActionTracker] *)

Record Driver := mkDriver { uri : string; username : string; password : string }.

(** The fields of the class; [session] is never assigned and is left
    out. *)
Record ActionTracker := mkTracker { driver : option Driver; enabled : bool }.

(** [!this.enabled || !this.driver], the guard that opens every method. *)
Definition disabled (self : ActionTracker) : bool :=
  negb (enabled self) || match driver self with Some _ => false | None => true end.

(** An optional string argument is truthy when it is given and not
    empty. *)
Definition truthy (s : option string) : bool :=
  match s with
  | Some s => negb (String.eqb s EmptyString)
  | None => false
  end.

(** A parameter with a default value. *)
Definition default {A} (d : A) (x : option A) : A :=
  match x with Some v => v | None => d end.

(** The constructor, where [neo4j.driver(uri, auth)] returns the driver.
    On a [uri] that the driver refuses (a scheme it does not know)
    [neo4j.driver] throws and no object is made; such a [uri] is taken
    here as one the driver accepts. *)
Definition constructor (uri username password : option string) (w : World)
  : ActionTracker * World :=
  if truthy uri && truthy username && truthy password
  then (mkTracker (Some (mkDriver (default EmptyString uri)
                                  (default EmptyString username)
                                  (default EmptyString password)))
                  true,
        w)
  else (mkTracker None false,
        mkWorld (db w) (driver_calls w)
          (console w ++ ["Neo4j connection parameters not provided. Action tracking will be disabled."])).

Definition initializeSchema (self : ActionTracker) : IO unit :=
  if disabled self then ret tt
  else
    driver_session ;;
    finally
      (session_run (create_if_not_exists (UniqueId LUser)) ;;
       session_run (create_if_not_exists (UniqueId LAction)) ;;
       session_run (create_if_not_exists (UniqueId LMCP)) ;;
       session_run (create_if_not_exists (RangeIndex LAction "timestamp")) ;;
       session_run (create_if_not_exists (RangeIndex LAction "mcpType")))
      session_close.

(** [connect] returns nothing; it leaves the object as it is or, from the
    [catch] branch, disabled. *)
Definition connect (self : ActionTracker) : IO ActionTracker :=
  if disabled self then
    log "Neo4j Action Tracker is disabled - skipping connection" ;;
    ret self
  else
    try_catch
      (verifyConnectivity ;;
       log "Connected to Neo4j Action Tracker" ;;
       initializeSchema self ;;
       ret self)
      (fun error =>
         log "Failed to connect to Neo4j Action Tracker:" ;;
         log "Disabling Neo4j Action Tracker and continuing without it" ;;
         ret (mkTracker None false)).

Definition close (self : ActionTracker) : IO unit :=
  if enabled self && match driver self with Some _ => true | None => false end
  then driver_close
  else ret tt.

Module RecordArgs.
Record t (J : Type) := mk {
  userId : string; userName : string;
  mcpId : string; mcpType : string; mcpName : string;
  actionType : string; actionName : string;
  parameters : J; result : J; status : Status
}.
End RecordArgs.

Module RelatedArgs.
Record t := mk { actionId : string; maxDepth : option Z }.
End RelatedArgs.

Module SimilarArgs.
Record t (J : Type) := mk {
  mcpType : string; actionType : string; parameters : J; limit : option Z
}.
End SimilarArgs.

Module SuggestArgs.
Record t (J : Type) := mk {
  userId : string; mcpType : string; currentActionType : string;
  currentParameters : J
}.
End SuggestArgs.

(** [{...action, parameters: JSON.parse(...), result: JSON.parse(...)}]. *)
Module Parsed.
Record t (J : Type) := mk { action : Action.t; parameters : J; result : J }.
End Parsed.

Module Recorded.
Record t := mk { actionId : string; message : Message }.
End Recorded.

Module Similar.
Record t (J : Type) := mk { action : Parsed.t J; mcp : MCP.t; similarity : Q }.
End Similar.

Module History.
Record t (J : Type) := mk { action : Parsed.t J; mcp : MCP.t }.
End History.

(** [Integer.toInt()] of the driver: the low 32 bits of the integer, read
    as a signed number. *)
Definition toInt (n : Z) : Z := ((n + 2 ^ 31) mod 2 ^ 32 - 2 ^ 31)%Z.

Module Suggestion.
Record t (J : Type) := mk {
  actionType : string; actionName : string;
  possibleParameters : list J; frequency : Z
}.
End Suggestion.

Module Recommendation.
Record t (J : Type) := mk {
  mcpType : string; mcpName : string;
  actionType : string; actionName : string;
  parameterSamples : list J; frequency : Z
}.
End Recommendation.

Section Methods.
Context {P : Platform}.

Definition parse (text : string) : Error + Json :=
  match JSON_parse text with
  | Some v => inr v
  | None => inl (SyntaxError text)
  end.

Definition parsed_action (a : Action.t) : Error + Parsed.t Json :=
  match parse (Action.parameters a) with
  | inl e => inl e
  | inr p =>
      match parse (Action.result a) with
      | inl e => inl e
      | inr r => inr (Parsed.mk a p r)
      end
  end.

Definition recordAction (self : ActionTracker) (a : RecordArgs.t Json)
  : IO (Reply Recorded.t) :=
  if disabled self then
    actionId <- uuid ;;
    ret (Success (Recorded.mk actionId
                    (Text "Action tracking is disabled - action not recorded")))
  else
    driver_session ;;
    actionId <- uuid ;;
    timestamp <- clock ;;
    finally
      (try_catch
         (session_run
            (record_query
               (RecordQ.mk (RecordArgs.userId a) (RecordArgs.userName a)
                  (RecordArgs.mcpId a) (RecordArgs.mcpType a) (RecordArgs.mcpName a)
                  actionId (RecordArgs.actionType a) (RecordArgs.actionName a)
                  (JSON_stringify (RecordArgs.parameters a))
                  (JSON_stringify (RecordArgs.result a))
                  (RecordArgs.status a) timestamp)) ;;
          ret (Success (Recorded.mk actionId (Text "Action recorded successfully"))))
         (fun error =>
            log "Error recording action:" ;;
            ret (Failure (Template "Failed to record action: " error))))
      session_close.

Definition getRelatedActions (self : ActionTracker) (a : RelatedArgs.t)
  : IO (Reply (option Subgraph)) :=
  if disabled self then
    ret (Failure (Text "Action tracking is disabled - cannot retrieve related actions"))
  else
    driver_session ;;
    finally
      (try_catch
         (records <- session_run
            (reading (related_query
               (RelatedQ.mk (RelatedArgs.actionId a)
                            (default 2%Z (RelatedArgs.maxDepth a))))) ;;
          ret (Success (hd_error records)))
         (fun error =>
            log "Error getting related actions:" ;;
            ret (Failure (Template "Failed to get related actions: " error))))
      session_close.

Definition findSimilarActions (self : ActionTracker) (a : SimilarArgs.t Json)
  : IO (Reply (list (Similar.t Json))) :=
  if disabled self then
    ret (Failure (Text "Action tracking is disabled - cannot find similar actions"))
  else
    driver_session ;;
    finally
      (try_catch
         (records <- session_run
            (reading (similar_query
               (SimilarQ.mk (SimilarArgs.mcpType a) (SimilarArgs.actionType a)
                  (JSON_stringify (SimilarArgs.parameters a))
                  (default 5%Z (SimilarArgs.limit a))))) ;;
          similarActions <- lift (map_throw
            (fun record =>
               match parsed_action (SimilarQ.action record) with
               | inl e => inl e
               | inr action =>
                   inr (Similar.mk action (SimilarQ.mcp record)
                                   (SimilarQ.similarity record))
               end)
            records) ;;
          ret (Success similarActions))
         (fun error =>
            log "Error finding similar actions:" ;;
            ret (Failure (Template "Failed to find similar actions: " error))))
      session_close.

Definition getUserActionHistory (self : ActionTracker) (userId : string)
           (limit : option Z) : IO (Reply (list (History.t Json))) :=
  if disabled self then
    ret (Failure (Text "Action tracking is disabled - cannot retrieve user action history"))
  else
    driver_session ;;
    finally
      (try_catch
         (records <- session_run
            (reading (history_query (HistoryQ.mk userId (default 20%Z limit)))) ;;
          actions <- lift (map_throw
            (fun record =>
               match parsed_action (HistoryQ.action record) with
               | inl e => inl e
               | inr action => inr (History.mk action (HistoryQ.mcp record))
               end)
            records) ;;
          ret (Success actions))
         (fun error =>
            log "Error getting user action history:" ;;
            ret (Failure (Template "Failed to get user action history: " error))))
      session_close.

Definition suggestNextAction (self : ActionTracker) (a : SuggestArgs.t Json)
  : IO (Reply (list (Suggestion.t Json))) :=
  if disabled self then
    ret (Failure (Text "Action tracking is disabled - cannot suggest next action"))
  else
    driver_session ;;
    finally
      (try_catch
         (records <- session_run
            (reading (suggest_query
               (SuggestQ.mk (SuggestArgs.userId a) (SuggestArgs.mcpType a)
                  (SuggestArgs.currentActionType a)
                  (JSON_stringify (SuggestArgs.currentParameters a))))) ;;
          suggestions <- lift (map_throw
            (fun record =>
               match map_throw parse (SuggestQ.parametersList record) with
               | inl e => inl e
               | inr params =>
                   inr (Suggestion.mk (SuggestQ.nextActionType record)
                          (SuggestQ.nextActionName record) params
                          (toInt (Z.of_nat (SuggestQ.frequency record))))
               end)
            records) ;;
          ret (Success suggestions))
         (fun error =>
            log "Error suggesting next action:" ;;
            ret (Failure (Template "Failed to suggest next action: " error))))
      session_close.

Definition getActionRecommendations (self : ActionTracker) (userId context : string)
  : IO (Reply (list (Recommendation.t Json))) :=
  if disabled self then
    ret (Failure (Text "Action tracking is disabled - cannot get action recommendations"))
  else
    driver_session ;;
    finally
      (try_catch
         (records <- session_run
            (reading (recommend_query (RecommendQ.mk userId context))) ;;
          recommendations <- lift (map_throw
            (fun record =>
               match map_throw parse (RecommendQ.parameterSamples record) with
               | inl e => inl e
               | inr params =>
                   inr (Recommendation.mk (RecommendQ.mcpType record)
                          (RecommendQ.mcpName record) (RecommendQ.actionType record)
                          (RecommendQ.actionName record) params
                          (toInt (Z.of_nat (RecommendQ.frequency record))))
               end)
            records) ;;
          ret (Success recommendations))
         (fun error =>
            log "Error getting action recommendations:" ;;
            ret (Failure (Template "Failed to get action recommendations: " error))))
      session_close.

End Methods.

(** The parameters the methods bind and the maps they run over the
    records, by name. *)
Section Pieces.
Context {P : Platform}.

Definition record_params (a : RecordArgs.t Json) (ext : Ext) : RecordQ.params :=
  RecordQ.mk (RecordArgs.userId a) (RecordArgs.userName a)
             (RecordArgs.mcpId a) (RecordArgs.mcpType a) (RecordArgs.mcpName a)
             (uuidv4 ext) (RecordArgs.actionType a) (RecordArgs.actionName a)
             (JSON_stringify (RecordArgs.parameters a))
             (JSON_stringify (RecordArgs.result a))
             (RecordArgs.status a) (now ext).

Definition similar_params (a : SimilarArgs.t Json) : SimilarQ.params :=
  SimilarQ.mk (SimilarArgs.mcpType a) (SimilarArgs.actionType a)
              (JSON_stringify (SimilarArgs.parameters a))
              (default 5%Z (SimilarArgs.limit a)).

Definition similar_post (records : list SimilarQ.row) : Error + list (Similar.t Json) :=
  map_throw
    (fun record =>
       match parsed_action (SimilarQ.action record) with
       | inl e => inl e
       | inr action =>
           inr (Similar.mk action (SimilarQ.mcp record) (SimilarQ.similarity record))
       end)
    records.

Definition history_post (records : list HistoryQ.row) : Error + list (History.t Json) :=
  map_throw
    (fun record =>
       match parsed_action (HistoryQ.action record) with
       | inl e => inl e
       | inr action => inr (History.mk action (HistoryQ.mcp record))
       end)
    records.

End Pieces.

(** The world before any call. *)
Definition boot : World := mkWorld Graph.empty 0 [].

(** ** Runs of the class

    A run is the construction of the object followed by calls of its
    methods, each with what it takes from outside. *)

Section Runs.
Context {P : Platform}.

Inductive Call :=
| Connect
| Close
| RecordAction (a : RecordArgs.t Json)
| GetRelatedActions (a : RelatedArgs.t)
| FindSimilarActions (a : SimilarArgs.t Json)
| GetUserActionHistory (userId : string) (limit : option Z)
| SuggestNextAction (a : SuggestArgs.t Json)
| GetActionRecommendations (userId context : string).

Inductive Response :=
| Returned                                               (* connect, close *)
| RecordReply (r : Reply Recorded.t)
| RelatedReply (r : Reply (option Subgraph))
| SimilarReply (r : Reply (list (Similar.t Json)))
| HistoryReply (r : Reply (list (History.t Json)))
| SuggestReply (r : Reply (list (Suggestion.t Json)))
| RecommendReply (r : Reply (list (Recommendation.t Json)))
| Thrown (e : Error).

Definition respond {A} (wrap : A -> Response) (self : ActionTracker)
           (r : (Error + A) * World) : Response * ActionTracker * World :=
  match r with
  | (inr x, w) => (wrap x, self, w)
  | (inl e, w) => (Thrown e, self, w)
  end.

Definition step (c : Call) (ext : Ext) (self : ActionTracker) (w : World)
  : Response * ActionTracker * World :=
  match c with
  | Connect =>
      match connect self ext w with
      | (inr self', w') => (Returned, self', w')
      | (inl e, w') => (Thrown e, self, w')
      end
  | Close => respond (fun _ => Returned) self (close self ext w)
  | RecordAction a => respond RecordReply self (recordAction self a ext w)
  | GetRelatedActions a => respond RelatedReply self (getRelatedActions self a ext w)
  | FindSimilarActions a => respond SimilarReply self (findSimilarActions self a ext w)
  | GetUserActionHistory u l =>
      respond HistoryReply self (getUserActionHistory self u l ext w)
  | SuggestNextAction a => respond SuggestReply self (suggestNextAction self a ext w)
  | GetActionRecommendations u c =>
      respond RecommendReply self (getActionRecommendations self u c ext w)
  end.

Fixpoint run (calls : list (Call * Ext)) (self : ActionTracker) (w : World)
  : list Response * ActionTracker * World :=
  match calls with
  | [] => ([], self, w)
  | (c, ext) :: rest =>
      match step c ext self w with
      | (r, self', w') =>
          match run rest self' w' with
          | (rs, self'', w'') => (r :: rs, self'', w'')
          end
      end
  end.

(** What a method answers when the object is disabled. *)
Definition disabled_response (c : Call) (ext : Ext) : Response :=
  match c with
  | Connect | Close => Returned
  | RecordAction _ =>
      RecordReply (Success (Recorded.mk (uuidv4 ext)
        (Text "Action tracking is disabled - action not recorded")))
  | GetRelatedActions _ =>
      RelatedReply (Failure (Text "Action tracking is disabled - cannot retrieve related actions"))
  | FindSimilarActions _ =>
      SimilarReply (Failure (Text "Action tracking is disabled - cannot find similar actions"))
  | GetUserActionHistory _ _ =>
      HistoryReply (Failure (Text "Action tracking is disabled - cannot retrieve user action history"))
  | SuggestNextAction _ =>
      SuggestReply (Failure (Text "Action tracking is disabled - cannot suggest next action"))
  | GetActionRecommendations _ _ =>
      RecommendReply (Failure (Text "Action tracking is disabled - cannot get action recommendations"))
  end.

(** The lines a disabled object writes to the console: [connect] says
    that it skips the connection, the other methods say nothing. *)
Definition disabled_lines (c : Call) : list string :=
  match c with
  | Connect => ["Neo4j Action Tracker is disabled - skipping connection"]
  | _ => []
  end.

End Runs.

(** ** A platform to run the class on

    Payloads are the literals and the empty containers of JSON, written
    and read back as [JSON.stringify] and [JSON.parse] do on them; the
    similarity is Jaro-Winkler; the full-text index matches an action by
    its name; the subgraph around a node is kept as the node and the
    depth asked for. *)

Module Example.

Inductive json := JNull | JTrue | JFalse | JObject | JArray.

Definition stringify (v : json) : string :=
  match v with
  | JNull => "null"
  | JTrue => "true"
  | JFalse => "false"
  | JObject => "{}"
  | JArray => "[]"
  end.

Definition parse_text (s : string) : option json :=
  if String.eqb s "null" then Some JNull
  else if String.eqb s "true" then Some JTrue
  else if String.eqb s "false" then Some JFalse
  else if String.eqb s "{}" then Some JObject
  else if String.eqb s "[]" then Some JArray
  else None.

(** A store that has, besides the function, a procedure named
    [apoc.text.jaroWinklerDistance]. *)
#[global] Instance platform : Platform := {
  Json := json;
  JSON_stringify := stringify;
  JSON_parse := parse_text;
  jaroWinklerDistance := JaroWinkler.similarity;
  jaroWinklerDistance_procedure := true;
  fulltext_matches := fun context a => String.eqb context (Action.name a);
  Subgraph := NodeId * Z;
  subgraphAll := fun _ n depth => (n, depth)
}.

(** The same with APOC as it is published: the name is a function and
    no procedure has it. *)
Definition apoc : Platform := {|
  Json := json;
  JSON_stringify := stringify;
  JSON_parse := parse_text;
  jaroWinklerDistance := JaroWinkler.similarity;
  jaroWinklerDistance_procedure := false;
  fulltext_matches := fun context a => String.eqb context (Action.name a);
  Subgraph := (NodeId * Z)%type;
  subgraphAll := fun _ n depth => (n, depth)
|}.

Definition up : Ext := mkExt "00000000-0000-4000-8000-000000000001" 0%Z true.
Definition down : Ext := mkExt "00000000-0000-4000-8000-000000000002" 0%Z false.

Definition fresh_world : World := boot.

Definition on_tracker : ActionTracker :=
  mkTracker (Some (mkDriver "bolt://localhost:7687" "neo4j" "secret")) true.

Definition off_tracker : ActionTracker := mkTracker None false.

Definition record_args (userId userName actionType actionName : string)
  : RecordArgs.t json :=
  RecordArgs.mk userId userName "dynamodb-mcp-server" "DynamoDB" "AWS DynamoDB"
                actionType actionName JObject JTrue success.

(** One call of each method. *)
Definition every_call : list (Call * Ext) :=
  [ (Connect, up);
    (RecordAction (record_args "u1" "Ann" "data_operation" "query_table"), up);
    (GetRelatedActions (RelatedArgs.mk "a1" None), up);
    (FindSimilarActions (SimilarArgs.mk "DynamoDB" "data_operation" JObject None), up);
    (GetUserActionHistory "u1" None, up);
    (SuggestNextAction (SuggestArgs.mk "u1" "DynamoDB" "data_operation" JObject), up);
    (GetActionRecommendations "u1" "query", up);
    (Close, up) ].

Definition at_time (id : string) (t : Timestamp) : Ext := mkExt id t true.

(** Ann runs a query and, ten minutes later, an export. *)
Definition session_of_ann : list (Call * Ext) :=
  [ (Connect, up);
    (RecordAction (record_args "u1" "Ann" "query" "query_table"), at_time "a1" 0%Z);
    (RecordAction (record_args "u1" "Ann" "export" "scan_table"), at_time "a2" 600000%Z) ].

Definition recorded : World :=
  Eval vm_compute in snd (run session_of_ann on_tracker fresh_world).

(** The same store after another writer left an Action whose result is
    not JSON. *)
Definition corrupt : World :=
  mkWorld (add_action 0 1
             (Action.mk "a9" "export" "scan_table" "{}" "{oops" success 900000%Z)
             (db recorded))
          0 [].

Definition similar_to_export (limit : option Z) : SimilarArgs.t json :=
  SimilarArgs.mk "DynamoDB" "export" JObject limit.

Definition found_in_recorded : list (Similar.t json) :=
  Eval vm_compute in
    match fst (findSimilarActions on_tracker (similar_to_export None) up recorded) with
    | inr (Success l) => l
    | _ => []
    end.

(** Ann exports again, twenty minutes after the query, with the same
    payload. *)
Definition exported_twice : World :=
  Eval vm_compute in
    snd (recordAction on_tracker (record_args "u1" "Ann" "export" "scan_table")
                      (at_time "a3" 1200000%Z) recorded).

(** Ann exports on the next day, one day and five minutes after the
    query. *)
Definition next_day : World :=
  Eval vm_compute in
    snd (recordAction on_tracker (record_args "u1" "Ann" "export" "scan_table")
                      (at_time "a4" 86700000%Z) recorded).

(** The export of [exported_twice], twenty minutes after the query. *)
Definition second_export : Action.t :=
  Action.mk "a3" "export" "scan_table" "{}" "true" success 1200000%Z.

(** The export of [recorded], ten minutes after the query. *)
Definition first_export : Action.t :=
  Action.mk "a2" "export" "scan_table" "{}" "true" success 600000%Z.

Definition the_mcp : MCP.t :=
  MCP.mk "dynamodb-mcp-server" "DynamoDB" "AWS DynamoDB" 0%Z.

Definition ann : User.t := User.mk "u1" "Ann" 0%Z.

Definition the_query : Action.t :=
  Action.mk "a1" "query" "query_table" "{}" "true" success 0%Z.

(** The export of [next_day], one day and five minutes after the query. *)
Definition late_export : Action.t :=
  Action.mk "a4" "export" "scan_table" "{}" "true" success 86700000%Z.

Definition after_query : SuggestArgs.t json :=
  SuggestArgs.mk "u1" "DynamoDB" "query" JObject.

(** A store that another writer filled before any constraint was there:
    two User nodes share an id. *)
Definition doubled : World :=
  mkWorld (add_user (User.mk "u1" "Ann" 0%Z)
             (add_user (User.mk "u1" "Ann" 0%Z) Graph.empty))
          0 [].

(** The store of [recorded] with the full-text index that
    [getActionRecommendations] queries, created by hand. *)
Definition indexed : World :=
  mkWorld (add_schema (FulltextIndex "actionContext") (db recorded)) 0 [].

Definition history_of_ann : list (History.t json) :=
  Eval vm_compute in
    match fst (getUserActionHistory on_tracker "u1" None up recorded) with
    | inr (Success l) => l
    | _ => []
    end.

Definition suggested_after_query : list (Suggestion.t json) :=
  Eval vm_compute in
    match fst (suggestNextAction on_tracker after_query up recorded) with
    | inr (Success l) => l
    | _ => []
    end.

Definition recommended_for_scan : list (Recommendation.t json) :=
  Eval vm_compute in
    match fst (getActionRecommendations on_tracker "u1" "scan_table" up indexed) with
    | inr (Success l) => l
    | _ => []
    end.

End Example.

(** ** Shapes of the store *)

(** Node identities are handed out in order: what the store holds was
    numbered below [next_node]. *)
Definition numbered (g : Store) : Prop :=
  (forall n a, In (n, a) (actions g) -> n < next_node g)
  /\ (forall e, In e (PERFORMED g) -> snd e < next_node g)
  /\ (forall e, In e (USED g) -> fst e < next_node g).

(** No orphan: every Action node has exactly one PERFORMED relationship
    coming in, from a User node, and exactly one USED relationship going
    out, to an MCP node. *)
Definition well_linked (g : Store) : Prop :=
  forall n a, In (n, a) (actions g) ->
    (exists u, performers g n = [u] /\ is_user g u = true)
    /\ (exists m, targets g n = [m] /\ is_mcp g m = true).

(** A computation keeps a property of the store. *)
Definition preserves {A} (I : Store -> Prop) (m : IO A) : Prop :=
  forall ext w r w', m ext w = (r, w') -> I (db w) -> I (db w').

(** The invariant of the store: identities in order, no orphan. *)
Definition sound (g : Store) : Prop := numbered g /\ well_linked g.

(** The five items of [initializeSchema], in the order of its
    statements. *)
Definition schema_items : list SchemaItem :=
  [ UniqueId LUser; UniqueId LAction; UniqueId LMCP;
    RangeIndex LAction "timestamp"; RangeIndex LAction "mcpType" ].

(** The store [g'] holds what [g] holds, in the same places: nodes,
    relationships and schema items are only added, at the end. *)
Definition extends (g g' : Store) : Prop :=
  next_node g <= next_node g'
  /\ (exists l, users g' = users g ++ l)
  /\ (exists l, mcps g' = mcps g ++ l)
  /\ (exists l, actions g' = actions g ++ l)
  /\ (exists l, PERFORMED g' = PERFORMED g ++ l)
  /\ (exists l, USED g' = USED g ++ l)
  /\ (exists l, schema g' = schema g ++ l).

(** No two User nodes and no two MCP nodes share an id. *)
Definition unique_nodes (g : Store) : Prop :=
  distinct (ids_of LUser g) = true /\ distinct (ids_of LMCP g) = true.

(** The statements of [initializeSchema] one after the other, each its
    own transaction: the store they reach, and the error that stopped
    them if one did. *)
Fixpoint create_all (items : list SchemaItem) (g : Store) : Store * option Error :=
  match items with
  | [] => (g, None)
  | i :: rest =>
      match create_if_not_exists i g with
      | inr (g', _) => create_all rest g'
      | inl e => (g, Some e)
      end
  end.

(** Two stores hold the same nodes and relationships. *)
Definition same_data (g g' : Store) : Prop :=
  next_node g' = next_node g /\ users g' = users g /\ mcps g' = mcps g
  /\ actions g' = actions g /\ PERFORMED g' = PERFORMED g /\ USED g' = USED g.

(** The maps that [suggestNextAction] and [getActionRecommendations] run
    over their records, by name. *)
Section MorePieces.
Context {P : Platform}.

Definition suggest_params (a : SuggestArgs.t Json) : SuggestQ.params :=
  SuggestQ.mk (SuggestArgs.userId a) (SuggestArgs.mcpType a)
              (SuggestArgs.currentActionType a)
              (JSON_stringify (SuggestArgs.currentParameters a)).

Definition suggest_post (records : list SuggestQ.row)
  : Error + list (Suggestion.t Json) :=
  map_throw
    (fun record =>
       match map_throw parse (SuggestQ.parametersList record) with
       | inl e => inl e
       | inr params =>
           inr (Suggestion.mk (SuggestQ.nextActionType record)
                  (SuggestQ.nextActionName record) params
                  (toInt (Z.of_nat (SuggestQ.frequency record))))
       end)
    records.

Definition recommend_post (records : list RecommendQ.row)
  : Error + list (Recommendation.t Json) :=
  map_throw
    (fun record =>
       match map_throw parse (RecommendQ.parameterSamples record) with
       | inl e => inl e
       | inr params =>
           inr (Recommendation.mk (RecommendQ.mcpType record)
                  (RecommendQ.mcpName record) (RecommendQ.actionType record)
                  (RecommendQ.actionName record) params
                  (toInt (Z.of_nat (RecommendQ.frequency record))))
       end)
    records.

End MorePieces.

(** Every Action of the store holds parameters and a result that
    [JSON.stringify] wrote. *)
Definition json_store {P : Platform} (g : Store) : Prop :=
  forall n a, In (n, a) (actions g) ->
    (exists v, Action.parameters a = JSON_stringify v)
    /\ (exists v, Action.result a = JSON_stringify v).

(** [JSON.parse] reads back what [JSON.stringify] wrote. *)
Definition parse_after_stringify {P : Platform} : Prop :=
  forall v, JSON_parse (JSON_stringify v) = Some v.

(** The store holds the pattern [(user:User {id: userId})-[:PERFORMED]->
    (action)-[:USED]->(mcp)] with these properties for the Action and the
    MCP node. *)
Definition performed_by (g : Store) (userId : string) (a : Action.t) (mc : MCP.t)
  : Prop :=
  exists u usr n m,
    In (u, usr) (users g) /\ User.id usr = userId
    /\ In (u, n) (PERFORMED g) /\ In (n, a) (actions g)
    /\ In (n, m) (USED g) /\ In (m, mc) (mcps g).

Section Grouped.
Variables (R K : Type) (key : R -> K) (K_eqb : K -> K -> bool).

(** What the groups are, for the rows seen so far: one group per key,
    holding the rows of that key in order, none empty. *)
Definition grouped (groups : list (K * list R)) (seen : list R) : Prop :=
  NoDup (map fst groups)
  /\ (forall k rows, In (k, rows) groups ->
        rows = filter (fun y => K_eqb k (key y)) seen /\ rows <> [])
  /\ (forall y, In y seen -> In (key y) (map fst groups)).

End Grouped.

(** The columns a suggestion is grouped by: the type and the name of the
    successor. *)
Definition successor_key (b : SuggestQ.binding) : string * string :=
  (Action.type (snd (SuggestQ.nextAction b)), Action.name (snd (SuggestQ.nextAction b))).

(** An anchor and a successor as [suggestNextAction] pairs them: the
    anchor is an Action of the type asked for, used on an MCP of the type
    asked for, with parameters similar to those of the query; one User
    node performed both Actions; the successor used the very MCP node of
    the anchor, at a later time that passes the window test. *)
Definition paired {P : Platform} (p : SuggestQ.params) (g : Store)
           (b : SuggestQ.binding) : Prop :=
  In (SuggestQ.currentAction b) (actions g)
  /\ In (SuggestQ.mcp b) (mcps g)
  /\ In (SuggestQ.user b) (users g)
  /\ In (SuggestQ.nextAction b) (actions g)
  /\ In (fst (SuggestQ.currentAction b), fst (SuggestQ.mcp b)) (USED g)
  /\ In (fst (SuggestQ.user b), fst (SuggestQ.currentAction b)) (PERFORMED g)
  /\ In (fst (SuggestQ.user b), fst (SuggestQ.nextAction b)) (PERFORMED g)
  /\ In (fst (SuggestQ.nextAction b), fst (SuggestQ.mcp b)) (USED g)
  /\ Action.type (snd (SuggestQ.currentAction b)) = SuggestQ.currentActionType p
  /\ MCP.type (snd (SuggestQ.mcp b)) = SuggestQ.mcpType p
  /\ (threshold < jaroWinklerDistance (SuggestQ.currentParamsJson p)
                    (Action.parameters (snd (SuggestQ.currentAction b))))%Q
  /\ (Action.timestamp (snd (SuggestQ.currentAction b))
      < Action.timestamp (snd (SuggestQ.nextAction b)))%Z
  /\ in_window b = true.

(** The columns a recommendation is grouped by. *)
Definition recommend_key (b : RecommendQ.binding) : string * string * string * string :=
  (MCP.type (snd (RecommendQ.mcp b)), MCP.name (snd (RecommendQ.mcp b)),
   Action.type (snd (RecommendQ.action b)), Action.name (snd (RecommendQ.action b))).

(** An Action, the MCP it used and a User that performed it, as
    [getActionRecommendations] matches them: the Action is one the
    full-text index returns for the context. *)
Definition recommended {P : Platform} (p : RecommendQ.params) (g : Store)
           (b : RecommendQ.binding) : Prop :=
  In (RecommendQ.action b) (actions g)
  /\ In (RecommendQ.mcp b) (mcps g)
  /\ In (RecommendQ.user b) (users g)
  /\ In (fst (RecommendQ.action b), fst (RecommendQ.mcp b)) (USED g)
  /\ In (fst (RecommendQ.user b), fst (RecommendQ.action b)) (PERFORMED g)
  /\ fulltext_matches (RecommendQ.context p) (snd (RecommendQ.action b)) = true.

(** Every node has one identity, below [next_node], and no relationship
    is stored twice. *)
Definition simple (g : Store) : Prop :=
  NoDup (map fst (users g)) /\ NoDup (map fst (mcps g))
  /\ NoDup (map fst (actions g))
  /\ NoDup (PERFORMED g) /\ NoDup (USED g)
  /\ (forall n, In n (map fst (users g)) -> n < next_node g)
  /\ (forall n, In n (map fst (mcps g)) -> n < next_node g)
  /\ (forall n, In n (map fst (actions g)) -> n < next_node g)
  /\ (forall e, In e (PERFORMED g) -> snd e < next_node g)
  /\ (forall e, In e (USED g) -> fst e < next_node g).

(** [n] is the number of values that satisfy [holds]. *)
Definition number_of {A} (holds : A -> Prop) (n : nat) : Prop :=
  exists l, NoDup l /\ (forall x, In x l <-> holds x) /\ length l = n.

(** The number of pairs of an anchor and a successor whose successor has
    the type and the name [key]. *)
Definition successors_counted {P : Platform} (p : SuggestQ.params) (g : Store)
           (key : string * string) (n : nat) : Prop :=
  number_of (fun b => paired p g b /\ successor_key b = key) n.

(** The number of matches of [getActionRecommendations] with the four
    values [key]. *)
Definition matches_counted {P : Platform} (p : RecommendQ.params) (g : Store)
           (key : string * string * string * string) (n : nat) : Prop :=
  number_of (fun b => recommended p g b /\ recommend_key b = key) n.

(** ** The tracker of the server (src/index.ts) *)




(** A call that ends in an exception of the method. *)
Definition thrown {P : Platform} (r : Response) : bool :=
  match r with Thrown _ => true | _ => false end.

(** * Properties *)

Unset Implicit Arguments.

(** ** The disabled object *)

Section Disabled.
Context {P : Platform}.

Lemma constructor_disabled uri username password w :
  truthy uri && truthy username && truthy password = false ->
  fst (constructor uri username password w) = mkTracker None false
  /\ db (snd (constructor uri username password w)) = db w
  /\ driver_calls (snd (constructor uri username password w)) = driver_calls w.
Proof.
  intros H. unfold constructor. rewrite H. simpl. auto.
Qed.

Lemma absent_not_truthy uri username password :
  uri = None \/ username = None \/ password = None ->
  truthy uri && truthy username && truthy password = false.
Proof.
  intros [-> | [-> | ->]]; simpl.
  - reflexivity.
  - apply andb_false_intro1, andb_false_r.
  - apply andb_false_r.
Qed.

(** A disabled object answers every call from its guard: the answer is
    [disabled_response], the object stays as it is, and the world changes
    by the console line of [connect] at most. *)
Lemma step_disabled c ext self w :
  disabled self = true ->
  step c ext self w
  = (disabled_response c ext, self,
     mkWorld (db w) (driver_calls w) (console w ++ disabled_lines c)).
Proof.
  intros H. destruct w as [g n out].
  destruct c; simpl; rewrite ?app_nil_r.
  - unfold connect. rewrite H. reflexivity.
  - unfold close.
    assert (E : enabled self && match driver self with Some _ => true | None => false end = false).
    { unfold disabled in H. destruct (enabled self), (driver self); simpl in *; congruence. }
    rewrite E. reflexivity.
  - unfold recordAction. rewrite H. reflexivity.
  - unfold getRelatedActions. rewrite H. reflexivity.
  - unfold findSimilarActions. rewrite H. reflexivity.
  - unfold getUserActionHistory. rewrite H. reflexivity.
  - unfold suggestNextAction. rewrite H. reflexivity.
  - unfold getActionRecommendations. rewrite H. reflexivity.
Qed.

Lemma run_disabled calls : forall self w,
  disabled self = true ->
  run calls self w
  = (map (fun ce => disabled_response (fst ce) (snd ce)) calls, self,
     mkWorld (db w) (driver_calls w)
             (console w ++ flat_map (fun ce => disabled_lines (fst ce)) calls)).
Proof.
  induction calls as [| [c ext] rest IH]; intros self w H.
  - simpl. rewrite app_nil_r. destruct w; reflexivity.
  - simpl. rewrite (step_disabled c ext self w H), (IH _ _ H). simpl.
    rewrite app_assoc. reflexivity.
Qed.

(** [connect] on a store that does not answer takes the [catch] branch. *)
Lemma connect_unreachable self ext w :
  reachable ext = false ->
  disabled (snd (fst (step Connect ext self w))) = true.
Proof.
  intros H. simpl. unfold connect.
  destruct (disabled self) eqn:D.
  - simpl. exact D.
  - unfold try_catch, bind, verifyConnectivity. rewrite H. simpl. reflexivity.
Qed.

End Disabled.

Section DisabledClaims.
Context {P : Platform}.

(** C6.  When one of [uri], [username], [password] is absent the
    constructor leaves the object disabled ([enabled = false], no driver)
    without a call on the driver, and every run of calls that follows is
    answered by the disabled reply of each method, the number of calls on
    the driver and the store staying as they were; the console gets the
    line of each [connect] that skipped the connection. *)
Theorem missing_credentials_disable uri username password w calls :
  uri = None \/ username = None \/ password = None ->
  let built := constructor uri username password w in
  fst built = mkTracker None false
  /\ driver_calls (snd built) = driver_calls w
  /\ db (snd built) = db w
  /\ fst (fst (run calls (fst built) (snd built)))
     = map (fun ce => disabled_response (fst ce) (snd ce)) calls
  /\ disabled (snd (fst (run calls (fst built) (snd built)))) = true
  /\ driver_calls (snd (run calls (fst built) (snd built))) = driver_calls w
  /\ db (snd (run calls (fst built) (snd built))) = db w
  /\ console (snd (run calls (fst built) (snd built)))
     = console (snd built) ++ flat_map (fun ce => disabled_lines (fst ce)) calls.
Proof.
  intros H built.
  destruct (constructor_disabled uri username password w
              (absent_not_truthy uri username password H))
    as (E & Edb & Ecalls).
  fold built in E, Edb, Ecalls.
  assert (D : disabled (fst built) = true) by (rewrite E; reflexivity).
  rewrite (run_disabled calls (fst built) (snd built) D). simpl.
  repeat split; auto.
Qed.

(** C7.  The disabled state is final.  It is entered by the constructor
    on missing parameters and by [connect] when the store does not
    answer; from a disabled object no run of calls gives an enabled one:
    the object is unchanged, every call gets the disabled reply of its
    method, and neither the store nor the count of driver calls moves. *)
Theorem disabled_is_final :
  (forall uri username password w,
      truthy uri && truthy username && truthy password = false ->
      disabled (fst (constructor uri username password w)) = true)
  /\ (forall self ext w,
         reachable ext = false ->
         disabled (snd (fst (step Connect ext self w))) = true)
  /\ (forall calls self w,
         disabled self = true ->
         snd (fst (run calls self w)) = self
         /\ fst (fst (run calls self w))
            = map (fun ce => disabled_response (fst ce) (snd ce)) calls
         /\ db (snd (run calls self w)) = db w
         /\ driver_calls (snd (run calls self w)) = driver_calls w
         /\ console (snd (run calls self w))
            = console w ++ flat_map (fun ce => disabled_lines (fst ce)) calls).
Proof.
  split; [| split].
  - intros uri username password w H.
    destruct (constructor_disabled uri username password w H) as (E & _).
    rewrite E. reflexivity.
  - intros self ext w H. now apply connect_unreachable.
  - intros calls self w D.
    rewrite (run_disabled calls self w D). simpl. auto.
Qed.

(** C9.  On a disabled object [recordAction] answers
    [{success: true, actionId: uuidv4(), message}] with the message
    "Action tracking is disabled - action not recorded" and leaves the
    world as it was (nothing is stored), while the five queries answer
    [{success: false, message}] with their own disabled message. *)
Theorem disabled_replies self ext w
        (ra : RecordArgs.t Json) (rel : RelatedArgs.t) (sim : SimilarArgs.t Json)
        (userId context : string) (limit : option Z) (sug : SuggestArgs.t Json) :
  disabled self = true ->
  recordAction self ra ext w
  = (inr (Success (Recorded.mk (uuidv4 ext)
            (Text "Action tracking is disabled - action not recorded"))), w)
  /\ getRelatedActions self rel ext w
     = (inr (Failure (Text "Action tracking is disabled - cannot retrieve related actions")), w)
  /\ findSimilarActions self sim ext w
     = (inr (Failure (Text "Action tracking is disabled - cannot find similar actions")), w)
  /\ getUserActionHistory self userId limit ext w
     = (inr (Failure (Text "Action tracking is disabled - cannot retrieve user action history")), w)
  /\ suggestNextAction self sug ext w
     = (inr (Failure (Text "Action tracking is disabled - cannot suggest next action")), w)
  /\ getActionRecommendations self userId context ext w
     = (inr (Failure (Text "Action tracking is disabled - cannot get action recommendations")), w).
Proof.
  intros D.
  unfold recordAction, getRelatedActions, findSimilarActions, getUserActionHistory,
    suggestNextAction, getActionRecommendations.
  rewrite D. repeat split.
Qed.

End DisabledClaims.

Lemma missing_credentials_disable_witness :
  fst (fst (run Example.every_call
              (fst (constructor None (Some "neo4j") (Some "secret") Example.fresh_world))
              (snd (constructor None (Some "neo4j") (Some "secret") Example.fresh_world))))
  = map (fun ce => disabled_response (fst ce) (snd ce)) Example.every_call.
Proof.
  apply (@missing_credentials_disable Example.platform None (Some "neo4j")
           (Some "secret") Example.fresh_world Example.every_call).
  left. reflexivity.
Defined.

Lemma disabled_is_final_witness :
  snd (fst (run Example.every_call Example.off_tracker Example.fresh_world))
  = Example.off_tracker.
Proof.
  apply (proj2 (proj2 (@disabled_is_final Example.platform))
           Example.every_call Example.off_tracker Example.fresh_world).
  reflexivity.
Defined.

Lemma disabled_replies_witness :
  recordAction Example.off_tracker
    (Example.record_args "u1" "Ann" "data_operation" "query_table")
    Example.up Example.fresh_world
  = (inr (Success (Recorded.mk "00000000-0000-4000-8000-000000000001"
            (Text "Action tracking is disabled - action not recorded"))),
     Example.fresh_world).
Proof.
  apply (@disabled_replies Example.platform Example.off_tracker Example.up
           Example.fresh_world
           (Example.record_args "u1" "Ann" "data_operation" "query_table")
           (RelatedArgs.mk "a1" None)
           (SimilarArgs.mk "DynamoDB" "data_operation" Example.JObject None)
           "u1" "query" None
           (SuggestArgs.mk "u1" "DynamoDB" "data_operation" Example.JObject)).
  reflexivity.
Defined.

(** ** Rows *)

Lemma In_place {A} (ahead : A -> A -> bool) x y l :
  In x (place ahead y l) <-> x = y \/ In x l.
Proof.
  induction l as [| z l IH]; simpl.
  - intuition.
  - destruct (ahead z y); simpl; rewrite ?IH; intuition.
Qed.

Lemma In_order_by {A} (ahead : A -> A -> bool) x l :
  In x (order_by ahead l) <-> In x l.
Proof.
  unfold order_by. induction l as [| y l IH]; simpl.
  - tauto.
  - rewrite In_place, IH. intuition.
Qed.

Lemma length_place {A} (ahead : A -> A -> bool) y l :
  length (place ahead y l) = S (length l).
Proof.
  induction l as [| z l IH]; simpl; [reflexivity |].
  destruct (ahead z y); simpl; rewrite ?IH; reflexivity.
Qed.

Lemma length_order_by {A} (ahead : A -> A -> bool) l :
  length (order_by ahead l) = length l.
Proof.
  unfold order_by. induction l as [| y l IH]; simpl; [reflexivity |].
  rewrite length_place, IH. reflexivity.
Qed.

Lemma In_firstn_inv {A} (x : A) n : forall l, In x (firstn n l) -> In x l.
Proof.
  induction n as [| n IH]; intros [| y l]; simpl; try tauto.
  intros [-> | H]; auto.
Qed.

Lemma limit_rows_In {A} n (l out : list A) x :
  limit_rows n l = inr out -> In x out -> In x l.
Proof.
  unfold limit_rows. destruct (n <? 0)%Z; [discriminate |].
  intros [= <-]. apply In_firstn_inv.
Qed.

Lemma limit_rows_all {A} n (l : list A) :
  (Z.of_nat (length l) <= n)%Z -> limit_rows n l = inr l.
Proof.
  intros H. unfold limit_rows.
  destruct (Z.ltb_spec n 0); [lia |].
  rewrite firstn_all2; [reflexivity | lia].
Qed.

Lemma map_throw_In {A B} (f : A -> Error + B) : forall l ys y,
  map_throw f l = inr ys -> In y ys -> exists x, In x l /\ f x = inr y.
Proof.
  induction l as [| x l IH]; simpl; intros ys y E H.
  - inversion E; subst. destruct H.
  - destruct (f x) as [e | z] eqn:Fx; [discriminate |].
    destruct (map_throw f l) as [e | zs] eqn:Fl; [discriminate |].
    inversion E; subst. destruct H as [-> | H].
    + exists x. auto.
    + destruct (IH zs y eq_refl H) as (x' & Hin & Hx'). exists x'. auto.
Qed.

(** One throw among the rows makes the whole map throw. *)
Lemma map_throw_fails {A B} (f : A -> Error + B) : forall l,
  Exists (fun x => exists e, f x = inl e) l ->
  exists x e, In x l /\ f x = inl e /\ map_throw f l = inl e.
Proof.
  induction l as [| x l IH]; intros H.
  - inversion H.
  - simpl. destruct (f x) as [e | y] eqn:Fx.
    + exists x, e. auto.
    + inversion H as [? ? (e & He) | ? ? H']; subst; [congruence |].
      destruct (IH H') as (x' & e & Hin & Hf & Hm).
      exists x', e. rewrite Hm. auto.
Qed.

Lemma Qgtb_lt x y : Qgtb x y = true -> (y < x)%Q.
Proof.
  unfold Qgtb. intros H. apply Qnot_le_lt. intros L.
  apply Qle_bool_iff in L. rewrite L in H. discriminate.
Qed.

Lemma lt_Qgtb x y : (y < x)%Q -> Qgtb x y = true.
Proof.
  unfold Qgtb. intros H. destruct (Qle_bool x y) eqn:E; [| reflexivity].
  apply Qle_bool_iff in E. exfalso. exact (Qlt_not_le _ _ H E).
Qed.

(** ** The shape shared by the query methods *)

Section Shape.
Context {P : Platform}.

(** [const session = this.driver.session(); try { records = await
    session.run(...); return {success: true, ...post(records)} } catch
    (error) { console.error(line, error); return {success: false, message:
    prefix + error} } finally { await session.close() }]. *)
Lemma query_method {R A} (query : Store -> Error + R) (post : R -> Error + A)
      (line prefix : string) ext w :
  bind driver_session (fun _ =>
    finally
      (try_catch
         (bind (session_run (reading query)) (fun records =>
          bind (lift (post records)) (fun xs => ret (Success xs))))
         (fun error => bind (log line) (fun _ =>
                         ret (Failure (Template prefix error)))))
      session_close) ext w
  = match (if reachable ext
           then match query (db w) with inr r => post r | inl e => inl e end
           else inl ServiceUnavailable) with
    | inr xs => (inr (Success xs), mkWorld (db w) (3 + driver_calls w) (console w))
    | inl e => (inr (Failure (Template prefix e)),
                mkWorld (db w) (3 + driver_calls w) (console w ++ [line]))
    end.
Proof.
  unfold bind, finally, try_catch, driver_session, session_run, reading, lift,
    ret, log, session_close, called.
  simpl. destruct (reachable ext); simpl; [| reflexivity].
  destruct (query (db w)) as [e | r]; simpl; [reflexivity |].
  destruct (post r); reflexivity.
Qed.

End Shape.

(** ** The query methods on an enabled object *)

Section Enabled.
Context {P : Platform}.

Lemma findSimilarActions_enabled self a ext w :
  disabled self = false ->
  findSimilarActions self a ext w
  = match (if reachable ext
           then match similar_query (similar_params a) (db w) with
                | inr r => similar_post r
                | inl e => inl e
                end
           else inl ServiceUnavailable) with
    | inr xs => (inr (Success xs), mkWorld (db w) (3 + driver_calls w) (console w))
    | inl e => (inr (Failure (Template "Failed to find similar actions: " e)),
                mkWorld (db w) (3 + driver_calls w)
                        (console w ++ ["Error finding similar actions:"]))
    end.
Proof.
  intros D. unfold findSimilarActions. rewrite D.
  apply (query_method (similar_query (similar_params a)) similar_post).
Qed.

Lemma getUserActionHistory_enabled self userId limit ext w :
  disabled self = false ->
  getUserActionHistory self userId limit ext w
  = match (if reachable ext
           then match history_query (HistoryQ.mk userId (default 20%Z limit)) (db w) with
                | inr r => history_post r
                | inl e => inl e
                end
           else inl ServiceUnavailable) with
    | inr xs => (inr (Success xs), mkWorld (db w) (3 + driver_calls w) (console w))
    | inl e => (inr (Failure (Template "Failed to get user action history: " e)),
                mkWorld (db w) (3 + driver_calls w)
                        (console w ++ ["Error getting user action history:"]))
    end.
Proof.
  intros D. unfold getUserActionHistory. rewrite D.
  apply (query_method (history_query (HistoryQ.mk userId (default 20%Z limit)))
                      history_post).
Qed.

Lemma parsed_action_inr a pa :
  parsed_action a = inr pa -> Parsed.action pa = a.
Proof.
  unfold parsed_action. destruct (parse (Action.parameters a)); [discriminate |].
  destruct (parse (Action.result a)); [discriminate |].
  intros [= <-]. reflexivity.
Qed.

Lemma parsed_action_fails a :
  JSON_parse (Action.parameters a) = None \/ JSON_parse (Action.result a) = None ->
  exists text, parsed_action a = inl (SyntaxError text).
Proof.
  unfold parsed_action, parse. intros [H | H].
  - rewrite H. eauto.
  - destruct (JSON_parse (Action.parameters a)); rewrite ?H; eauto.
Qed.

Lemma similar_query_rows p g rows r :
  similar_query p g = inr rows -> In r rows ->
  Qgtb (SimilarQ.similarity r) threshold = true
  /\ In r (similar_candidates p g).
Proof.
  unfold similar_query. intros E H.
  destruct jaroWinklerDistance_procedure; [| discriminate].
  apply (limit_rows_In _ _ _ _ E) in H.
  apply In_order_by in H. apply filter_In in H. tauto.
Qed.

Lemma similar_candidates_score p g r :
  In r (similar_candidates p g) ->
  SimilarQ.similarity r
  = jaroWinklerDistance (SimilarQ.parametersJson p) (Action.parameters (SimilarQ.action r)).
Proof.
  unfold similar_candidates. intros H. apply in_map_iff in H.
  destruct H as (x & <- & _). reflexivity.
Qed.

End Enabled.

Section QueryClaims.
Context {P : Platform}.

(** C5.  Every entry of a list that [findSimilarActions] returns has a
    similarity above 0.7, and that similarity is the score the store
    computed between the serialized query payload and the parameters
    stored with the entry's action. *)
Theorem similar_above_threshold self a ext w w' found r :
  findSimilarActions self a ext w = (inr (Success found), w') ->
  In r found ->
  (threshold < Similar.similarity r)%Q
  /\ Similar.similarity r
     = jaroWinklerDistance (JSON_stringify (SimilarArgs.parameters a))
                           (Action.parameters (Parsed.action (Similar.action r))).
Proof.
  intros E Hin.
  destruct (disabled self) eqn:D.
  - unfold findSimilarActions in E. rewrite D in E. discriminate.
  - rewrite (findSimilarActions_enabled self a ext w D) in E.
    destruct (reachable ext); [| discriminate].
    destruct (similar_query (similar_params a) (db w)) as [e | rows] eqn:Q;
      [discriminate |].
    destruct (similar_post rows) as [e | xs] eqn:Post; [discriminate |].
    inversion E; subst xs w'; clear E.
    destruct (map_throw_In _ _ _ _ Post Hin) as (row & Hrow & Hr).
    destruct (parsed_action (SimilarQ.action row)) as [e | pa] eqn:Pa; [discriminate |].
    inversion Hr; subst r; clear Hr. simpl.
    apply parsed_action_inr in Pa. rewrite Pa.
    destruct (similar_query_rows _ _ _ _ Q Hrow) as (Hgt & Hc).
    split.
    + now apply Qgtb_lt.
    + apply (similar_candidates_score _ _ _ Hc).
Qed.

(** C10.  On an enabled object, when one of the records the query hands
    back holds [parameters] or [result] text that [JSON.parse] rejects,
    [findSimilarActions] and [getUserActionHistory] return
    [{success: false, message}] for the whole call: nothing is thrown to
    the caller, no list is returned, and when the store answered the
    message carries the syntax error of the parse. *)
Theorem unparsable_record_fails_call self ext w :
  disabled self = false ->
  (forall a rows,
      similar_query (similar_params a) (db w) = inr rows ->
      Exists (fun r => JSON_parse (Action.parameters (SimilarQ.action r)) = None
                       \/ JSON_parse (Action.result (SimilarQ.action r)) = None) rows ->
      exists e,
        fst (findSimilarActions self a ext w)
        = inr (Failure (Template "Failed to find similar actions: " e))
        /\ (reachable ext = true -> exists text, e = SyntaxError text))
  /\ (forall userId limit rows,
         history_query (HistoryQ.mk userId (default 20%Z limit)) (db w) = inr rows ->
         Exists (fun r => JSON_parse (Action.parameters (HistoryQ.action r)) = None
                          \/ JSON_parse (Action.result (HistoryQ.action r)) = None) rows ->
         exists e,
           fst (getUserActionHistory self userId limit ext w)
           = inr (Failure (Template "Failed to get user action history: " e))
           /\ (reachable ext = true -> exists text, e = SyntaxError text)).
Proof.
  intros D. split.
  - intros a rows Q Bad.
    rewrite (findSimilarActions_enabled self a ext w D), Q.
    destruct (reachable ext).
    + assert (F : exists text, similar_post rows = inl (SyntaxError text)).
      { unfold similar_post.
        destruct (map_throw_fails
                    (fun record =>
                       match parsed_action (SimilarQ.action record) with
                       | inl e => inl e
                       | inr action =>
                           inr (Similar.mk action (SimilarQ.mcp record)
                                           (SimilarQ.similarity record))
                       end) rows) as (x & e & _ & Hx & Hm).
        { eapply Exists_impl; [| exact Bad]. intros r Hr. cbv beta.
          destruct (parsed_action_fails _ Hr) as (text & ->). eauto. }
        rewrite Hm.
        destruct (parsed_action (SimilarQ.action x)) as [e' | pa] eqn:Pa;
          [| discriminate].
        inversion Hx; subst e'.
        unfold parsed_action, parse in Pa.
        destruct (JSON_parse (Action.parameters (SimilarQ.action x)));
          [| inversion Pa; eauto].
        destruct (JSON_parse (Action.result (SimilarQ.action x)));
          [discriminate | inversion Pa; eauto]. }
      destruct F as (text & ->). simpl. eauto.
    + simpl. exists ServiceUnavailable. split; [reflexivity | discriminate].
  - intros userId limit rows Q Bad.
    rewrite (getUserActionHistory_enabled self userId limit ext w D), Q.
    destruct (reachable ext).
    + assert (F : exists text, history_post rows = inl (SyntaxError text)).
      { unfold history_post.
        destruct (map_throw_fails
                    (fun record =>
                       match parsed_action (HistoryQ.action record) with
                       | inl e => inl e
                       | inr action => inr (History.mk action (HistoryQ.mcp record))
                       end) rows) as (x & e & _ & Hx & Hm).
        { eapply Exists_impl; [| exact Bad]. intros r Hr. cbv beta.
          destruct (parsed_action_fails _ Hr) as (text & ->). eauto. }
        rewrite Hm.
        destruct (parsed_action (HistoryQ.action x)) as [e' | pa] eqn:Pa;
          [| discriminate].
        inversion Hx; subst e'.
        unfold parsed_action, parse in Pa.
        destruct (JSON_parse (Action.parameters (HistoryQ.action x)));
          [| inversion Pa; eauto].
        destruct (JSON_parse (Action.result (HistoryQ.action x)));
          [discriminate | inversion Pa; eauto]. }
      destruct F as (text & ->). simpl. eauto.
    + simpl. exists ServiceUnavailable. split; [reflexivity | discriminate].
Qed.

(** C8.  [suggestNextAction] and [getActionRecommendations] do not look
    at [userId]: with the object, the world, what the call takes from
    outside and the other arguments fixed, any two values of [userId]
    give the same answer and the same world. *)
Theorem userId_is_ignored self ext w (u1 u2 : string)
        (mcpType currentActionType : string) (currentParameters : Json)
        (context : string) :
  suggestNextAction self
    (SuggestArgs.mk u1 mcpType currentActionType currentParameters) ext w
  = suggestNextAction self
      (SuggestArgs.mk u2 mcpType currentActionType currentParameters) ext w
  /\ getActionRecommendations self u1 context ext w
     = getActionRecommendations self u2 context ext w.
Proof.
  split; reflexivity.
Qed.

End QueryClaims.

(** ** The write of [recordAction] on the graph *)

Lemma performers_add_action u m a g n :
  performers (add_action u m a g) n
  = performers g n ++ (if Nat.eqb (next_node g) n then [u] else []).
Proof.
  unfold performers, add_action. simpl.
  rewrite filter_app, map_app. simpl.
  destruct (Nat.eqb (next_node g) n); reflexivity.
Qed.

Lemma targets_add_action u m a g n :
  targets (add_action u m a g) n
  = targets g n ++ (if Nat.eqb (next_node g) n then [m] else []).
Proof.
  unfold targets, add_action. simpl.
  rewrite filter_app, map_app. simpl.
  destruct (Nat.eqb (next_node g) n); reflexivity.
Qed.

Lemma filter_none {A} (f : A -> bool) l :
  (forall x, In x l -> f x = false) -> filter f l = [].
Proof.
  induction l as [| x l IH]; simpl; intros H; [reflexivity |].
  rewrite (H x (or_introl eq_refl)). apply IH. intros y Hy. apply H. now right.
Qed.

Lemma performers_beyond g n :
  numbered g -> next_node g <= n -> performers g n = [].
Proof.
  intros (_ & Hp & _) Hn. unfold performers.
  rewrite filter_none; [reflexivity |].
  intros e He. specialize (Hp e He). apply Nat.eqb_neq. lia.
Qed.

Lemma targets_beyond g n :
  numbered g -> next_node g <= n -> targets g n = [].
Proof.
  intros (_ & _ & Hu) Hn. unfold targets.
  rewrite filter_none; [reflexivity |].
  intros e He. specialize (Hu e He). apply Nat.eqb_neq. lia.
Qed.

Lemma numbered_add_action u m a g :
  numbered g -> numbered (add_action u m a g).
Proof.
  intros (Ha & Hp & Hu). unfold numbered, add_action. simpl. repeat split.
  - intros n b H. apply in_app_or in H. destruct H as [H | [H | []]].
    + specialize (Ha _ _ H). lia.
    + inversion H. lia.
  - intros e H. apply in_app_or in H. destruct H as [H | [<- | []]].
    + specialize (Hp _ H). lia.
    + simpl. lia.
  - intros e H. apply in_app_or in H. destruct H as [H | [<- | []]].
    + specialize (Hu _ H). lia.
    + simpl. lia.
Qed.

(** The rows of [CREATE]: the store gains one Action node per row, with
    its two relationships and nothing else. *)
Lemma create_each_spec rows a : forall g g' created,
  create_each rows a g = (g', created) ->
  numbered g ->
  numbered g'
  /\ users g' = users g /\ mcps g' = mcps g /\ schema g' = schema g
  /\ next_node g' = next_node g + length rows
  /\ length created = length rows
  /\ (forall n b, In (n, b) (actions g) -> In (n, b) (actions g'))
  /\ (forall n, In n created -> In (n, a) (actions g'))
  /\ (forall n b, In (n, b) (actions g') ->
        (In (n, b) (actions g)
         /\ performers g' n = performers g n /\ targets g' n = targets g n)
        \/ (b = a /\ next_node g <= n
            /\ exists u m, In (u, m) rows
                           /\ performers g' n = [u] /\ targets g' n = [m])).
Proof.
  induction rows as [| [u m] rest IH]; intros g g' created E N; simpl in E.
  - inversion E; subst.
    split; [assumption |]. do 3 (split; [reflexivity |]).
    split; [simpl; lia |]. split; [reflexivity |].
    split; [auto |]. split; [intros n [] |].
    intros n b H. left. auto.
  - destruct (create_each rest a (add_action u m a g)) as [g2 out] eqn:E2.
    inversion E; subst g' created; clear E.
    destruct (IH _ _ _ E2 (numbered_add_action u m a g N))
      as (N2 & Hu & Hm & Hs & Hn & Hl & Hkeep & Hnew & Hall).
    simpl in Hu, Hm, Hs, Hn, Hkeep.
    split; [assumption |]. do 3 (split; [assumption |]).
    split; [simpl; lia |]. split; [simpl; now rewrite Hl |].
    split; [| split].
    + intros n b H. apply Hkeep. apply in_or_app. now left.
    + intros n [<- | H].
      * apply Hkeep. apply in_or_app. right. now left.
      * now apply Hnew.
    + intros n b H. destruct (Hall n b H) as [(Hin & Hp & Ht) | (-> & Hle & u' & m' & Hr & Hp & Ht)].
      * rewrite performers_add_action in Hp. rewrite targets_add_action in Ht.
        simpl in Hin. apply in_app_or in Hin. destruct Hin as [Hin | [Hin | []]].
        -- left. destruct N as (Ha & _). specialize (Ha _ _ Hin).
           assert (X : Nat.eqb (next_node g) n = false) by (apply Nat.eqb_neq; lia).
           rewrite X, app_nil_r in Hp, Ht. auto.
        -- inversion Hin; subst n b. right.
           rewrite Nat.eqb_refl in Hp, Ht.
           rewrite (performers_beyond g (next_node g) N (le_n _)) in Hp.
           rewrite (targets_beyond g (next_node g) N (le_n _)) in Ht.
           split; [reflexivity |]. split; [lia |].
           exists u, m. simpl. auto.
      * right. simpl in Hle. split; [reflexivity |]. split; [lia |].
        exists u', m'. simpl. auto.
Qed.

Lemma is_user_grows g g' added n :
  users g' = users g ++ added -> is_user g n = true -> is_user g' n = true.
Proof.
  unfold is_user. intros ->. rewrite existsb_app. intros ->. reflexivity.
Qed.

Lemma is_mcp_grows g g' added n :
  mcps g' = mcps g ++ added -> is_mcp g n = true -> is_mcp g' n = true.
Proof.
  unfold is_mcp. intros ->. rewrite existsb_app. intros ->. reflexivity.
Qed.

Lemma In_is_user g n u : In (n, u) (users g) -> is_user g n = true.
Proof.
  intros H. unfold is_user. apply existsb_exists. exists (n, u).
  split; [assumption | apply Nat.eqb_refl].
Qed.

Lemma In_is_mcp g n m : In (n, m) (mcps g) -> is_mcp g n = true.
Proof.
  intros H. unfold is_mcp. apply existsb_exists. exists (n, m).
  split; [assumption | apply Nat.eqb_refl].
Qed.

(** The store changes on the side of the nodes only: what [numbered] and
    [well_linked] say of the actions carries over. *)
Lemma numbered_nodes g g' :
  actions g' = actions g -> PERFORMED g' = PERFORMED g -> USED g' = USED g ->
  next_node g <= next_node g' ->
  numbered g -> numbered g'.
Proof.
  intros Ea Ep Eu Hn (Ha & Hp & Hu). unfold numbered.
  rewrite Ea, Ep, Eu. repeat split.
  - intros n a H. specialize (Ha _ _ H). lia.
  - intros e H. specialize (Hp _ H). lia.
  - intros e H. specialize (Hu _ H). lia.
Qed.

Lemma well_linked_nodes g g' :
  actions g' = actions g -> PERFORMED g' = PERFORMED g -> USED g' = USED g ->
  (forall n, is_user g n = true -> is_user g' n = true) ->
  (forall n, is_mcp g n = true -> is_mcp g' n = true) ->
  well_linked g -> well_linked g'.
Proof.
  intros Ea Ep Eu Hu Hm L n a H. rewrite Ea in H.
  destruct (L n a H) as ((u & Pu & Iu) & (m & Tm & Im)).
  unfold performers, targets in *. rewrite Ep, Eu. split.
  - exists u. auto.
  - exists m. auto.
Qed.

Lemma filter_nil_existsb {A} (f : A -> bool) l :
  filter f l = [] <-> existsb f l = false.
Proof.
  induction l as [| x l IH]; simpl; [tauto |].
  destruct (f x); simpl; [| exact IH].
  split; discriminate.
Qed.

(** [MERGE] on the User: an existing node is a row and nothing is
    written; otherwise the node is created with the [ON CREATE]
    properties. *)
Lemma merge_user_spec id name ts g g' rows :
  merge_user id name ts g = (g', rows) ->
  actions g' = actions g /\ PERFORMED g' = PERFORMED g /\ USED g' = USED g
  /\ mcps g' = mcps g /\ schema g' = schema g /\ next_node g <= next_node g'
  /\ users g' = users g
                ++ (if existsb (fun u => String.eqb (User.id (snd u)) id) (users g)
                    then [] else [(next_node g, User.mk id name ts)])
  /\ rows <> []
  /\ (forall u, In u rows -> exists usr, In (u, usr) (users g') /\ User.id usr = id).
Proof.
  unfold merge_user.
  destruct (filter (fun u => String.eqb (User.id (snd u)) id) (users g))
    as [| x found] eqn:F; intros E; inversion E; subst g' rows; clear E.
  - apply filter_nil_existsb in F. rewrite F. simpl.
    repeat (split; [auto; fail |]). split; [discriminate |].
    intros u [<- | []]. exists (User.mk id name ts). split; [| reflexivity].
    apply in_or_app. right. now left.
  - assert (X : existsb (fun u => String.eqb (User.id (snd u)) id) (users g) = true).
    { destruct (existsb _ (users g)) eqn:X; [reflexivity |].
      apply filter_nil_existsb in X. congruence. }
    rewrite X, app_nil_r.
    repeat (split; [auto; fail |]). split; [discriminate |].
    intros u Hu. change (In u (map fst (x :: found))) in Hu.
    rewrite <- F in Hu. apply in_map_iff in Hu.
    destruct Hu as ([n usr] & <- & Hin). apply filter_In in Hin.
    destruct Hin as (Hin & Hid). apply String.eqb_eq in Hid.
    exists usr. auto.
Qed.

Lemma merge_mcp_spec id ty nm ts g g' rows :
  merge_mcp id ty nm ts g = (g', rows) ->
  actions g' = actions g /\ PERFORMED g' = PERFORMED g /\ USED g' = USED g
  /\ users g' = users g /\ schema g' = schema g /\ next_node g <= next_node g'
  /\ mcps g' = mcps g
               ++ (if existsb (fun m => String.eqb (MCP.id (snd m)) id) (mcps g)
                   then [] else [(next_node g, MCP.mk id ty nm ts)])
  /\ rows <> []
  /\ existsb (fun m => String.eqb (MCP.id (snd m)) id) (mcps g') = true
  /\ (forall m, In m rows -> exists mc, In (m, mc) (mcps g') /\ MCP.id mc = id).
Proof.
  unfold merge_mcp.
  destruct (filter (fun m => String.eqb (MCP.id (snd m)) id) (mcps g))
    as [| x found] eqn:F; intros E; inversion E; subst g' rows; clear E.
  - apply filter_nil_existsb in F. rewrite F. simpl.
    repeat (split; [auto; fail |]). split; [discriminate |]. split.
    + rewrite existsb_app. simpl. rewrite String.eqb_refl. apply orb_true_r.
    + intros u [<- | []]. exists (MCP.mk id ty nm ts). split; [| reflexivity].
      apply in_or_app. right. now left.
  - assert (X : existsb (fun m => String.eqb (MCP.id (snd m)) id) (mcps g) = true).
    { destruct (existsb _ (mcps g)) eqn:X; [reflexivity |].
      apply filter_nil_existsb in X. congruence. }
    rewrite X, app_nil_r.
    repeat (split; [auto; fail |]). split; [discriminate |]. split; [reflexivity |].
    intros u Hu. change (In u (map fst (x :: found))) in Hu.
    rewrite <- F in Hu. apply in_map_iff in Hu.
    destruct Hu as ([n mc] & <- & Hin). apply filter_In in Hin.
    destruct Hin as (Hin & Hid). apply String.eqb_eq in Hid.
    exists mc. auto.
Qed.

Lemma merge_mcp_each_spec id ty nm ts rows : forall g g' out,
  merge_mcp_each rows id ty nm ts g = (g', out) ->
  actions g' = actions g /\ PERFORMED g' = PERFORMED g /\ USED g' = USED g
  /\ users g' = users g /\ schema g' = schema g /\ next_node g <= next_node g'
  /\ mcps g' = mcps g
               ++ (match rows with
                   | [] => []
                   | _ :: _ =>
                       if existsb (fun m => String.eqb (MCP.id (snd m)) id) (mcps g)
                       then [] else [(next_node g, MCP.mk id ty nm ts)]
                   end)
  /\ (rows <> [] -> out <> [])
  /\ (forall u m, In (u, m) out ->
        In u rows /\ exists mc, In (m, mc) (mcps g') /\ MCP.id mc = id).
Proof.
  induction rows as [| user rest IH]; intros g g' out E; simpl in E.
  - inversion E; subst. rewrite app_nil_r.
    do 7 (split; [auto; fail |]). split; [intros H; now destruct H |]. intros u m [].
  - destruct (merge_mcp id ty nm ts g) as [g1 found] eqn:E1.
    destruct (merge_mcp_each rest id ty nm ts g1) as [g2 out2] eqn:E2.
    inversion E; subst g' out; clear E.
    destruct (merge_mcp_spec _ _ _ _ _ _ _ E1)
      as (A1 & P1 & U1 & Us1 & S1 & N1 & M1 & R1 & X1 & In1).
    destruct (IH _ _ _ E2) as (A2 & P2 & U2 & Us2 & S2 & N2 & M2 & R2 & In2).
    assert (M2' : mcps g2 = mcps g1).
    { rewrite M2. destruct rest; [apply app_nil_r |]. rewrite X1. apply app_nil_r. }
    split; [congruence |]. split; [congruence |]. split; [congruence |].
    split; [congruence |]. split; [congruence |]. split; [lia |].
    split; [congruence |]. split.
    + intros _. destruct found as [| f found]; [congruence |]. discriminate.
    + intros u m H. apply in_app_or in H. destruct H as [H | H].
      * apply in_map_iff in H. destruct H as (m' & Hm' & Hf).
        inversion Hm'; subst u m'. split; [now left |].
        rewrite M2'. now apply In1.
      * destruct (In2 u m H) as (Hr & Hmc). split; [now right | assumption].
Qed.

(** The whole write. *)
Lemma record_query_spec p g g' rows :
  record_query p g = inr (g', rows) ->
  numbered g ->
  numbered g'
  /\ schema g' = schema g
  /\ users g' = users g
                ++ (if existsb (fun u => String.eqb (User.id (snd u)) (RecordQ.userId p))
                               (users g)
                    then []
                    else [(next_node g,
                           User.mk (RecordQ.userId p) (RecordQ.userName p)
                                   (RecordQ.timestamp p))])
  /\ (exists k,
        mcps g' = mcps g
                  ++ (if existsb (fun m => String.eqb (MCP.id (snd m)) (RecordQ.mcpId p))
                                 (mcps g)
                      then []
                      else [(k, MCP.mk (RecordQ.mcpId p) (RecordQ.mcpType p)
                                       (RecordQ.mcpName p) (RecordQ.timestamp p))]))
  /\ (forall n b, In (n, b) (actions g) -> In (n, b) (actions g'))
  /\ (exists n, In (n, new_action p) (actions g') /\ next_node g <= n)
  /\ (forall n b, In (n, b) (actions g') ->
        (In (n, b) (actions g)
         /\ performers g' n = performers g n /\ targets g' n = targets g n)
        \/ (b = new_action p /\ next_node g <= n
            /\ exists u usr m mc,
                 performers g' n = [u] /\ In (u, usr) (users g')
                 /\ User.id usr = RecordQ.userId p
                 /\ targets g' n = [m] /\ In (m, mc) (mcps g')
                 /\ MCP.id mc = RecordQ.mcpId p)).
Proof.
  unfold record_query. intros E N.
  destruct (merge_user (RecordQ.userId p) (RecordQ.userName p) (RecordQ.timestamp p) g)
    as [g1 us] eqn:E1.
  destruct (merge_mcp_each us (RecordQ.mcpId p) (RecordQ.mcpType p) (RecordQ.mcpName p)
                           (RecordQ.timestamp p) g1) as [g2 pairs] eqn:E2.
  destruct (create_each pairs (new_action p) g2) as [g3 created] eqn:E3.
  destruct (constraints_hold g3); [| discriminate].
  inversion E; subst g' rows; clear E.
  destruct (merge_user_spec _ _ _ _ _ _ E1)
    as (A1 & P1 & U1 & M1 & S1 & N1 & Us1 & R1 & In1).
  destruct (merge_mcp_each_spec _ _ _ _ _ _ _ _ E2)
    as (A2 & P2 & U2 & Us2 & S2 & N2 & M2 & R2 & In2).
  assert (Num1 : numbered g1) by (apply (numbered_nodes g g1); auto).
  assert (Num2 : numbered g2) by (apply (numbered_nodes g1 g2); auto).
  destruct (create_each_spec _ _ _ _ _ E3 Num2)
    as (Num3 & Us3 & M3 & S3 & N3 & L3 & Keep3 & New3 & All3).
  split; [assumption |]. split; [congruence |].
  split; [congruence |]. split.
  { exists (next_node g1). rewrite M3, M2, M1.
    destruct us as [| u0 us]; [congruence | reflexivity]. }
  split.
  { intros n b H. apply Keep3. rewrite A2, A1. exact H. }
  split.
  { specialize (R2 R1). destruct pairs as [| pr pairs]; [congruence |].
    destruct created as [| n created]; [discriminate |].
    exists n. split; [apply New3; now left |].
    destruct (All3 n (new_action p) (New3 n (or_introl eq_refl)))
      as [(Hin & _) | (_ & Hle & _)].
    - destruct Num2 as (Ha & _). specialize (Ha _ _ Hin).
      (* an old node of that identity cannot be a created one *)
      simpl in E3. destruct pr as [u m].
      destruct (create_each pairs (new_action p) (add_action u m (new_action p) g2))
        as [g4 out4] eqn:E4.
      inversion E3; subst. lia.
    - lia. }
  intros n b H. destruct (All3 n b H) as [(Hin & Hp & Ht) | (-> & Hle & u & m & Hr & Hp & Ht)].
  - left. rewrite A2, A1 in Hin. split; [assumption |].
    unfold performers, targets in *. rewrite P2, P1, U2, U1 in *. auto.
  - right. split; [reflexivity |]. split; [lia |].
    destruct (In2 u m Hr) as (Hu & mc & Hmc & Hid).
    destruct (In1 u Hu) as (usr & Husr & Huid).
    exists u, usr, m, mc. rewrite Us3, Us2, M3. auto 10.
Qed.

Lemma record_query_well_linked p g g' rows :
  record_query p g = inr (g', rows) ->
  numbered g -> well_linked g -> well_linked g'.
Proof.
  intros E N L.
  destruct (record_query_spec p g g' rows E N)
    as (_ & _ & Us & (k & Ms) & _ & _ & All).
  intros n b H. destruct (All n b H) as [(Hin & Hp & Ht) | (_ & _ & u & usr & m & mc & Hp & Hu & _ & Ht & Hm & _)].
  - destruct (L n b Hin) as ((u & Pu & Iu) & (m & Tm & Im)).
    rewrite Hp, Ht. split.
    + exists u. split; [assumption |]. eapply is_user_grows; eassumption.
    + exists m. split; [assumption |]. eapply is_mcp_grows; eassumption.
  - split.
    + exists u. split; [assumption |]. eapply In_is_user; eassumption.
    + exists m. split; [assumption |]. eapply In_is_mcp; eassumption.
Qed.

(** ** What the methods keep of the store *)

Section Preservation.
Variable I : Store -> Prop.

Lemma preserves_ret {A} (x : A) : preserves I (ret x).
Proof. intros ext w r w' E H. inversion E; subst. exact H. Qed.

Lemma preserves_lift {A} (x : Error + A) : preserves I (lift x).
Proof. intros ext w r w' E H. inversion E; subst. exact H. Qed.

Lemma preserves_log line : preserves I (log line).
Proof. intros ext w r w' E H. inversion E; subst. exact H. Qed.

Lemma preserves_uuid : preserves I uuid.
Proof. intros ext w r w' E H. inversion E; subst. exact H. Qed.

Lemma preserves_clock : preserves I clock.
Proof. intros ext w r w' E H. inversion E; subst. exact H. Qed.

Lemma preserves_driver_session : preserves I driver_session.
Proof. intros ext w r w' E H. inversion E; subst. exact H. Qed.

Lemma preserves_session_close : preserves I session_close.
Proof. intros ext w r w' E H. inversion E; subst. exact H. Qed.

Lemma preserves_driver_close : preserves I driver_close.
Proof. intros ext w r w' E H. inversion E; subst. exact H. Qed.

Lemma preserves_verifyConnectivity : preserves I verifyConnectivity.
Proof.
  intros ext w r w' E H. unfold verifyConnectivity in E.
  destruct (reachable ext); inversion E; subst; exact H.
Qed.

Lemma preserves_bind {A B} (m : IO A) (k : A -> IO B) :
  preserves I m -> (forall x, preserves I (k x)) -> preserves I (bind m k).
Proof.
  intros Hm Hk ext w r w' E H. unfold bind in E.
  destruct (m ext w) as [[e | x] w1] eqn:Em.
  - inversion E; subst. exact (Hm _ _ _ _ Em H).
  - exact (Hk x _ _ _ _ E (Hm _ _ _ _ Em H)).
Qed.

Lemma preserves_try_catch {A} (body : IO A) (handler : Error -> IO A) :
  preserves I body -> (forall e, preserves I (handler e)) ->
  preserves I (try_catch body handler).
Proof.
  intros Hb Hh ext w r w' E H. unfold try_catch in E.
  destruct (body ext w) as [[e | x] w1] eqn:Eb.
  - exact (Hh e _ _ _ _ E (Hb _ _ _ _ Eb H)).
  - inversion E; subst. exact (Hb _ _ _ _ Eb H).
Qed.

Lemma preserves_finally {A} (body : IO A) (fin : IO unit) :
  preserves I body -> preserves I fin -> preserves I (finally body fin).
Proof.
  intros Hb Hf ext w r w' E H. unfold finally in E.
  destruct (body ext w) as [rb w1] eqn:Eb.
  destruct (fin ext w1) as [[e | x] w2] eqn:Ef;
    inversion E; subst; exact (Hf _ _ _ _ Ef (Hb _ _ _ _ Eb H)).
Qed.

Lemma preserves_session_run {R} (query : Store -> Error + (Store * R)) :
  (forall g g' r, query g = inr (g', r) -> I g -> I g') ->
  preserves I (session_run query).
Proof.
  intros Hq ext w r w' E H. unfold session_run in E.
  destruct (reachable ext).
  - destruct (query (db w)) as [e | [g' x]] eqn:Q; inversion E; subst; simpl.
    + exact H.
    + exact (Hq _ _ _ Q H).
  - inversion E; subst. exact H.
Qed.

Lemma preserves_reading {R} (query : Store -> Error + R) :
  preserves I (session_run (reading query)).
Proof.
  apply preserves_session_run. intros g g' r E H. unfold reading in E.
  destruct (query g); inversion E; subst. exact H.
Qed.

End Preservation.

Lemma create_if_not_exists_sound i g g' r :
  create_if_not_exists i g = inr (g', r) -> sound g -> sound g'.
Proof.
  unfold create_if_not_exists. intros E S.
  destruct (has_schema g i); [inversion E; subst; exact S |].
  destruct (item_holds g i); [| discriminate].
  inversion E; subst. exact S.
Qed.

Lemma record_query_sound p g g' rows :
  record_query p g = inr (g', rows) -> sound g -> sound g'.
Proof.
  intros E (N & L). split.
  - exact (proj1 (record_query_spec p g g' rows E N)).
  - exact (record_query_well_linked p g g' rows E N L).
Qed.

Section Invariance.
Context {P : Platform}.

Create HintDb keeps.

#[local] Hint Resolve preserves_ret preserves_lift preserves_log preserves_uuid
  preserves_clock preserves_driver_session preserves_session_close
  preserves_driver_close preserves_verifyConnectivity preserves_reading
  preserves_bind preserves_try_catch preserves_finally : keeps.

Ltac keeps :=
  repeat first
    [ apply preserves_bind; [| intros ?]
    | apply preserves_finally
    | apply preserves_try_catch; [| intros ?]
    | apply preserves_reading
    | solve [auto with keeps] ].

Lemma initializeSchema_sound self : preserves sound (initializeSchema self).
Proof.
  unfold initializeSchema. destruct (disabled self); [apply preserves_ret |].
  keeps; apply preserves_session_run; apply create_if_not_exists_sound.
Qed.

Lemma connect_sound self : preserves sound (connect self).
Proof.
  unfold connect. destruct (disabled self).
  - keeps.
  - keeps. apply initializeSchema_sound.
Qed.

Lemma close_sound self : preserves sound (close self).
Proof.
  unfold close.
  destruct (enabled self && match driver self with Some _ => true | None => false end);
    auto with keeps.
Qed.

Lemma recordAction_sound self a : preserves sound (recordAction self a).
Proof.
  unfold recordAction. destruct (disabled self).
  - keeps.
  - keeps. apply preserves_session_run. intros g g' r. apply record_query_sound.
Qed.

Lemma getRelatedActions_sound self a : preserves sound (getRelatedActions self a).
Proof. unfold getRelatedActions. destruct (disabled self); keeps. Qed.

Lemma findSimilarActions_sound self a : preserves sound (findSimilarActions self a).
Proof. unfold findSimilarActions. destruct (disabled self); keeps. Qed.

Lemma getUserActionHistory_sound self u l :
  preserves sound (getUserActionHistory self u l).
Proof. unfold getUserActionHistory. destruct (disabled self); keeps. Qed.

Lemma suggestNextAction_sound self a : preserves sound (suggestNextAction self a).
Proof. unfold suggestNextAction. destruct (disabled self); keeps. Qed.

Lemma getActionRecommendations_sound self u c :
  preserves sound (getActionRecommendations self u c).
Proof. unfold getActionRecommendations. destruct (disabled self); keeps. Qed.

Lemma respond_sound {A} (m : IO A) (wrap : A -> Response) self ext w :
  preserves sound m -> sound (db w) -> sound (db (snd (respond wrap self (m ext w)))).
Proof.
  intros Hm H. destruct (m ext w) as [[e | x] w'] eqn:E; simpl;
    exact (Hm _ _ _ _ E H).
Qed.

Lemma step_sound c ext self w :
  sound (db w) -> sound (db (snd (step c ext self w))).
Proof.
  intros H. destruct c; simpl.
  - destruct (connect self ext w) as [[e | x] w'] eqn:E; simpl;
      exact (connect_sound self _ _ _ _ E H).
  - apply respond_sound; [apply close_sound | exact H].
  - apply respond_sound; [apply recordAction_sound | exact H].
  - apply respond_sound; [apply getRelatedActions_sound | exact H].
  - apply respond_sound; [apply findSimilarActions_sound | exact H].
  - apply respond_sound; [apply getUserActionHistory_sound | exact H].
  - apply respond_sound; [apply suggestNextAction_sound | exact H].
  - apply respond_sound; [apply getActionRecommendations_sound | exact H].
Qed.

Lemma run_sound calls : forall self w,
  sound (db w) -> sound (db (snd (run calls self w))).
Proof.
  induction calls as [| [c ext] rest IH]; intros self w H; simpl; [exact H |].
  pose proof (step_sound c ext self w H) as H1.
  destruct (step c ext self w) as [[r self'] w'].
  specialize (IH self' w' H1).
  destruct (run rest self' w') as [[rs self''] w'']. exact IH.
Qed.

Lemma empty_sound : sound Graph.empty.
Proof.
  split.
  - repeat split; simpl; tauto.
  - intros n a [].
Qed.

End Invariance.

(** ** [recordAction] on an enabled object *)

Section Recording.
Context {P : Platform}.

Lemma recordAction_enabled self a ext w :
  disabled self = false ->
  recordAction self a ext w
  = match (if reachable ext then record_query (record_params a ext) (db w)
           else inl ServiceUnavailable) with
    | inr (g', _) =>
        (inr (Success (Recorded.mk (uuidv4 ext) (Text "Action recorded successfully"))),
         mkWorld g' (3 + driver_calls w) (console w))
    | inl e =>
        (inr (Failure (Template "Failed to record action: " e)),
         mkWorld (db w) (3 + driver_calls w) (console w ++ ["Error recording action:"]))
    end.
Proof.
  intros D. unfold recordAction. rewrite D.
  unfold bind, finally, try_catch, driver_session, session_run, uuid, clock,
    ret, log, session_close, called. simpl.
  fold (record_params a ext).
  destruct (reachable ext); simpl; [| reflexivity].
  destruct (record_query (record_params a ext) (db w)) as [e | [g' rows]];
    reflexivity.
Qed.

(** The store after [recordAction] is the store before it or the store
    the write computed from it. *)
Lemma recordAction_store self a ext w :
  disabled self = false ->
  db (snd (recordAction self a ext w)) = db w
  \/ exists rows,
       record_query (record_params a ext) (db w)
       = inr (db (snd (recordAction self a ext w)), rows).
Proof.
  intros D. rewrite (recordAction_enabled self a ext w D).
  destruct (reachable ext); [| now left].
  destruct (record_query (record_params a ext) (db w)) as [e | [g' rows]];
    [now left |].
  right. exists rows. reflexivity.
Qed.

Lemma create_each_nodes rows a : forall g g' created,
  create_each rows a g = (g', created) ->
  users g' = users g /\ mcps g' = mcps g.
Proof.
  induction rows as [| [u m] rest IH]; intros g g' created E; simpl in E.
  - inversion E; subst. auto.
  - destruct (create_each rest a (add_action u m a g)) as [g2 out] eqn:E2.
    inversion E; subst. exact (IH _ _ _ E2).
Qed.

(** What the write does to the User and MCP nodes: those in the store
    stay as they are; a node is added, with the properties of the call,
    only when no node has the id. *)
Lemma record_query_nodes p g g' rows :
  record_query p g = inr (g', rows) ->
  users g' = users g
             ++ (if existsb (fun u => String.eqb (User.id (snd u)) (RecordQ.userId p))
                            (users g)
                 then []
                 else [(next_node g,
                        User.mk (RecordQ.userId p) (RecordQ.userName p)
                                (RecordQ.timestamp p))])
  /\ (exists k,
        mcps g' = mcps g
                  ++ (if existsb (fun m => String.eqb (MCP.id (snd m)) (RecordQ.mcpId p))
                                 (mcps g)
                      then []
                      else [(k, MCP.mk (RecordQ.mcpId p) (RecordQ.mcpType p)
                                       (RecordQ.mcpName p) (RecordQ.timestamp p))])).
Proof.
  unfold record_query. intros E.
  destruct (merge_user (RecordQ.userId p) (RecordQ.userName p) (RecordQ.timestamp p) g)
    as [g1 us] eqn:E1.
  destruct (merge_mcp_each us (RecordQ.mcpId p) (RecordQ.mcpType p) (RecordQ.mcpName p)
                           (RecordQ.timestamp p) g1) as [g2 pairs] eqn:E2.
  destruct (create_each pairs (new_action p) g2) as [g3 created] eqn:E3.
  destruct (constraints_hold g3); [| discriminate].
  inversion E; subst g' rows; clear E.
  destruct (merge_user_spec _ _ _ _ _ _ E1)
    as (A1 & P1 & U1 & M1 & S1 & N1 & Us1 & R1 & In1).
  destruct (merge_mcp_each_spec _ _ _ _ _ _ _ _ E2)
    as (A2 & P2 & U2 & Us2 & S2 & N2 & M2 & R2 & In2).
  destruct (create_each_nodes _ _ _ _ _ E3) as (Us3 & M3).
  split; [congruence |].
  exists (next_node g1). rewrite M3, M2, M1.
  destruct us as [| u0 us]; [congruence | reflexivity].
Qed.

End Recording.

Section RecordingClaims.
Context {P : Platform}.

(** C1.  No orphan actions.  In every store reached from the empty one by
    constructing the object and calling its methods, each Action node has
    exactly one PERFORMED relationship, from a User node, and exactly one
    USED relationship, to an MCP node.  A successful [recordAction] adds
    at least one Action, and each Action it adds is performed by a User
    node with the [userId] of the call and uses an MCP node with its
    [mcpId]; node and relationships come from the one write, and a call
    that fails leaves the store as it was. *)
Theorem no_orphan_actions :
  (forall uri username password calls,
      let built := constructor uri username password boot in
      well_linked (db (snd (run calls (fst built) (snd built)))))
  /\ (forall self a ext w r w',
         disabled self = false -> sound (db w) ->
         recordAction self a ext w = (inr (Success r), w') ->
         (exists n, In (n, new_action (record_params a ext)) (actions (db w'))
                    /\ next_node (db w) <= n)
         /\ forall n b, In (n, b) (actions (db w')) ->
              In (n, b) (actions (db w))
              \/ (b = new_action (record_params a ext)
                  /\ exists u usr m mc,
                       performers (db w') n = [u]
                       /\ In (u, usr) (users (db w'))
                       /\ User.id usr = RecordArgs.userId a
                       /\ targets (db w') n = [m]
                       /\ In (m, mc) (mcps (db w'))
                       /\ MCP.id mc = RecordArgs.mcpId a))
  /\ (forall self a ext w m w',
         recordAction self a ext w = (inr (Failure m), w') -> db w' = db w).
Proof.
  split; [| split].
  - intros uri username password calls built.
    apply run_sound. unfold built, constructor.
    destruct (truthy uri && truthy username && truthy password); apply empty_sound.
  - intros self a ext w r w' D (N & L) E.
    rewrite (recordAction_enabled self a ext w D) in E.
    destruct (reachable ext); [| discriminate].
    destruct (record_query (record_params a ext) (db w)) as [e | [g' rows]] eqn:Q;
      [discriminate |].
    inversion E; subst r w'; clear E. simpl.
    destruct (record_query_spec _ _ _ _ Q N) as (_ & _ & _ & _ & _ & New & All).
    split; [exact New |].
    intros n b H. destruct (All n b H) as [(Hin & _) | (Hb & _ & Hex)].
    + now left.
    + right. split; [exact Hb | exact Hex].
  - intros self a ext w m w' E.
    destruct (disabled self) eqn:D.
    + unfold recordAction in E. rewrite D in E. discriminate.
    + rewrite (recordAction_enabled self a ext w D) in E.
      destruct (reachable ext).
      * destruct (record_query (record_params a ext) (db w)) as [e | [g' rows]];
          inversion E; reflexivity.
      * inversion E; reflexivity.
Qed.

(** C2.  The upsert writes the properties of a User node once.  After a
    [recordAction] that recorded for some [userId], a second one with the
    same [userId] leaves the list of User nodes as it is, whatever
    [userName] and clock it comes with; a node with the id is there, and
    when the first call created it, it holds the name and the time of the
    first call.  The same for the MCP node and [mcpId]. *)
Theorem upsert_sets_properties_once self a1 a2 ext1 ext2 w r1 w1 :
  disabled self = false ->
  recordAction self a1 ext1 w = (inr (Success r1), w1) ->
  (RecordArgs.userId a2 = RecordArgs.userId a1 ->
   users (db (snd (recordAction self a2 ext2 w1))) = users (db w1)
   /\ (exists n usr, In (n, usr) (users (db w1))
                     /\ User.id usr = RecordArgs.userId a1)
   /\ (existsb (fun u => String.eqb (User.id (snd u)) (RecordArgs.userId a1))
               (users (db w)) = false ->
       In (next_node (db w),
           User.mk (RecordArgs.userId a1) (RecordArgs.userName a1) (now ext1))
          (users (db (snd (recordAction self a2 ext2 w1))))))
  /\ (RecordArgs.mcpId a2 = RecordArgs.mcpId a1 ->
      mcps (db (snd (recordAction self a2 ext2 w1))) = mcps (db w1)
      /\ (exists n mc, In (n, mc) (mcps (db w1))
                       /\ MCP.id mc = RecordArgs.mcpId a1)
      /\ (existsb (fun m => String.eqb (MCP.id (snd m)) (RecordArgs.mcpId a1))
                  (mcps (db w)) = false ->
          exists k,
            In (k, MCP.mk (RecordArgs.mcpId a1) (RecordArgs.mcpType a1)
                          (RecordArgs.mcpName a1) (now ext1))
               (mcps (db (snd (recordAction self a2 ext2 w1)))))).
Proof.
  intros D E1.
  rewrite (recordAction_enabled self a1 ext1 w D) in E1.
  destruct (reachable ext1); [| discriminate].
  destruct (record_query (record_params a1 ext1) (db w)) as [e | [g1 rows1]] eqn:Q1;
    [discriminate |].
  inversion E1; subst r1 w1; clear E1. simpl db.
  destruct (record_query_nodes _ _ _ _ Q1) as (U1 & k1 & M1). simpl in U1, M1.
  assert (HasU : existsb (fun u => String.eqb (User.id (snd u)) (RecordArgs.userId a1))
                         (users g1) = true).
  { rewrite U1.
    destruct (existsb _ (users (db w))) eqn:X.
    - rewrite app_nil_r. exact X.
    - rewrite existsb_app. simpl. rewrite String.eqb_refl. apply orb_true_r. }
  assert (HasM : existsb (fun m => String.eqb (MCP.id (snd m)) (RecordArgs.mcpId a1))
                         (mcps g1) = true).
  { rewrite M1.
    destruct (existsb _ (mcps (db w))) eqn:X.
    - rewrite app_nil_r. exact X.
    - rewrite existsb_app. simpl. rewrite String.eqb_refl. apply orb_true_r. }
  assert (SU : forall w1, db w1 = g1 ->
               RecordArgs.userId a2 = RecordArgs.userId a1 ->
               users (db (snd (recordAction self a2 ext2 w1))) = users g1).
  { intros w1 Ew Eid.
    destruct (recordAction_store self a2 ext2 w1 D) as [E | (rows2 & Q2)];
      [rewrite E, Ew; reflexivity |].
    destruct (record_query_nodes _ _ _ _ Q2) as (U2 & _).
    rewrite U2, Ew. simpl. rewrite Eid, HasU. apply app_nil_r. }
  assert (SM : forall w1, db w1 = g1 ->
               RecordArgs.mcpId a2 = RecordArgs.mcpId a1 ->
               mcps (db (snd (recordAction self a2 ext2 w1))) = mcps g1).
  { intros w1 Ew Eid.
    destruct (recordAction_store self a2 ext2 w1 D) as [E | (rows2 & Q2)];
      [rewrite E, Ew; reflexivity |].
    destruct (record_query_nodes _ _ _ _ Q2) as (_ & k2 & M2).
    rewrite M2, Ew. simpl. rewrite Eid, HasM. apply app_nil_r. }
  split.
  - intros Eid. rewrite (SU (mkWorld g1 _ _) eq_refl Eid). split; [reflexivity |]. split.
    + apply existsb_exists in HasU. destruct HasU as ([n usr] & Hin & Hid).
      apply String.eqb_eq in Hid. exists n, usr. auto.
    + intros X. rewrite U1, X. apply in_or_app. right. now left.
  - intros Eid. rewrite (SM (mkWorld g1 _ _) eq_refl Eid). split; [reflexivity |]. split.
    + apply existsb_exists in HasM. destruct HasM as ([n mc] & Hin & Hid).
      apply String.eqb_eq in Hid. exists n, mc. auto.
    + intros X. exists k1. rewrite M1, X. apply in_or_app. right. now left.
Qed.

End RecordingClaims.

Lemma no_orphan_actions_witness :
  exists n,
    In (n, new_action (record_params
                         (Example.record_args "u1" "Ann" "query" "query_table")
                         Example.up))
       (actions (db (snd (recordAction Example.on_tracker
                            (Example.record_args "u1" "Ann" "query" "query_table")
                            Example.up boot))))
    /\ next_node (db boot) <= n.
Proof.
  refine (proj1 (proj1 (proj2 (@no_orphan_actions Example.platform))
                   Example.on_tracker
                   (Example.record_args "u1" "Ann" "query" "query_table")
                   Example.up boot _ _ eq_refl _ eq_refl)).
  split.
  - repeat split; simpl; tauto.
  - intros n a [].
Defined.

Lemma upsert_sets_properties_once_witness :
  users (db (snd (recordAction Example.on_tracker
                    (Example.record_args "u1" "Bob" "export" "scan_table")
                    (Example.at_time "a2" 600000%Z)
                    (snd (recordAction Example.on_tracker
                            (Example.record_args "u1" "Ann" "query" "query_table")
                            Example.up boot)))))
  = [(0, User.mk "u1" "Ann" 0%Z)].
Proof.
  refine (proj1 (proj1 (@upsert_sets_properties_once Example.platform
                          Example.on_tracker
                          (Example.record_args "u1" "Ann" "query" "query_table")
                          (Example.record_args "u1" "Bob" "export" "scan_table")
                          Example.up (Example.at_time "a2" 600000%Z) boot
                          _ _ eq_refl eq_refl) eq_refl)).
Defined.

Lemma similar_above_threshold_witness :
  Example.found_in_recorded <> []
  /\ Forall (fun r => (threshold < Similar.similarity r)%Q) Example.found_in_recorded.
Proof.
  split; [discriminate |].
  apply Forall_forall. intros r H.
  refine (proj1 (@similar_above_threshold Example.platform Example.on_tracker
                   (Example.similar_to_export None) Example.up Example.recorded
                   _ Example.found_in_recorded r eq_refl H)).
Defined.

Lemma unparsable_record_fails_call_witness :
  exists e,
    fst (findSimilarActions Example.on_tracker (Example.similar_to_export None)
                            Example.up Example.corrupt)
    = inr (Failure (Template "Failed to find similar actions: " e))
    /\ (reachable Example.up = true -> exists text, e = SyntaxError text).
Proof.
  eapply (proj1 (@unparsable_record_fails_call Example.platform Example.on_tracker
                   Example.up Example.corrupt eq_refl)
                (Example.similar_to_export None)).
  - reflexivity.
  - vm_compute. apply Exists_cons_hd. right. reflexivity.
Defined.

(** ** Similar actions *)

Lemma match_action_used_mcp_In g n act m mc :
  In (n, act) (actions g) -> In (n, m) (USED g) -> In (m, mc) (mcps g) ->
  In ((n, act), (m, mc)) (match_action_used_mcp g).
Proof.
  intros Ha Hu Hm. unfold match_action_used_mcp.
  apply in_flat_map. exists (n, act). split; [exact Ha |].
  apply in_flat_map. exists (n, m). split; [exact Hu |].
  simpl. rewrite Nat.eqb_refl. apply in_map. unfold node_at.
  apply filter_In. split; [exact Hm | simpl; apply Nat.eqb_refl].
Qed.

(** C4.  [findSimilarActions] scores nothing on a store with APOC.  Ann's
    two exports are in the store with the same serialized payload, which
    is also the payload of the query; their type and the type of their
    MCP are the ones asked for.  The query runs
    [apoc.text.jaroWinklerDistance] under [CALL], APOC has it as a
    function, and the call is refused: the method returns
    [{success: false}] with the error of the store in the message, no
    similarity is computed and neither export is returned. *)
Theorem identical_payload_is_not_scored :
  In (3, Example.first_export) (actions (db Example.exported_twice))
  /\ In (4, Example.second_export) (actions (db Example.exported_twice))
  /\ Action.parameters Example.first_export = JSON_stringify Example.JObject
  /\ Action.parameters Example.second_export = JSON_stringify Example.JObject
  /\ In (3, 1) (USED (db Example.exported_twice))
  /\ In (4, 1) (USED (db Example.exported_twice))
  /\ In (1, Example.the_mcp) (mcps (db Example.exported_twice))
  /\ Action.type Example.first_export
     = SimilarArgs.actionType (Example.similar_to_export None)
  /\ Action.type Example.second_export
     = SimilarArgs.actionType (Example.similar_to_export None)
  /\ MCP.type Example.the_mcp = SimilarArgs.mcpType (Example.similar_to_export None)
  /\ @jaroWinklerDistance_procedure Example.apoc = false
  /\ fst (@findSimilarActions Example.apoc Example.on_tracker
            (Example.similar_to_export None) Example.up Example.exported_twice)
     = inr (Failure (Template "Failed to find similar actions: "
                              (ProcedureNotFound "apoc.text.jaroWinklerDistance"))).
Proof.
  split; [vm_compute; tauto |]. split; [vm_compute; tauto |].
  split; [reflexivity |]. split; [reflexivity |].
  split; [vm_compute; tauto |]. split; [vm_compute; tauto |].
  split; [vm_compute; tauto |].
  repeat split; reflexivity.
Qed.

(** ** The time window of [suggestNextAction] *)

(** For a successor that is not earlier than its anchor, the window test
    looks at the time of day only: the distance is reduced modulo one day
    before its minutes are compared with 30. *)
Lemma in_window_iff b :
  let d := (Action.timestamp (snd (SuggestQ.nextAction b))
            - Action.timestamp (snd (SuggestQ.currentAction b)))%Z in
  (0 <= d)%Z ->
  in_window b = true <-> (d mod ms_per_day < 30 * 60000)%Z.
Proof.
  intros d Hd. unfold in_window, minutes, duration_between. simpl.
  fold d. unfold ms_per_day.
  rewrite Z.rem_mod_nonneg by lia.
  assert (0 <= d mod 86400000 < 86400000)%Z as Hr by (apply Z.mod_pos_bound; lia).
  rewrite (Z.quot_div_nonneg (d mod 86400000) 1000) by lia.
  assert (0 <= d mod 86400000 / 1000)%Z as Hq by (apply Z.div_pos; lia).
  rewrite (Z.quot_div_nonneg (d mod 86400000 / 1000) 60) by lia.
  rewrite Z.ltb_lt, Z.div_div by lia.
  split; intros H.
  - destruct (Z.lt_ge_cases (d mod 86400000) (30 * 60000)) as [L | G]; [exact L |].
    assert (30 <= d mod 86400000 / (1000 * 60))%Z
      by (apply Z.div_le_lower_bound; lia).
    lia.
  - apply Z.div_lt_upper_bound; lia.
Qed.

(** Within a day of the anchor the window is the one the comment of the
    query announces: 29 minutes are in, 30 minutes and more are out. *)
Lemma in_window_same_day b :
  let d := (Action.timestamp (snd (SuggestQ.nextAction b))
            - Action.timestamp (snd (SuggestQ.currentAction b)))%Z in
  (0 <= d < ms_per_day)%Z ->
  in_window b = true <-> (d < 30 * 60000)%Z.
Proof.
  intros d Hd. unfold d. rewrite in_window_iff by (fold d; lia).
  fold d. rewrite Z.mod_small by exact Hd. tauto.
Qed.

(** C3.  The window test of [suggestNextAction] drops whole days.  With a
    query of Ann at time 0, an export ten minutes later and another
    export one day and five minutes later (more than 30 minutes after the
    query), the later export passes [timeDiff.minutes < 30] and is
    counted: the suggestion has frequency 2, where the store without the
    later export gives frequency 1. *)
Theorem successor_a_day_later_is_counted :
  (30 * 60000 <= Action.timestamp Example.late_export
                 - Action.timestamp Example.the_query)%Z
  /\ In (4, Example.late_export) (actions (db Example.next_day))
  /\ in_window (SuggestQ.mkBinding (2, Example.the_query) (1, Example.the_mcp)
                                   (0, Example.ann) (4, Example.late_export))
     = true
  /\ fst (suggestNextAction Example.on_tracker Example.after_query Example.up
                            Example.next_day)
     = inr (Success [Suggestion.mk "export" "scan_table" [Example.JObject] 2%Z])
  /\ fst (suggestNextAction Example.on_tracker Example.after_query Example.up
                            Example.recorded)
     = inr (Success [Suggestion.mk "export" "scan_table" [Example.JObject] 1%Z]).
Proof.
  split; [vm_compute; discriminate |].
  split; [vm_compute; tauto |].
  repeat split; vm_compute; reflexivity.
Qed.

(** * Further properties of the class *)

(** ** Invariants of the store, in general

    A property of the store that the statements of [initializeSchema] and
    the write of [recordAction] keep is kept by every method, hence by
    every run. *)

Section Invariants.
Context {P : Platform}.
Variable I : Store -> Prop.
Hypothesis schema_step : forall i g g' r,
  In i schema_items -> create_if_not_exists i g = inr (g', r) -> I g -> I g'.
Hypothesis record_step : forall a ext g g' r,
  record_query (record_params a ext) g = inr (g', r) -> I g -> I g'.

Ltac kept :=
  repeat first
    [ apply preserves_bind; [| intros ?]
    | apply preserves_finally
    | apply preserves_try_catch; [| intros ?]
    | apply preserves_reading
    | apply preserves_ret | apply preserves_lift | apply preserves_log
    | apply preserves_uuid | apply preserves_clock
    | apply preserves_driver_session | apply preserves_session_close
    | apply preserves_driver_close | apply preserves_verifyConnectivity ].

Lemma initializeSchema_keeps self : preserves I (initializeSchema self).
Proof.
  unfold initializeSchema. destruct (disabled self); [apply preserves_ret |].
  kept; apply preserves_session_run; intros g g' r; apply schema_step;
    unfold schema_items; simpl; tauto.
Qed.

Lemma connect_keeps self : preserves I (connect self).
Proof.
  unfold connect. destruct (disabled self); kept. apply initializeSchema_keeps.
Qed.

Lemma close_keeps self : preserves I (close self).
Proof.
  unfold close.
  destruct (enabled self && match driver self with Some _ => true | None => false end);
    kept.
Qed.

Lemma recordAction_keeps self a : preserves I (recordAction self a).
Proof.
  unfold recordAction. destruct (disabled self); kept.
  apply preserves_session_run. intros g g' r.
  apply (record_step a (mkExt x0 x1 true)).
Qed.

Lemma step_keeps c ext self w :
  I (db w) -> I (db (snd (step c ext self w))).
Proof.
  intros H.
  assert (R : forall A (m : IO A) (wrap : A -> Response),
             preserves I m -> I (db (snd (respond wrap self (m ext w))))).
  { intros A m wrap Hm. destruct (m ext w) as [[e | x] w'] eqn:E; simpl;
      exact (Hm _ _ _ _ E H). }
  destruct c; simpl.
  - destruct (connect self ext w) as [[e | x] w'] eqn:E; simpl;
      exact (connect_keeps self _ _ _ _ E H).
  - apply R, close_keeps.
  - apply R, recordAction_keeps.
  - apply R. unfold getRelatedActions. destruct (disabled self); kept.
  - apply R. unfold findSimilarActions. destruct (disabled self); kept.
  - apply R. unfold getUserActionHistory. destruct (disabled self); kept.
  - apply R. unfold suggestNextAction. destruct (disabled self); kept.
  - apply R. unfold getActionRecommendations. destruct (disabled self); kept.
Qed.

Lemma run_keeps calls : forall self w,
  I (db w) -> I (db (snd (run calls self w))).
Proof.
  induction calls as [| [c ext] rest IH]; intros self w H; simpl; [exact H |].
  pose proof (step_keeps c ext self w H) as H1.
  destruct (step c ext self w) as [[r self'] w'].
  specialize (IH self' w' H1).
  destruct (run rest self' w') as [[rs self''] w'']. exact IH.
Qed.

Lemma boot_run_keeps uri username password calls :
  I Graph.empty ->
  I (db (snd (run calls (fst (constructor uri username password boot))
                  (snd (constructor uri username password boot))))).
Proof.
  intros H. apply run_keeps. unfold constructor.
  destruct (truthy uri && truthy username && truthy password); exact H.
Qed.

End Invariants.

(** ** The log only grows *)

Lemma extends_refl g : extends g g.
Proof.
  unfold extends. split; [lia |].
  repeat split; exists []; rewrite app_nil_r; reflexivity.
Qed.

Lemma extends_trans g1 g2 g3 : extends g1 g2 -> extends g2 g3 -> extends g1 g3.
Proof.
  intros (N1 & (u1 & U1) & (m1 & M1) & (a1 & A1) & (p1 & P1) & (e1 & E1) & (s1 & S1))
         (N2 & (u2 & U2) & (m2 & M2) & (a2 & A2) & (p2 & P2) & (e2 & E2) & (s2 & S2)).
  unfold extends. split; [lia |].
  repeat split.
  - exists (u1 ++ u2). rewrite U2, U1, app_assoc. reflexivity.
  - exists (m1 ++ m2). rewrite M2, M1, app_assoc. reflexivity.
  - exists (a1 ++ a2). rewrite A2, A1, app_assoc. reflexivity.
  - exists (p1 ++ p2). rewrite P2, P1, app_assoc. reflexivity.
  - exists (e1 ++ e2). rewrite E2, E1, app_assoc. reflexivity.
  - exists (s1 ++ s2). rewrite S2, S1, app_assoc. reflexivity.
Qed.

(** What [CREATE] appends, row by row: the new nodes are numbered from
    [next_node] on. *)
Lemma create_each_appends rows a : forall g g' created,
  create_each rows a g = (g', created) ->
  created = seq (next_node g) (length rows)
  /\ next_node g' = next_node g + length rows
  /\ users g' = users g /\ mcps g' = mcps g /\ schema g' = schema g
  /\ actions g' = actions g ++ map (fun n => (n, a)) created
  /\ PERFORMED g' = PERFORMED g ++ combine (map fst rows) created
  /\ USED g' = USED g ++ combine created (map snd rows).
Proof.
  induction rows as [| [u m] rest IH]; intros g g' created E; simpl in E.
  - inversion E; subst. simpl. rewrite !app_nil_r, Nat.add_0_r. auto 10.
  - destruct (create_each rest a (add_action u m a g)) as [g2 out] eqn:E2.
    inversion E; subst g' created; clear E.
    destruct (IH _ _ _ E2) as (C & N & U & M & S & A & Pf & Us).
    simpl in *. subst out.
    split; [reflexivity |]. split; [lia |].
    split; [assumption |]. split; [assumption |]. split; [assumption |].
    rewrite A, Pf, Us, <- !app_assoc. simpl. auto.
Qed.

Lemma create_if_not_exists_extends i g g' r :
  create_if_not_exists i g = inr (g', r) -> extends g g'.
Proof.
  unfold create_if_not_exists. intros E.
  destruct (has_schema g i); [inversion E; subst; apply extends_refl |].
  destruct (item_holds g i); [| discriminate].
  inversion E; subst. unfold extends, add_schema. simpl.
  split; [lia |].
  repeat split; try (exists []; rewrite app_nil_r; reflexivity).
  exists [i]. reflexivity.
Qed.

Lemma record_query_extends p g g' rows :
  record_query p g = inr (g', rows) -> extends g g'.
Proof.
  unfold record_query. intros E.
  destruct (merge_user (RecordQ.userId p) (RecordQ.userName p) (RecordQ.timestamp p) g)
    as [g1 us] eqn:E1.
  destruct (merge_mcp_each us (RecordQ.mcpId p) (RecordQ.mcpType p) (RecordQ.mcpName p)
                           (RecordQ.timestamp p) g1) as [g2 pairs] eqn:E2.
  destruct (create_each pairs (new_action p) g2) as [g3 created] eqn:E3.
  destruct (constraints_hold g3); [| discriminate].
  inversion E; subst g' rows; clear E.
  destruct (merge_user_spec _ _ _ _ _ _ E1)
    as (A1 & P1 & U1 & M1 & S1 & N1 & Us1 & R1 & In1).
  destruct (merge_mcp_each_spec _ _ _ _ _ _ _ _ E2)
    as (A2 & P2 & U2 & Us2 & S2 & N2 & M2 & R2 & In2).
  destruct (create_each_appends _ _ _ _ _ E3) as (C3 & N3 & Us3 & M3 & S3 & A3 & P3 & U3).
  unfold extends. split; [lia |].
  repeat split.
  - eexists. rewrite Us3, Us2, Us1. reflexivity.
  - eexists. rewrite M3, M2, M1. reflexivity.
  - eexists. rewrite A3, A2, A1. reflexivity.
  - eexists. rewrite P3, P2, P1. reflexivity.
  - eexists. rewrite U3, U2, U1. reflexivity.
  - exists []. rewrite S3, S2, S1, app_nil_r. reflexivity.
Qed.

Section AppendOnly.
Context {P : Platform}.

(** X1.  The log is append-only.  Whatever the object, the world and the
    calls, the store after a run holds every User, MCP and Action node,
    every relationship and every schema item of the store before it,
    unchanged and in the same place: the methods add and never update or
    delete. *)
Theorem run_only_appends calls self w :
  extends (db w) (db (snd (run calls self w))).
Proof.
  apply (run_keeps (extends (db w))).
  - intros i g g' r _ E H.
    exact (extends_trans _ _ _ H (create_if_not_exists_extends _ _ _ _ E)).
  - intros a ext g g' r E H.
    exact (extends_trans _ _ _ H (record_query_extends _ _ _ _ E)).
  - apply extends_refl.
Qed.

End AppendOnly.

(** ** One node per id, one Action per call *)

Lemma existsb_ids {A} (f : A -> string) id l :
  existsb (String.eqb id) (map f l) = existsb (fun x => String.eqb (f x) id) l.
Proof.
  induction l as [| x l IH]; simpl; [reflexivity |].
  rewrite IH, (String.eqb_sym id (f x)). reflexivity.
Qed.

Lemma distinct_snoc l x :
  distinct l = true -> existsb (String.eqb x) l = false -> distinct (l ++ [x]) = true.
Proof.
  induction l as [| y l IH]; simpl; intros D E; [reflexivity |].
  apply andb_true_iff in D. destruct D as (Dy & Dl).
  apply orb_false_iff in E. destruct E as (Exy & El).
  rewrite existsb_app. simpl. rewrite (String.eqb_sym y x), Exy, orb_false_r.
  apply negb_true_iff in Dy. rewrite Dy. simpl. now apply IH.
Qed.

(** Among nodes with distinct ids at most one has a given id. *)
Lemma filter_distinct {A} (f : A -> string) id l :
  distinct (map f l) = true ->
  length (filter (fun x => String.eqb (f x) id) l) <= 1.
Proof.
  induction l as [| x l IH]; simpl; intros D; [lia |].
  apply andb_true_iff in D. destruct D as (Dx & Dl).
  destruct (String.eqb_spec (f x) id) as [E | _]; [| now apply IH].
  simpl. apply negb_true_iff in Dx. rewrite E, existsb_ids in Dx.
  rewrite (proj2 (filter_nil_existsb _ l) Dx). simpl. lia.
Qed.

Lemma merge_user_one id name ts g g' rows :
  distinct (ids_of LUser g) = true ->
  merge_user id name ts g = (g', rows) -> length rows = 1.
Proof.
  unfold merge_user. intros D.
  pose proof (filter_distinct (fun u => User.id (snd u)) id (users g) D) as L.
  destruct (filter (fun u => String.eqb (User.id (snd u)) id) (users g))
    as [| x found]; intros E; inversion E; subst; simpl in *.
  - reflexivity.
  - rewrite length_map. lia.
Qed.

Lemma merge_mcp_one id ty nm ts g g' rows :
  distinct (ids_of LMCP g) = true ->
  merge_mcp id ty nm ts g = (g', rows) -> length rows = 1.
Proof.
  unfold merge_mcp. intros D.
  pose proof (filter_distinct (fun m => MCP.id (snd m)) id (mcps g) D) as L.
  destruct (filter (fun m => String.eqb (MCP.id (snd m)) id) (mcps g))
    as [| x found]; intros E; inversion E; subst; simpl in *.
  - reflexivity.
  - rewrite length_map. lia.
Qed.

Lemma record_query_unique p g g' rows :
  record_query p g = inr (g', rows) -> unique_nodes g -> unique_nodes g'.
Proof.
  intros E (Du & Dm).
  destruct (record_query_nodes _ _ _ _ E) as (U & k & M).
  unfold unique_nodes, ids_of in *. rewrite U, M, !map_app. split.
  - destruct (existsb _ (users g)) eqn:X; simpl.
    + rewrite app_nil_r. exact Du.
    + apply distinct_snoc; [exact Du |]. rewrite existsb_ids. exact X.
  - destruct (existsb _ (mcps g)) eqn:X; simpl.
    + rewrite app_nil_r. exact Dm.
    + apply distinct_snoc; [exact Dm |]. rewrite existsb_ids. exact X.
Qed.

Lemma create_if_not_exists_nodes i g g' r :
  create_if_not_exists i g = inr (g', r) ->
  users g' = users g /\ mcps g' = mcps g /\ actions g' = actions g
  /\ PERFORMED g' = PERFORMED g /\ USED g' = USED g /\ next_node g' = next_node g.
Proof.
  unfold create_if_not_exists. intros E.
  destruct (has_schema g i); [inversion E; subst; auto 10 |].
  destruct (item_holds g i); [| discriminate].
  inversion E; subst. simpl. auto 10.
Qed.

(** On a store with one node per id the write has one row: it appends
    one Action and its two relationships. *)
Lemma record_query_one p g g' rows :
  unique_nodes g ->
  record_query p g = inr (g', rows) ->
  rows = [RecordQ.actionId p]
  /\ exists u m,
       actions g' = actions g ++ [(next_node g' - 1, new_action p)]
       /\ PERFORMED g' = PERFORMED g ++ [(u, next_node g' - 1)]
       /\ USED g' = USED g ++ [(next_node g' - 1, m)].
Proof.
  intros (Du & Dm). unfold record_query. intros E.
  destruct (merge_user (RecordQ.userId p) (RecordQ.userName p) (RecordQ.timestamp p) g)
    as [g1 us] eqn:E1.
  destruct (merge_mcp_each us (RecordQ.mcpId p) (RecordQ.mcpType p) (RecordQ.mcpName p)
                           (RecordQ.timestamp p) g1) as [g2 pairs] eqn:E2.
  destruct (create_each pairs (new_action p) g2) as [g3 created] eqn:E3.
  destruct (constraints_hold g3); [| discriminate].
  inversion E; subst g' rows; clear E.
  pose proof (merge_user_one _ _ _ _ _ _ Du E1) as L1.
  destruct (merge_user_spec _ _ _ _ _ _ E1)
    as (A1 & P1 & U1 & M1 & S1 & N1 & Us1 & R1 & In1).
  destruct us as [| u [| u' us]]; try discriminate. clear L1.
  simpl in E2.
  destruct (merge_mcp (RecordQ.mcpId p) (RecordQ.mcpType p) (RecordQ.mcpName p)
                      (RecordQ.timestamp p) g1) as [g1' found] eqn:Em.
  assert (Dm1 : distinct (ids_of LMCP g1) = true) by (unfold ids_of; rewrite M1; exact Dm).
  pose proof (merge_mcp_one _ _ _ _ _ _ _ Dm1 Em) as L2.
  destruct (merge_mcp_spec _ _ _ _ _ _ _ Em)
    as (A2 & P2 & U2 & Us2 & S2 & N2 & M2 & R2 & X2 & In2).
  destruct found as [| m [| m' found]]; try discriminate. clear L2.
  inversion E2; subst g2 pairs; clear E2. simpl in E3.
  inversion E3; subst g3 created; clear E3. simpl.
  split; [reflexivity |]. exists u, m.
  rewrite Nat.sub_0_r, A2, A1, P2, P1, U2, U1. auto.
Qed.

Section OnePerCall.
Context {P : Platform}.

(** X2.  User and MCP ids stay unique.  From a store in which no two
    User nodes and no two MCP nodes share an id (the empty store is one)
    no run of calls reaches a store in which two do: [MERGE] creates a
    node only when none has the id. *)
Theorem run_keeps_ids_unique calls self w :
  unique_nodes (db w) -> unique_nodes (db (snd (run calls self w))).
Proof.
  apply (run_keeps unique_nodes).
  - intros i g g' r _ E (Du & Dm).
    destruct (create_if_not_exists_nodes _ _ _ _ E) as (U & M & _).
    unfold unique_nodes, ids_of. rewrite U, M. auto.
  - intros a ext g g' r E. exact (record_query_unique _ _ _ _ E).
Qed.

(** X3.  One call, one Action.  On a store with one node per id a
    [recordAction] that reports success appends exactly one Action node,
    holding what the call was given, one PERFORMED and one USED
    relationship, and nothing else to these three lists; nothing is
    deduplicated, so recording the same arguments twice gives two
    nodes. *)
Theorem recordAction_appends_one self a ext w r w' :
  disabled self = false ->
  unique_nodes (db w) ->
  recordAction self a ext w = (inr (Success r), w') ->
  exists n u m,
    actions (db w') = actions (db w) ++ [(n, new_action (record_params a ext))]
    /\ PERFORMED (db w') = PERFORMED (db w) ++ [(u, n)]
    /\ USED (db w') = USED (db w) ++ [(n, m)].
Proof.
  intros D U E.
  rewrite (recordAction_enabled self a ext w D) in E.
  destruct (reachable ext); [| discriminate].
  destruct (record_query (record_params a ext) (db w)) as [e | [g' rows]] eqn:Q;
    [discriminate |].
  inversion E; subst r w'; clear E. simpl.
  destruct (record_query_one _ _ _ _ U Q) as (_ & u & m & H).
  exists (next_node g' - 1), u, m. exact H.
Qed.

End OnePerCall.

(** ** Uniqueness constraints *)

Lemma Label_eqb_eq a b : Label_eqb a b = true -> a = b.
Proof. destruct a, b; simpl; congruence. Qed.

Lemma SchemaItem_eqb_eq i j : SchemaItem_eqb i j = true -> i = j.
Proof.
  destruct i, j; simpl; try discriminate; intros H.
  - apply Label_eqb_eq in H. congruence.
  - apply andb_true_iff in H. destruct H as (H1 & H2).
    apply Label_eqb_eq in H1. apply String.eqb_eq in H2. congruence.
  - apply String.eqb_eq in H. congruence.
Qed.

Lemma SchemaItem_eqb_refl i : SchemaItem_eqb i i = true.
Proof.
  destruct i as [l | l p | n]; simpl; rewrite ?String.eqb_refl;
    try destruct l; reflexivity.
Qed.

Lemma has_schema_In g i : has_schema g i = true <-> In i (schema g).
Proof.
  unfold has_schema. rewrite existsb_exists. split.
  - intros (j & Hj & E). apply SchemaItem_eqb_eq in E. congruence.
  - intros H. exists i. split; [exact H | apply SchemaItem_eqb_refl].
Qed.

Lemma constraints_hold_item g i :
  constraints_hold g = true -> has_schema g i = true -> item_holds g i = true.
Proof.
  unfold constraints_hold. intros C H. apply has_schema_In in H.
  exact (proj1 (forallb_forall _ _) C i H).
Qed.

Lemma distinct_repeated x l r : In x l -> distinct (l ++ x :: r) = false.
Proof.
  induction l as [| y l IH]; simpl; intros H; [destruct H |].
  destruct H as [-> | H].
  - rewrite existsb_app. simpl. rewrite String.eqb_refl, orb_true_r. reflexivity.
  - rewrite (IH H). apply andb_false_r.
Qed.

(** The write is refused when the id of the new Action is taken and the
    schema asks for unique Action ids. *)
Lemma record_query_collision p g :
  has_schema g (UniqueId LAction) = true ->
  In (RecordQ.actionId p) (ids_of LAction g) ->
  record_query p g = inl ConstraintValidationFailed.
Proof.
  intros S T. unfold record_query.
  destruct (merge_user (RecordQ.userId p) (RecordQ.userName p) (RecordQ.timestamp p) g)
    as [g1 us] eqn:E1.
  destruct (merge_mcp_each us (RecordQ.mcpId p) (RecordQ.mcpType p) (RecordQ.mcpName p)
                           (RecordQ.timestamp p) g1) as [g2 pairs] eqn:E2.
  destruct (create_each pairs (new_action p) g2) as [g3 created] eqn:E3.
  destruct (merge_user_spec _ _ _ _ _ _ E1)
    as (A1 & P1 & U1 & M1 & S1 & N1 & Us1 & R1 & In1).
  destruct (merge_mcp_each_spec _ _ _ _ _ _ _ _ E2)
    as (A2 & P2 & U2 & Us2 & S2 & N2 & M2 & R2 & In2).
  destruct (create_each_appends _ _ _ _ _ E3) as (C3 & N3 & Us3 & M3 & S3 & A3 & _).
  specialize (R2 R1).
  destruct (constraints_hold g3) eqn:C; [| reflexivity].
  exfalso.
  assert (H3 : has_schema g3 (UniqueId LAction) = true).
  { unfold has_schema. rewrite S3, S2, S1. exact S. }
  pose proof (constraints_hold_item _ _ C H3) as D. simpl in D.
  rewrite A3, A2, A1, map_app in D.
  destruct pairs as [| pr pairs]; [congruence |].
  rewrite C3 in D. simpl in D.
  rewrite distinct_repeated in D; [discriminate | exact T].
Qed.

Section Constraints.
Context {P : Platform}.

(** X5.  A repeated Action id is refused.  When the schema asks for
    unique Action ids and [uuidv4()] draws the id of an Action already in
    the store, [recordAction] on an enabled object with the store
    answering returns [{success: false}] with the constraint error in its
    message, and the store is as before: the Action is not recorded. *)
Theorem recordAction_refuses_taken_id self a ext w :
  disabled self = false ->
  reachable ext = true ->
  has_schema (db w) (UniqueId LAction) = true ->
  In (uuidv4 ext) (ids_of LAction (db w)) ->
  fst (recordAction self a ext w)
  = inr (Failure (Template "Failed to record action: " ConstraintValidationFailed))
  /\ db (snd (recordAction self a ext w)) = db w.
Proof.
  intros D R S T.
  rewrite (recordAction_enabled self a ext w D), R.
  rewrite (record_query_collision (record_params a ext) (db w) S T).
  split; reflexivity.
Qed.

End Constraints.

(** ** [connect] and the schema *)

Lemma same_data_refl g : same_data g g.
Proof. unfold same_data. auto 10. Qed.

Lemma same_data_trans g1 g2 g3 : same_data g1 g2 -> same_data g2 g3 -> same_data g1 g3.
Proof.
  unfold same_data. intros (A & B & C & D & E & F) (A' & B' & C' & D' & E' & F').
  repeat split; congruence.
Qed.

Lemma item_holds_same_data g g' i :
  same_data g g' -> item_holds g' i = item_holds g i.
Proof.
  intros (_ & U & M & A & _). destruct i as [[| |] | |]; simpl; try reflexivity;
    unfold ids_of; congruence.
Qed.

Lemma create_if_not_exists_step i g g' r :
  create_if_not_exists i g = inr (g', r) ->
  same_data g g' /\ has_schema g' i = true
  /\ (forall j, has_schema g j = true -> has_schema g' j = true)
  /\ (forall j, has_schema g' j = true -> has_schema g j = true \/ j = i)
  /\ (has_schema g i = true -> g' = g).
Proof.
  unfold create_if_not_exists. intros E.
  destruct (has_schema g i) eqn:H.
  - inversion E; subst. split; [apply same_data_refl |]. auto 10.
  - destruct (item_holds g i); [| discriminate]. inversion E; subst.
    split; [unfold same_data, add_schema; simpl; auto 10 |].
    unfold has_schema, add_schema. simpl.
    split; [rewrite existsb_app; simpl; rewrite SchemaItem_eqb_refl; apply orb_true_r |].
    split; [intros j Hj; rewrite existsb_app; unfold has_schema in Hj; rewrite Hj; reflexivity |].
    split; [| discriminate].
    intros j Hj. rewrite existsb_app in Hj. apply orb_true_iff in Hj.
    destruct Hj as [Hj | Hj]; [now left |]. simpl in Hj. rewrite orb_false_r in Hj.
    right. now apply SchemaItem_eqb_eq.
Qed.

Lemma create_all_spec items : forall g,
  same_data g (fst (create_all items g))
  /\ (forall j, has_schema g j = true -> has_schema (fst (create_all items g)) j = true)
  /\ (forall j, has_schema (fst (create_all items g)) j = true ->
                has_schema g j = true \/ In j items)
  /\ ((forall i, In i items -> has_schema g i = true) -> create_all items g = (g, None))
  /\ ((forall i, In i items -> item_holds g i = true) ->
      snd (create_all items g) = None
      /\ forall i, In i items -> has_schema (fst (create_all items g)) i = true)
  /\ ((exists i, In i items /\ has_schema g i = false /\ item_holds g i = false) ->
      snd (create_all items g) = Some ConstraintValidationFailed).
Proof.
  induction items as [| i rest IH]; intros g; simpl.
  - split; [apply same_data_refl |]. split; [auto |]. split; [auto |].
    split; [reflexivity |]. split; [intros _; split; [reflexivity | intros i []] |].
    intros (i & [] & _).
  - destruct (create_if_not_exists i g) as [e | [g1 r]] eqn:E.
    + simpl. split; [apply same_data_refl |]. split; [auto |]. split; [auto |].
      assert (F : has_schema g i = false /\ item_holds g i = false
                  /\ e = ConstraintValidationFailed).
      { unfold create_if_not_exists in E. destruct (has_schema g i); [discriminate |].
        destruct (item_holds g i); [discriminate |]. inversion E. auto. }
      destruct F as (Fh & Fi & ->).
      split; [intros H; rewrite (H i (or_introl eq_refl)) in Fh; discriminate |].
      split; [intros H; rewrite (H i (or_introl eq_refl)) in Fi; discriminate |].
      reflexivity.
    + destruct (create_if_not_exists_step _ _ _ _ E) as (D1 & H1 & Mono & Back & Same).
      destruct (IH g1) as (D & Up & Down & Idem & Good & Bad).
      split; [exact (same_data_trans _ _ _ D1 D) |].
      split; [intros j Hj; apply Up, Mono, Hj |].
      split.
      { intros j Hj. destruct (Down j Hj) as [Hg1 | Hin]; [| right; now right].
        destruct (Back j Hg1) as [Hg | ->]; [now left | right; now left]. }
      split.
      { intros H. rewrite (Same (H i (or_introl eq_refl))) in *.
        apply Idem. intros j Hj. apply H. now right. }
      split.
      { intros H.
        assert (H' : forall j, In j rest -> item_holds g1 j = true).
        { intros j Hj. rewrite (item_holds_same_data g g1 j D1). apply H. now right. }
        destruct (Good H') as (N & All). split; [exact N |].
        intros j [<- | Hj]; [apply Up, H1 | now apply All]. }
      intros (j & Hj & Hh & Hi). apply Bad.
      destruct Hj as [<- | Hj].
      * exfalso. unfold create_if_not_exists in E. rewrite Hh, Hi in E. discriminate.
      * exists j. split; [exact Hj |]. split.
        -- destruct (has_schema g1 j) eqn:X; [| reflexivity].
           destruct (Back j X) as [Hg | ->]; [congruence |].
           exfalso. unfold create_if_not_exists in E. rewrite Hh, Hi in E. discriminate.
        -- rewrite (item_holds_same_data g g1 j D1). exact Hi.
Qed.

Section Connecting.
Context {P : Platform}.

(** [connect] on an enabled object when the store answers: the schema
    statements run in turn; the object is kept when all went through and
    is disabled by the first that failed. *)
Lemma connect_reachable self ext w :
  disabled self = false -> reachable ext = true ->
  exists calls lines,
    connect self ext w
    = (inr (match snd (create_all schema_items (db w)) with
            | None => self
            | Some _ => mkTracker None false
            end),
       mkWorld (fst (create_all schema_items (db w))) calls lines).
Proof.
  intros D R. unfold connect. rewrite D.
  unfold initializeSchema. rewrite D.
  unfold try_catch, bind, finally, verifyConnectivity, driver_session, session_close,
    session_run, log, ret, called.
  rewrite R. cbn [db driver_calls console fst snd create_all schema_items].
  destruct (create_if_not_exists (UniqueId LUser) (db w)) as [e | [g1 r1]];
    [cbn; eauto |].
  cbn [db driver_calls console fst snd].
  destruct (create_if_not_exists (UniqueId LAction) g1) as [e | [g2 r2]];
    [cbn; eauto |].
  cbn [db driver_calls console fst snd].
  destruct (create_if_not_exists (UniqueId LMCP) g2) as [e | [g3 r3]];
    [cbn; eauto |].
  cbn [db driver_calls console fst snd].
  destruct (create_if_not_exists (RangeIndex LAction "timestamp") g3) as [e | [g4 r4]];
    [cbn; eauto |].
  cbn [db driver_calls console fst snd].
  destruct (create_if_not_exists (RangeIndex LAction "mcpType") g4) as [e | [g5 r5]];
    cbn; eauto.
Qed.


(** X7.  [connect] is idempotent on the schema.  When the five items of
    [initializeSchema] are in the schema already ([IF NOT EXISTS]), a
    [connect] on an enabled object with the store answering keeps the
    object and leaves the whole store as it is, whatever data it holds. *)
Theorem connect_again_changes_nothing self ext w :
  disabled self = false -> reachable ext = true ->
  (forall i, In i schema_items -> has_schema (db w) i = true) ->
  fst (connect self ext w) = inr self
  /\ db (snd (connect self ext w)) = db w.
Proof.
  intros D R H.
  destruct (connect_reachable self ext w D R) as (calls & lines & E). rewrite E.
  cbn [fst snd db].
  destruct (create_all_spec schema_items (db w)) as (_ & _ & _ & Idem & _).
  rewrite (Idem H). auto.
Qed.

(** X8.  Duplicate ids disable the tracker at start.  When the store
    holds two nodes of a label with one id and the schema has no
    uniqueness constraint for that label yet, creating the constraint
    fails and [connect] leaves the object disabled ([enabled = false], no
    driver) instead of throwing; the nodes and relationships are
    untouched. *)
Theorem connect_disables_on_duplicate_ids self ext w l :
  disabled self = false -> reachable ext = true ->
  has_schema (db w) (UniqueId l) = false ->
  distinct (ids_of l (db w)) = false ->
  fst (connect self ext w) = inr (mkTracker None false)
  /\ same_data (db w) (db (snd (connect self ext w))).
Proof.
  intros D R H U.
  destruct (connect_reachable self ext w D R) as (calls & lines & E). rewrite E.
  cbn [fst snd db].
  destruct (create_all_spec schema_items (db w)) as (Same & _ & _ & _ & _ & Bad).
  rewrite Bad; [auto |].
  exists (UniqueId l). split; [| split; [exact H | exact U]].
  unfold schema_items. destruct l; simpl; tauto.
Qed.

End Connecting.

(** ** The other query methods on an enabled object *)

Section EnabledMore.
Context {P : Platform}.

Lemma suggestNextAction_enabled self a ext w :
  disabled self = false ->
  suggestNextAction self a ext w
  = match (if reachable ext
           then match suggest_query (suggest_params a) (db w) with
                | inr r => suggest_post r
                | inl e => inl e
                end
           else inl ServiceUnavailable) with
    | inr xs => (inr (Success xs), mkWorld (db w) (3 + driver_calls w) (console w))
    | inl e => (inr (Failure (Template "Failed to suggest next action: " e)),
                mkWorld (db w) (3 + driver_calls w)
                        (console w ++ ["Error suggesting next action:"]))
    end.
Proof.
  intros D. unfold suggestNextAction. rewrite D.
  apply (query_method (suggest_query (suggest_params a)) suggest_post).
Qed.

Lemma getActionRecommendations_enabled self userId context ext w :
  disabled self = false ->
  getActionRecommendations self userId context ext w
  = match (if reachable ext
           then match recommend_query (RecommendQ.mk userId context) (db w) with
                | inr r => recommend_post r
                | inl e => inl e
                end
           else inl ServiceUnavailable) with
    | inr xs => (inr (Success xs), mkWorld (db w) (3 + driver_calls w) (console w))
    | inl e => (inr (Failure (Template "Failed to get action recommendations: " e)),
                mkWorld (db w) (3 + driver_calls w)
                        (console w ++ ["Error getting action recommendations:"]))
    end.
Proof.
  intros D. unfold getActionRecommendations. rewrite D.
  apply (query_method (recommend_query (RecommendQ.mk userId context)) recommend_post).
Qed.

Lemma getRelatedActions_enabled self a ext w :
  disabled self = false ->
  getRelatedActions self a ext w
  = match (if reachable ext
           then match related_query
                        (RelatedQ.mk (RelatedArgs.actionId a)
                                     (default 2%Z (RelatedArgs.maxDepth a))) (db w) with
                | inr r => inr (hd_error r)
                | inl e => inl e
                end
           else inl ServiceUnavailable) with
    | inr xs => (inr (Success xs), mkWorld (db w) (3 + driver_calls w) (console w))
    | inl e => (inr (Failure (Template "Failed to get related actions: " e)),
                mkWorld (db w) (3 + driver_calls w)
                        (console w ++ ["Error getting related actions:"]))
    end.
Proof.
  intros D. unfold getRelatedActions. rewrite D.
  unfold bind, finally, try_catch, driver_session, session_run, reading, lift,
    ret, log, session_close, called.
  simpl. destruct (reachable ext); reflexivity.
Qed.

End EnabledMore.

Lemma record_query_schema p g g' rows :
  record_query p g = inr (g', rows) -> schema g' = schema g.
Proof.
  unfold record_query. intros E.
  destruct (merge_user (RecordQ.userId p) (RecordQ.userName p) (RecordQ.timestamp p) g)
    as [g1 us] eqn:E1.
  destruct (merge_mcp_each us (RecordQ.mcpId p) (RecordQ.mcpType p) (RecordQ.mcpName p)
                           (RecordQ.timestamp p) g1) as [g2 pairs] eqn:E2.
  destruct (create_each pairs (new_action p) g2) as [g3 created] eqn:E3.
  destruct (constraints_hold g3); [| discriminate].
  inversion E; subst g' rows; clear E.
  destruct (merge_user_spec _ _ _ _ _ _ E1) as (_ & _ & _ & _ & S1 & _).
  destruct (merge_mcp_each_spec _ _ _ _ _ _ _ _ E2) as (_ & _ & _ & _ & S2 & _).
  destruct (create_each_appends _ _ _ _ _ E3) as (_ & _ & _ & _ & S3 & _).
  congruence.
Qed.

Section FullText.
Context {P : Platform}.

(** X9.  Recommendations need an index that the class never creates.
    [getActionRecommendations] queries the full-text index "actionContext";
    no statement of [initializeSchema] and no write of [recordAction]
    creates it.  So a store without that index (the empty store, for one)
    stays without it through every run, and on such a store the method on
    an enabled object with the store answering returns
    [{success: false}] with the missing-index error, whatever the
    arguments. *)
Theorem recommendations_need_the_index :
  (forall calls self w,
      has_schema (db w) (FulltextIndex "actionContext") = false ->
      has_schema (db (snd (run calls self w))) (FulltextIndex "actionContext") = false)
  /\ (forall self userId context ext w,
         disabled self = false -> reachable ext = true ->
         has_schema (db w) (FulltextIndex "actionContext") = false ->
         getActionRecommendations self userId context ext w
         = (inr (Failure (Template "Failed to get action recommendations: "
                                   (NoSuchIndex "actionContext"))),
            mkWorld (db w) (3 + driver_calls w)
                    (console w ++ ["Error getting action recommendations:"]))).
Proof.
  split.
  - intros calls self w.
    apply (run_keeps (fun g => has_schema g (FulltextIndex "actionContext") = false)).
    + intros i g g' r Hi E H.
      destruct (create_if_not_exists_step _ _ _ _ E) as (_ & _ & _ & Back & _).
      destruct (has_schema g' (FulltextIndex "actionContext")) eqn:X; [| reflexivity].
      destruct (Back _ X) as [Hg | <-]; [congruence |].
      unfold schema_items in Hi. simpl in Hi.
      repeat (destruct Hi as [Hi | Hi]; [discriminate Hi |]). destruct Hi.
    + intros a ext g g' r E H. unfold has_schema.
      rewrite (record_query_schema _ _ _ _ E). exact H.
  - intros self userId context ext w D R H.
    rewrite (getActionRecommendations_enabled self userId context ext w D), R.
    unfold recommend_query. rewrite H. reflexivity.
Qed.

End FullText.

(** ** The call of [findSimilarActions] *)

Section TheCall.
Context {P : Platform}.

(** X21.  [findSimilarActions] needs a procedure that APOC does not
    have.  The query runs [apoc.text.jaroWinklerDistance] under [CALL],
    which takes procedures; on a store without a procedure of that name
    (APOC has the function, which [suggestNextAction] applies) the query
    is refused before it reads anything: on an enabled object with the
    store answering the method returns [{success: false}] with the error
    of the store in the message, for every argument and every content of
    the store, which is left as it was. *)
Theorem findSimilarActions_needs_a_procedure self a ext w :
  jaroWinklerDistance_procedure = false ->
  disabled self = false -> reachable ext = true ->
  findSimilarActions self a ext w
  = (inr (Failure (Template "Failed to find similar actions: "
                            (ProcedureNotFound "apoc.text.jaroWinklerDistance"))),
     mkWorld (db w) (3 + driver_calls w)
             (console w ++ ["Error finding similar actions:"])).
Proof.
  intros N D R. rewrite (findSimilarActions_enabled self a ext w D), R.
  unfold similar_query. rewrite N. reflexivity.
Qed.

End TheCall.

(** ** [ORDER BY] and [LIMIT] *)

Section Ordering.
Variables (A : Type) (ahead : A -> A -> bool) (R : A -> A -> Prop).
Hypothesis R_trans : forall x y z, R x y -> R y z -> R x z.
Hypothesis ahead_R : forall x y, ahead x y = true -> R x y.
Hypothesis behind_R : forall x y, ahead x y = false -> R y x.

Lemma place_sorted x l : StronglySorted R l -> StronglySorted R (place ahead x l).
Proof.
  induction 1 as [| y r Sr IH Fy]; simpl.
  - constructor; [constructor | constructor].
  - destruct (ahead y x) eqn:E.
    + constructor; [exact IH |].
      apply Forall_forall. intros z Hz. apply In_place in Hz.
      destruct Hz as [-> | Hz]; [now apply ahead_R |].
      exact (proj1 (Forall_forall _ _) Fy z Hz).
    + constructor; [constructor; assumption |].
      constructor; [now apply behind_R |].
      apply Forall_forall. intros z Hz.
      apply (R_trans x y z); [now apply behind_R |].
      exact (proj1 (Forall_forall _ _) Fy z Hz).
Qed.

Lemma order_by_sorted l : StronglySorted R (order_by ahead l).
Proof.
  unfold order_by. induction l as [| x l IH]; simpl; [constructor |].
  now apply place_sorted.
Qed.

End Ordering.

Lemma firstn_sorted {A} (R : A -> A -> Prop) n : forall l,
  StronglySorted R l -> StronglySorted R (firstn n l).
Proof.
  induction n as [| n IH]; intros l S; simpl; [constructor |].
  destruct S as [| x l S F]; [constructor |].
  constructor; [now apply IH |].
  apply Forall_forall. intros z Hz. apply In_firstn_inv in Hz.
  exact (proj1 (Forall_forall _ _) F z Hz).
Qed.

Lemma limit_rows_sorted {A} (R : A -> A -> Prop) n l out :
  limit_rows n l = inr out -> StronglySorted R l -> StronglySorted R out.
Proof.
  unfold limit_rows. destruct (n <? 0)%Z; [discriminate |].
  intros [= <-]. apply firstn_sorted.
Qed.

Lemma limit_rows_length {A} n (l out : list A) :
  limit_rows n l = inr out ->
  (0 <= n)%Z /\ (Z.of_nat (length out) <= n)%Z /\ length out <= length l.
Proof.
  unfold limit_rows. destruct (Z.ltb_spec n 0); [discriminate |].
  intros [= <-]. split; [assumption |].
  pose proof (firstn_le_length (Z.to_nat n) l).
  pose proof (length_firstn (Z.to_nat n) l). lia.
Qed.

Lemma limit_rows_negative {A} n (l : list A) :
  (n < 0)%Z -> limit_rows n l = inl (InvalidLimit n).
Proof.
  intros H. unfold limit_rows. destruct (Z.ltb_spec n 0); [reflexivity | lia].
Qed.

(** The records that a map with a throwing function went through, one
    by one. *)
Lemma map_throw_Forall2 {A B} (f : A -> Error + B) : forall l ys,
  map_throw f l = inr ys -> Forall2 (fun x y => f x = inr y) l ys.
Proof.
  induction l as [| x l IH]; simpl; intros ys E.
  - inversion E. constructor.
  - destruct (f x) as [e | y] eqn:Fx; [discriminate |].
    destruct (map_throw f l) as [e | zs] eqn:Fl; [discriminate |].
    inversion E; subst. constructor; [exact Fx | now apply IH].
Qed.

Lemma Forall2_from_right {A B} (T : A -> B -> Prop) l l' y' :
  Forall2 T l l' -> In y' l' -> exists y, In y l /\ T y y'.
Proof.
  induction 1 as [| x x' l l' Tx F IH]; intros H; [destruct H |].
  destruct H as [<- | H].
  - exists x. split; [now left | exact Tx].
  - destruct (IH H) as (y & Hy & Ty). exists y. split; [now right | exact Ty].
Qed.

Lemma Forall2_from_left {A B} (T : A -> B -> Prop) l l' y :
  Forall2 T l l' -> In y l -> exists y', In y' l' /\ T y y'.
Proof.
  induction 1 as [| x x' l l' Tx F IH]; intros H; [destruct H |].
  destruct H as [<- | H].
  - exists x'. split; [now left | exact Tx].
  - destruct (IH H) as (y' & Hy & Ty). exists y'. split; [now right | exact Ty].
Qed.

Lemma Forall2_sorted {A B} (T : A -> B -> Prop) (R : A -> A -> Prop)
      (R' : B -> B -> Prop) :
  (forall x y x' y', T x x' -> T y y' -> R x y -> R' x' y') ->
  forall l l', Forall2 T l l' -> StronglySorted R l -> StronglySorted R' l'.
Proof.
  intros H l l' F. induction F as [| x x' l l' Tx F IH]; intros S; [constructor |].
  inversion S as [| ? ? Sl Fl]; subst.
  constructor; [now apply IH |].
  apply Forall_forall. intros y' Hy'.
  destruct (Forall2_from_right T l l' y' F Hy') as (y & Hy & Ty).
  exact (H x y x' y' Tx Ty (proj1 (Forall_forall _ _) Fl y Hy)).
Qed.

(** ** The history of a user *)

Lemma In_node_at {X} (nodes : list (nat * X)) n x :
  In x (node_at nodes n) <-> In x nodes /\ fst x = n.
Proof.
  unfold node_at. rewrite filter_In, Nat.eqb_eq. tauto.
Qed.

Section HistoryRows.
Context {P : Platform}.

Lemma history_matches_In p g r :
  In r (history_matches p g)
  <-> performed_by g (HistoryQ.userId p) (HistoryQ.action r) (HistoryQ.mcp r).
Proof.
  unfold history_matches, performed_by. split.
  - intros H. apply in_flat_map in H. destruct H as ([u usr] & Hu & H).
    apply filter_In in Hu. destruct Hu as (Hu & Hid). apply String.eqb_eq in Hid.
    apply in_flat_map in H. destruct H as ([u' n] & He & H). simpl in H.
    destruct (Nat.eqb_spec u' u) as [-> | _]; [| destruct H].
    apply in_flat_map in H. destruct H as ([n' a] & Ha & H).
    apply In_node_at in Ha. destruct Ha as (Ha & En). simpl in En. subst n'.
    apply in_flat_map in H. destruct H as ([n' m] & Hm & H). simpl in H.
    destruct (Nat.eqb_spec n' n) as [-> | _]; [| destruct H].
    apply in_map_iff in H. destruct H as ([m' mc] & <- & Hmc).
    apply In_node_at in Hmc. destruct Hmc as (Hmc & Em). simpl in Em. subst m'.
    exists u, usr, n, m. simpl. auto 10.
  - intros (u & usr & n & m & Hu & Hid & Hp & Ha & Hus & Hmc).
    apply in_flat_map. exists (u, usr). split.
    { apply filter_In. split; [exact Hu |]. simpl. now apply String.eqb_eq. }
    apply in_flat_map. exists (u, n). split; [exact Hp |]. simpl.
    rewrite Nat.eqb_refl.
    apply in_flat_map. exists (n, HistoryQ.action r). split.
    { apply In_node_at. auto. }
    apply in_flat_map. exists (n, m). split; [exact Hus |]. simpl.
    rewrite Nat.eqb_refl.
    apply in_map_iff. exists (m, HistoryQ.mcp r). split; [destruct r; reflexivity |].
    apply In_node_at. auto.
Qed.

Lemma history_post_entry rows found :
  history_post rows = inr found ->
  Forall2 (fun r x => Parsed.action (History.action x) = HistoryQ.action r
                      /\ History.mcp x = HistoryQ.mcp r
                      /\ parse (Action.parameters (HistoryQ.action r))
                         = inr (Parsed.parameters (History.action x))
                      /\ parse (Action.result (HistoryQ.action r))
                         = inr (Parsed.result (History.action x)))
          rows found.
Proof.
  intros H. apply map_throw_Forall2 in H.
  eapply Forall2_impl; [| exact H]. cbv beta. intros r x E.
  unfold parsed_action in E.
  destruct (parse (Action.parameters (HistoryQ.action r))) as [e | p]; [discriminate |].
  destruct (parse (Action.result (HistoryQ.action r))) as [e | q]; [discriminate |].
  inversion E; subst. simpl. auto.
Qed.

(** X10.  What a history holds.  A list that [getUserActionHistory]
    returns has at most [limit] entries (20 when no limit is given), most
    recent first, and every entry is an Action that a User node with the
    given id performed, with the MCP node it used; when no more such
    Actions exist than [limit] allows, every one of them is in the
    list. *)
Theorem history_is_the_users_actions self userId limit ext w found w' :
  getUserActionHistory self userId limit ext w = (inr (Success found), w') ->
  (Z.of_nat (length found) <= default 20%Z limit)%Z
  /\ StronglySorted
       (fun x y => (Action.timestamp (Parsed.action (History.action y))
                    <= Action.timestamp (Parsed.action (History.action x)))%Z)
       found
  /\ (forall x, In x found ->
        performed_by (db w) userId (Parsed.action (History.action x)) (History.mcp x))
  /\ ((Z.of_nat (length (history_matches
                           (HistoryQ.mk userId (default 20%Z limit)) (db w)))
       <= default 20%Z limit)%Z ->
      forall a mc, performed_by (db w) userId a mc ->
        exists x, In x found /\ Parsed.action (History.action x) = a
                  /\ History.mcp x = mc).
Proof.
  intros E.
  destruct (disabled self) eqn:D.
  { unfold getUserActionHistory in E. rewrite D in E. discriminate. }
  rewrite (getUserActionHistory_enabled self userId limit ext w D) in E.
  destruct (reachable ext); [| discriminate].
  destruct (history_query (HistoryQ.mk userId (default 20%Z limit)) (db w))
    as [e | rows] eqn:Q; [discriminate |].
  destruct (history_post rows) as [e | xs] eqn:Post; [discriminate |].
  inversion E; subst xs w'; clear E.
  pose proof (history_post_entry rows found Post) as F.
  unfold history_query in Q. simpl in Q.
  destruct (limit_rows_length _ _ _ Q) as (_ & Bound & _).
  assert (Len : length found = length rows).
  { symmetry. exact (Forall2_length F). }
  split; [rewrite Len; exact Bound |]. split.
  { refine (Forall2_sorted _
             (fun r r' => (Action.timestamp (HistoryQ.action r')
                           <= Action.timestamp (HistoryQ.action r))%Z) _ _
             rows found F _).
    - intros r r' x x' (Ex & _) (Ex' & _). rewrite Ex, Ex'. tauto.
    - apply (limit_rows_sorted _ _ _ _ Q).
      apply (order_by_sorted _ history_ahead).
      + intros x y z. lia.
      + intros x y. unfold history_ahead. rewrite Z.ltb_lt. lia.
      + intros x y. unfold history_ahead. rewrite Z.ltb_ge. lia. }
  split.
  { intros x Hx. destruct (Forall2_from_right _ _ _ _ F Hx) as (r & Hr & Ea & Em & _).
    rewrite Ea, Em.
    apply (history_matches_In (HistoryQ.mk userId (default 20%Z limit))).
    apply (In_order_by history_ahead). exact (limit_rows_In _ _ _ _ Q Hr). }
  intros Room a mc Hp.
  rewrite limit_rows_all in Q by (rewrite length_order_by; exact Room).
  inversion Q; subst rows; clear Q.
  assert (Hr : In (HistoryQ.mkRow a mc)
                  (order_by history_ahead
                     (history_matches (HistoryQ.mk userId (default 20%Z limit)) (db w)))).
  { apply In_order_by. apply history_matches_In. exact Hp. }
  destruct (Forall2_from_left _ _ _ _ F Hr) as (x & Hx & Ea & Em & _).
  exists x. auto.
Qed.

End HistoryRows.

(** ** A limit below zero *)

Section Limits.
Context {P : Platform}.

(** X12.  A limit below zero is an error of the call.  With an integer
    [limit] of -1 or less, [getUserActionHistory] on an enabled object
    with the store answering returns [{success: false}] with the error of
    the [LIMIT] clause in the message, whatever the user and the store:
    nothing is thrown and no list is returned.  (A limit here is the
    integer that [neo4j.int] passes to the query.) *)
Theorem negative_limit_fails self userId ext w (n : Z) :
  disabled self = false -> reachable ext = true -> (n <= -1)%Z ->
  getUserActionHistory self userId (Some n) ext w
  = (inr (Failure (Template "Failed to get user action history: " (InvalidLimit n))),
     mkWorld (db w) (3 + driver_calls w)
             (console w ++ ["Error getting user action history:"])).
Proof.
  intros D R N.
  rewrite (getUserActionHistory_enabled _ userId (Some n) ext w D), R.
  unfold history_query. rewrite limit_rows_negative by (simpl; lia). reflexivity.
Qed.

End Limits.

(** ** What was recorded reads back *)

Lemma record_query_actions p g g' rows :
  record_query p g = inr (g', rows) ->
  exists created, actions g' = actions g ++ map (fun n => (n, new_action p)) created.
Proof.
  unfold record_query. intros E.
  destruct (merge_user (RecordQ.userId p) (RecordQ.userName p) (RecordQ.timestamp p) g)
    as [g1 us] eqn:E1.
  destruct (merge_mcp_each us (RecordQ.mcpId p) (RecordQ.mcpType p) (RecordQ.mcpName p)
                           (RecordQ.timestamp p) g1) as [g2 pairs] eqn:E2.
  destruct (create_each pairs (new_action p) g2) as [g3 created] eqn:E3.
  destruct (constraints_hold g3); [| discriminate].
  inversion E; subst g' rows; clear E.
  destruct (merge_user_spec _ _ _ _ _ _ E1) as (A1 & _).
  destruct (merge_mcp_each_spec _ _ _ _ _ _ _ _ E2) as (A2 & _).
  destruct (create_each_appends _ _ _ _ _ E3) as (_ & _ & _ & _ & _ & A3 & _).
  exists created. congruence.
Qed.

Lemma map_throw_total {A B} (f : A -> Error + B) : forall l,
  (forall x, In x l -> exists y, f x = inr y) -> exists ys, map_throw f l = inr ys.
Proof.
  induction l as [| x l IH]; simpl; intros H; [eauto |].
  destruct (H x (or_introl eq_refl)) as (y & ->).
  destruct IH as (ys & ->); [intros z Hz; apply H; now right |]. eauto.
Qed.

Lemma performers_In g n u : In u (performers g n) <-> In (u, n) (PERFORMED g).
Proof.
  unfold performers. rewrite in_map_iff. split.
  - intros ([u' n'] & <- & H). apply filter_In in H. destruct H as (H & E).
    apply Nat.eqb_eq in E. simpl in *. now subst.
  - intros H. exists (u, n). split; [reflexivity |].
    apply filter_In. split; [exact H | apply Nat.eqb_refl].
Qed.

Lemma targets_In g n m : In m (targets g n) <-> In (n, m) (USED g).
Proof.
  unfold targets. rewrite in_map_iff. split.
  - intros ([n' m'] & <- & H). apply filter_In in H. destruct H as (H & E).
    apply Nat.eqb_eq in E. simpl in *. now subst.
  - intros H. exists (n, m). split; [reflexivity |].
    apply filter_In. split; [exact H | apply Nat.eqb_refl].
Qed.

Lemma match_action_used_mcp_action g r :
  In r (match_action_used_mcp g) -> In (fst r) (actions g).
Proof.
  unfold match_action_used_mcp. intros H.
  apply in_flat_map in H. destruct H as (a & Ha & H).
  apply in_flat_map in H. destruct H as (e & He & H).
  destruct (Nat.eqb (fst e) (fst a)); [| destruct H].
  apply in_map_iff in H. destruct H as (m & <- & _). exact Ha.
Qed.

Section ReadBack.
Context {P : Platform}.

Lemma parsed_action_total g n a :
  parse_after_stringify -> json_store g -> In (n, a) (actions g) ->
  exists pa, parsed_action a = inr pa.
Proof.
  intros Law J H. destruct (J n a H) as ((p & Ep) & (q & Eq)).
  unfold parsed_action, parse. rewrite Ep, Eq, !Law. eauto.
Qed.

Lemma record_query_json a ext g g' rows :
  record_query (record_params a ext) g = inr (g', rows) ->
  json_store g -> json_store g'.
Proof.
  intros E J n b H.
  destruct (record_query_actions _ _ _ _ E) as (created & A).
  rewrite A in H. apply in_app_or in H. destruct H as [H | H]; [exact (J n b H) |].
  apply in_map_iff in H. destruct H as (k & Hk & _). inversion Hk; subst.
  simpl. eauto.
Qed.

Lemma history_succeeds self userId limit ext w :
  parse_after_stringify -> json_store (db w) ->
  disabled self = false -> reachable ext = true -> (0 <= default 20%Z limit)%Z ->
  exists rows found,
    history_query (HistoryQ.mk userId (default 20%Z limit)) (db w) = inr rows
    /\ history_post rows = inr found
    /\ getUserActionHistory self userId limit ext w
       = (inr (Success found), mkWorld (db w) (3 + driver_calls w) (console w)).
Proof.
  intros Law J D R L.
  assert (Hq : history_query (HistoryQ.mk userId (default 20%Z limit)) (db w)
               = inr (firstn (Z.to_nat (default 20%Z limit))
                        (order_by history_ahead
                           (history_matches
                              (HistoryQ.mk userId (default 20%Z limit)) (db w))))).
  { unfold history_query, limit_rows. simpl HistoryQ.limit.
    destruct (Z.ltb_spec (default 20%Z limit) 0) as [N | _]; [lia | reflexivity]. }
  set (rows := firstn _ _) in Hq.
  destruct (map_throw_total
              (fun record =>
                 match parsed_action (HistoryQ.action record) with
                 | inl e => inl e
                 | inr action => inr (History.mk action (HistoryQ.mcp record))
                 end) rows) as (found & Post).
  { intros r Hr. unfold rows in Hr. apply In_firstn_inv in Hr.
    apply In_order_by in Hr. apply history_matches_In in Hr.
    destruct Hr as (u & usr & n & m & _ & _ & _ & Ha & _).
    destruct (parsed_action_total _ _ _ Law J Ha) as (pa & ->). eauto. }
  exists rows, found. split; [exact Hq |]. split; [exact Post |].
  rewrite (getUserActionHistory_enabled self userId limit ext w D), R, Hq.
  unfold history_post in *. rewrite Post. reflexivity.
Qed.

(** X13.  The class can always read its own writes.  Let [JSON.parse]
    read back what [JSON.stringify] writes.  From a store whose Actions
    all hold serialized payloads (the empty store is one) every run
    reaches such a store, and on such a store [getUserActionHistory], on
    an enabled object with the store answering and a limit that is not
    negative, returns [{success: true}] with a list: the failure of a
    record that does not parse cannot come from what [recordAction]
    stored. *)
Theorem own_writes_parse :
  parse_after_stringify ->
  (forall calls self w, json_store (db w) -> json_store (db (snd (run calls self w))))
  /\ (forall self userId limit ext w,
         json_store (db w) -> disabled self = false -> reachable ext = true ->
         (0 <= default 20%Z limit)%Z ->
         exists found,
           fst (getUserActionHistory self userId limit ext w) = inr (Success found)).
Proof.
  intros Law. split.
  - intros calls self w. apply (run_keeps json_store).
    + intros i g g' r _ E J n a H.
      destruct (create_if_not_exists_nodes _ _ _ _ E) as (_ & _ & A & _).
      rewrite A in H. exact (J n a H).
    + intros a ext g g' r E. exact (record_query_json _ _ _ _ _ E).
  - intros self userId limit ext w J D R L.
    destruct (history_succeeds self userId limit ext w Law J D R L)
      as (rows & found & _ & _ & E).
    exists found. rewrite E. reflexivity.
Qed.

(** X14.  What is recorded shows in the history.  Let [JSON.parse] read
    back what [JSON.stringify] writes, and take a store without orphans
    whose Actions hold serialized payloads.  After a [recordAction] that
    reports success, the history of the [userId] of the call, asked with
    a limit that does not cut it, succeeds and holds the Action of the
    call, with the id and the time of the call and with the very
    [parameters] and [result] that were recorded. *)
Theorem recorded_action_is_in_history self a ext w r w' limit ext' :
  parse_after_stringify ->
  disabled self = false -> sound (db w) -> json_store (db w) ->
  recordAction self a ext w = (inr (Success r), w') ->
  reachable ext' = true ->
  (Z.of_nat (length (history_matches
                       (HistoryQ.mk (RecordArgs.userId a) (default 20%Z limit)) (db w')))
   <= default 20%Z limit)%Z ->
  exists found x,
    fst (getUserActionHistory self (RecordArgs.userId a) limit ext' w')
    = inr (Success found)
    /\ In x found
    /\ Parsed.action (History.action x) = new_action (record_params a ext)
    /\ Parsed.parameters (History.action x) = RecordArgs.parameters a
    /\ Parsed.result (History.action x) = RecordArgs.result a.
Proof.
  intros Law D (N & L) J E R' Room.
  rewrite (recordAction_enabled self a ext w D) in E.
  destruct (reachable ext); [| discriminate].
  destruct (record_query (record_params a ext) (db w)) as [e | [g' rows0]] eqn:Q;
    [discriminate |].
  inversion E; subst r w'; clear E. simpl db in *.
  pose proof (record_query_json _ _ _ _ _ Q J) as J'.
  destruct (record_query_spec _ _ _ _ Q N) as (_ & _ & _ & _ & _ & (n & Hn & Hle) & All).
  destruct (All n _ Hn) as [(Hold & _) | (_ & _ & u & usr & m & mc & Pf & Hu & Hid & Tg & Hm & _)].
  { destruct N as (Ha & _). specialize (Ha _ _ Hold). lia. }
  assert (Hp : performed_by g' (RecordArgs.userId a)
                 (new_action (record_params a ext)) mc).
  { exists u, usr, n, m. repeat split; try assumption.
    - apply performers_In. rewrite Pf. now left.
    - apply targets_In. rewrite Tg. now left. }
  assert (L0 : (0 <= default 20%Z limit)%Z) by lia.
  match goal with
  | |- context [getUserActionHistory _ _ _ _ ?w1] =>
      destruct (history_succeeds self (RecordArgs.userId a) limit ext' w1 Law J' D R' L0)
        as (rows & found & Hq & Post & E)
  end.
  simpl db in Hq.
  unfold history_query in Hq. simpl HistoryQ.limit in Hq.
  rewrite limit_rows_all in Hq by (rewrite length_order_by; exact Room).
  inversion Hq; subst rows; clear Hq.
  assert (Hr : In (HistoryQ.mkRow (new_action (record_params a ext)) mc)
                  (order_by history_ahead
                     (history_matches
                        (HistoryQ.mk (RecordArgs.userId a) (default 20%Z limit)) g'))).
  { apply In_order_by. apply history_matches_In. exact Hp. }
  destruct (Forall2_from_left _ _ _ _ (history_post_entry _ _ Post) Hr)
    as (x & Hx & Ea & _ & Ep & Er).
  exists found, x. rewrite E. simpl in Ea, Ep, Er.
  unfold parse in Ep, Er. rewrite Law in Ep, Er.
  inversion Ep. inversion Er. auto.
Qed.

End ReadBack.

(** ** Grouping and counting *)

Section GroupingFacts.
Variables (R K : Type) (key : R -> K) (K_eqb : K -> K -> bool).
Hypothesis K_eqb_eq : forall a b, K_eqb a b = true <-> a = b.

(** A new row joins the first group of its key, or opens a group at the
    end. *)
Lemma join_group_cases x : forall groups,
  (exists pre k rows post,
      groups = pre ++ (k, rows) :: post
      /\ k = key x
      /\ (forall g, In g pre -> fst g <> key x)
      /\ join_group key K_eqb x groups = pre ++ (k, rows ++ [x]) :: post)
  \/ ((forall g, In g groups -> fst g <> key x)
      /\ join_group key K_eqb x groups = groups ++ [(key x, [x])]).
Proof.
  induction groups as [| [k rows] rest IH]; simpl.
  - right. split; [intros g [] | reflexivity].
  - destruct (K_eqb k (key x)) eqn:E.
    + left. exists [], k, rows, rest. apply K_eqb_eq in E.
      split; [reflexivity |]. split; [exact E |].
      split; [intros g [] | reflexivity].
    + assert (Ne : k <> key x).
      { intros H. apply K_eqb_eq in H. congruence. }
      destruct IH as [(pre & k' & rows' & post & -> & Hk & Hpre & ->) | (Hall & ->)].
      * left. exists ((k, rows) :: pre), k', rows', post.
        split; [reflexivity |]. split; [exact Hk |].
        split; [| reflexivity].
        intros g [<- | Hg]; [exact Ne | now apply Hpre].
      * right. split; [| reflexivity].
        intros g [<- | Hg]; [exact Ne | now apply Hall].
Qed.

Lemma NoDup_snoc {A} (l : list A) x : NoDup l -> ~ In x l -> NoDup (l ++ [x]).
Proof.
  intros Nd Hx. apply NoDup_app; [exact Nd | constructor; [intros [] | constructor] |].
  intros y Hy [<- | []]. contradiction.
Qed.

Lemma K_eqb_neq a b : a <> b -> K_eqb a b = false.
Proof.
  intros H. destruct (K_eqb a b) eqn:E; [| reflexivity].
  apply K_eqb_eq in E. contradiction.
Qed.

Lemma K_eqb_refl a : K_eqb a a = true.
Proof. now apply K_eqb_eq. Qed.

Lemma grouped_join x groups seen :
  grouped key K_eqb groups seen ->
  grouped key K_eqb (join_group key K_eqb x groups) (seen ++ [x]).
Proof.
  intros (Nd & Rows & Cover).
  destruct (join_group_cases x groups)
    as [(pre & k & rows & post & -> & -> & Hpre & ->) | (Hall & ->)].
  - assert (Keys : map fst (pre ++ (key x, rows ++ [x]) :: post)
                   = map fst (pre ++ (key x, rows) :: post)).
    { rewrite !map_app. reflexivity. }
    split; [rewrite Keys; exact Nd |]. split.
    + intros k' rows' H. rewrite filter_app. simpl.
      apply in_app_or in H. destruct H as [H | [H | H]].
      * assert (Hin : In (k', rows') (pre ++ (key x, rows) :: post))
          by (apply in_or_app; now left).
        destruct (Rows k' rows' Hin) as (E & Ne).
        pose proof (Hpre _ H) as Hne. simpl in Hne.
        rewrite (K_eqb_neq _ _ Hne), app_nil_r. auto.
      * inversion H; subst k' rows'.
        assert (Hin : In (key x, rows) (pre ++ (key x, rows) :: post))
          by (apply in_or_app; right; now left).
        destruct (Rows (key x) rows Hin) as (E & _).
        rewrite K_eqb_refl, <- E. split; [reflexivity |].
        intros C. apply app_eq_nil in C. destruct C as (_ & C). discriminate.
      * assert (Hin : In (k', rows') (pre ++ (key x, rows) :: post))
          by (apply in_or_app; right; now right).
        destruct (Rows k' rows' Hin) as (E & Ne).
        assert (k' <> key x).
        { intros ->. rewrite map_app in Nd. simpl in Nd.
          apply NoDup_remove_2 in Nd. apply Nd. apply in_or_app. right.
          apply in_map_iff. exists (key x, rows'). auto. }
        rewrite (K_eqb_neq _ _ H0), app_nil_r. auto.
    + intros y Hy. rewrite Keys. apply in_app_or in Hy.
      destruct Hy as [Hy | [<- | []]]; [now apply Cover |].
      rewrite map_app. apply in_or_app. right. now left.
  - assert (Fresh : ~ In (key x) (map fst groups)).
    { intros H. apply in_map_iff in H. destruct H as (g & Eg & Hg).
      exact (Hall g Hg Eg). }
    split.
    { rewrite map_app. simpl. apply NoDup_snoc; assumption. }
    split.
    + intros k' rows' H. rewrite filter_app. simpl.
      apply in_app_or in H. destruct H as [H | [H | []]].
      * destruct (Rows k' rows' H) as (E & Ne).
        pose proof (Hall _ H) as Hne. simpl in Hne.
        rewrite (K_eqb_neq _ _ Hne), app_nil_r. auto.
      * inversion H; subst k' rows'. rewrite K_eqb_refl.
        rewrite filter_none; [split; [reflexivity | discriminate] |].
        intros y Hy. apply K_eqb_neq. intros C. apply Fresh. rewrite C.
        now apply Cover.
    + intros y Hy. rewrite map_app. apply in_or_app. apply in_app_or in Hy.
      destruct Hy as [Hy | [<- | []]]; [left; now apply Cover | right; now left].
Qed.

Lemma grouped_fold rows : forall groups seen,
  grouped key K_eqb groups seen ->
  grouped key K_eqb (fold_left (fun gs x => join_group key K_eqb x gs) rows groups)
          (seen ++ rows).
Proof.
  induction rows as [| x rows IH]; intros groups seen G; simpl.
  - rewrite app_nil_r. exact G.
  - replace (seen ++ x :: rows) with ((seen ++ [x]) ++ rows)
      by (rewrite <- app_assoc; reflexivity).
    apply IH. now apply grouped_join.
Qed.

Lemma group_rows_grouped rows : grouped key K_eqb (group_rows key K_eqb rows) rows.
Proof.
  unfold group_rows. apply (grouped_fold rows [] []).
  split; [constructor |]. split; [intros k r [] | intros y []].
Qed.

End GroupingFacts.

(** ** Suggestions *)

Lemma pair_eqb_eq x y : pair_eqb x y = true <-> x = y.
Proof.
  destruct x as [a b], y as [c d]. unfold pair_eqb. simpl.
  rewrite andb_true_iff, !String.eqb_eq. split; [intros (-> & ->) | intros [= -> ->]]; auto.
Qed.

Lemma place_perm {A} (ahead : A -> A -> bool) x l :
  Permutation (place ahead x l) (x :: l).
Proof.
  induction l as [| y l IH]; simpl; [apply Permutation_refl |].
  destruct (ahead y x); [| apply Permutation_refl].
  apply (Permutation_trans (l' := y :: x :: l)); [now constructor | constructor].
Qed.

Lemma order_by_perm {A} (ahead : A -> A -> bool) l :
  Permutation (order_by ahead l) l.
Proof.
  unfold order_by. induction l as [| x l IH]; simpl; [constructor |].
  apply (Permutation_trans (place_perm ahead x _)). now constructor.
Qed.

Lemma NoDup_firstn_keeps {A} n : forall (l : list A), NoDup l -> NoDup (firstn n l).
Proof.
  induction n as [| n IH]; intros l Nd; simpl; [constructor |].
  destruct Nd as [| x l Hx Nd]; [constructor |].
  constructor; [| now apply IH].
  intros H. apply Hx. exact (In_firstn_inv _ _ _ H).
Qed.

Lemma firstn_map_comm {A B} (f : A -> B) n : forall l,
  firstn n (map f l) = map f (firstn n l).
Proof.
  induction n as [| n IH]; intros [| x l]; simpl; try reflexivity.
  now rewrite IH.
Qed.

(** ** The pairs behind a suggestion *)

Lemma match_action_used_mcp_iff g n act m mc :
  In ((n, act), (m, mc)) (match_action_used_mcp g)
  <-> In (n, act) (actions g) /\ In (n, m) (USED g) /\ In (m, mc) (mcps g).
Proof.
  split; [| intros (Ha & Hu & Hm); now apply match_action_used_mcp_In].
  unfold match_action_used_mcp. intros H.
  apply in_flat_map in H. destruct H as ([n' a'] & Ha & H).
  apply in_flat_map in H. destruct H as ([n'' m'] & He & H). simpl in H.
  destruct (Nat.eqb_spec n'' n') as [-> | _]; [| destruct H].
  apply in_map_iff in H. destruct H as ([m'' mc'] & E & Hm).
  apply In_node_at in Hm. destruct Hm as (Hm & Em). simpl in Em. subst m''.
  inversion E; subst. auto.
Qed.

Lemma performers_of_iff g a u usr :
  In (u, usr) (performers_of g a) <-> In (u, a) (PERFORMED g) /\ In (u, usr) (users g).
Proof.
  unfold performers_of. rewrite in_flat_map. split.
  - intros ([u' a'] & He & H). simpl in H.
    destruct (Nat.eqb_spec a' a) as [-> | _]; [| destruct H].
    apply In_node_at in H. destruct H as (H & E). simpl in E. subst u'. auto.
  - intros (He & Hu). exists (u, a). split; [exact He |]. simpl.
    rewrite Nat.eqb_refl. apply In_node_at. auto.
Qed.

Lemma actions_by_on_iff g u m n act :
  In (n, act) (actions_by_on g u m)
  <-> In (u, n) (PERFORMED g) /\ In (n, act) (actions g) /\ In (n, m) (USED g).
Proof.
  unfold actions_by_on. rewrite in_flat_map. split.
  - intros ([u' n'] & He & H). simpl in H.
    destruct (Nat.eqb_spec u' u) as [-> | _]; [| destruct H].
    apply in_flat_map in H. destruct H as ([n'' a'] & Ha & H).
    apply In_node_at in Ha. destruct Ha as (Ha & En). simpl in En. subst n''.
    apply in_flat_map in H. destruct H as ([n'' m'] & Hu & H). simpl in H.
    destruct (Nat.eqb_spec n'' n') as [-> | _]; [| destruct H].
    destruct (Nat.eqb_spec m' m) as [-> | _]; [| destruct H].
    simpl in H. destruct H as [H | []]. inversion H; subst. auto.
  - intros (He & Ha & Hu). exists (u, n). split; [exact He |]. simpl.
    rewrite Nat.eqb_refl. apply in_flat_map. exists (n, act). split.
    { apply In_node_at. auto. }
    apply in_flat_map. exists (n, m). split; [exact Hu |]. simpl.
    rewrite !Nat.eqb_refl. simpl. now left.
Qed.

Section Pairs.
Context {P : Platform}.

(** The rows that [suggestNextAction] groups are the pairs of an anchor
    and a successor. *)
Lemma windowed_pairs p g b : In b (windowed p g) <-> paired p g b.
Proof.
  unfold windowed, paired, successors. rewrite filter_In, in_flat_map. split.
  - intros (([[n act] [m mc]] & Hr & H) & W). simpl in H.
    apply filter_In in Hr. destruct Hr as (Hr & Hc). simpl in Hc.
    apply andb_true_iff in Hc. destruct Hc as (Hc & Hs).
    apply andb_true_iff in Hc. destruct Hc as (Ht & Hm).
    apply String.eqb_eq in Ht, Hm. apply Qgtb_lt in Hs.
    apply match_action_used_mcp_iff in Hr. destruct Hr as (Ha & Hu & Hmc).
    apply in_flat_map in H. destruct H as ([u usr] & Hp & H). simpl in H.
    apply performers_of_iff in Hp. destruct Hp as (Hp & Husr).
    apply in_map_iff in H. destruct H as ([n' act'] & <- & H).
    apply filter_In in H. destruct H as (H & Hts). simpl in Hts.
    apply Z.ltb_lt in Hts. apply actions_by_on_iff in H.
    destruct H as (Hp' & Ha' & Hu'). simpl. auto 20.
  - destruct b as [[n act] [m mc] [u usr] [n' act']]. simpl.
    intros (Ha & Hmc & Husr & Ha' & Hu & Hp & Hp' & Hu' & Ht & Hm & Hs & Hts & W).
    split; [| exact W].
    exists ((n, act), (m, mc)). split.
    { apply filter_In. split; [apply match_action_used_mcp_iff; auto |]. simpl.
      rewrite Ht, Hm, !String.eqb_refl. simpl. now apply lt_Qgtb. }
    simpl. apply in_flat_map. exists (u, usr). split.
    { apply performers_of_iff. auto. }
    simpl. apply in_map_iff. exists (n', act'). split; [reflexivity |].
    apply filter_In. split; [apply actions_by_on_iff; auto |]. simpl.
    now apply Z.ltb_lt.
Qed.

End Pairs.


(** ** Stores without a node or a relationship twice *)

Lemma empty_simple : simple Graph.empty.
Proof.
  unfold simple. simpl. repeat split; try constructor; intros ? [].
Qed.

Lemma fresh_snoc l n x :
  NoDup l -> (forall k, In k l -> k < n) -> x = n ->
  NoDup (l ++ [x]) /\ forall k, In k (l ++ [x]) -> k < S n.
Proof.
  intros Nd B ->. split.
  - apply NoDup_snoc; [exact Nd |]. intros H. specialize (B _ H). lia.
  - intros k H. apply in_app_or in H. destruct H as [H | [<- | []]]; [| lia].
    specialize (B _ H). lia.
Qed.

Lemma add_user_simple u g : simple g -> simple (add_user u g).
Proof.
  intros (Nu & Nm & Na & Np & Ns & Bu & Bm & Ba & Bp & Bs).
  unfold simple, add_user. simpl. rewrite map_app. simpl.
  destruct (fresh_snoc _ _ _ Nu Bu eq_refl) as (Nu' & Bu').
  repeat split; auto; intros k H;
    [apply Bm in H | apply Ba in H | apply Bp in H | apply Bs in H]; lia.
Qed.

Lemma add_mcp_simple m g : simple g -> simple (add_mcp m g).
Proof.
  intros (Nu & Nm & Na & Np & Ns & Bu & Bm & Ba & Bp & Bs).
  unfold simple, add_mcp. simpl. rewrite map_app. simpl.
  destruct (fresh_snoc _ _ _ Nm Bm eq_refl) as (Nm' & Bm').
  repeat split; auto; intros k H;
    [apply Bu in H | apply Ba in H | apply Bp in H | apply Bs in H]; lia.
Qed.

Lemma add_action_simple u m a g : simple g -> simple (add_action u m a g).
Proof.
  intros (Nu & Nm & Na & Np & Ns & Bu & Bm & Ba & Bp & Bs).
  unfold simple, add_action. simpl. rewrite map_app. simpl.
  destruct (fresh_snoc _ _ _ Na Ba eq_refl) as (Na' & Ba').
  repeat split; auto.
  - apply NoDup_snoc; [exact Np |]. intros H. apply Bp in H. simpl in H. lia.
  - apply NoDup_snoc; [exact Ns |]. intros H. apply Bs in H. simpl in H. lia.
  - intros k H. apply Bu in H. lia.
  - intros k H. apply Bm in H. lia.
  - intros e H. apply in_app_or in H. destruct H as [H | [<- | []]]; [| simpl; lia].
    apply Bp in H. lia.
  - intros e H. apply in_app_or in H. destruct H as [H | [<- | []]]; [| simpl; lia].
    apply Bs in H. lia.
Qed.

Lemma merge_user_simple id name ts g :
  simple g -> simple (fst (merge_user id name ts g)).
Proof.
  intros H. unfold merge_user.
  destruct (filter _ (users g)); simpl; [now apply add_user_simple | exact H].
Qed.

Lemma merge_mcp_simple id ty nm ts g :
  simple g -> simple (fst (merge_mcp id ty nm ts g)).
Proof.
  intros H. unfold merge_mcp.
  destruct (filter _ (mcps g)); simpl; [now apply add_mcp_simple | exact H].
Qed.

Lemma merge_mcp_each_simple id ty nm ts rows : forall g,
  simple g -> simple (fst (merge_mcp_each rows id ty nm ts g)).
Proof.
  induction rows as [| u rest IH]; intros g H; simpl; [exact H |].
  pose proof (merge_mcp_simple id ty nm ts g H) as H1.
  destruct (merge_mcp id ty nm ts g) as [g1 found]. simpl in H1.
  specialize (IH g1 H1).
  destruct (merge_mcp_each rest id ty nm ts g1) as [g2 out]. exact IH.
Qed.

Lemma create_each_simple rows a : forall g,
  simple g -> simple (fst (create_each rows a g)).
Proof.
  induction rows as [| [u m] rest IH]; intros g H; simpl; [exact H |].
  specialize (IH _ (add_action_simple u m a g H)).
  destruct (create_each rest a (add_action u m a g)) as [g' out]. exact IH.
Qed.

Lemma record_query_simple p g g' rows :
  record_query p g = inr (g', rows) -> simple g -> simple g'.
Proof.
  unfold record_query. intros E H.
  pose proof (merge_user_simple (RecordQ.userId p) (RecordQ.userName p)
                (RecordQ.timestamp p) g H) as H1.
  destruct (merge_user _ _ _ g) as [g1 us]. simpl in H1.
  pose proof (merge_mcp_each_simple (RecordQ.mcpId p) (RecordQ.mcpType p)
                (RecordQ.mcpName p) (RecordQ.timestamp p) us g1 H1) as H2.
  destruct (merge_mcp_each us _ _ _ _ g1) as [g2 pairs]. simpl in H2.
  pose proof (create_each_simple pairs (new_action p) g2 H2) as H3.
  destruct (create_each pairs (new_action p) g2) as [g3 created]. simpl in H3.
  destruct (constraints_hold g3); [| discriminate].
  inversion E; subst. exact H3.
Qed.

Lemma create_if_not_exists_simple i g g' r :
  create_if_not_exists i g = inr (g', r) -> simple g -> simple g'.
Proof.
  intros E H. destruct (create_if_not_exists_nodes _ _ _ _ E) as (U & M & A & Pf & Us & N).
  unfold simple. rewrite U, M, A, Pf, Us, N. exact H.
Qed.

Section SimpleRuns.
Context {P : Platform}.

Lemma run_simple calls self w :
  simple (db w) -> simple (db (snd (run calls self w))).
Proof.
  apply (run_keeps simple).
  - intros i g g' r _ E. exact (create_if_not_exists_simple _ _ _ _ E).
  - intros a ext g g' r E. exact (record_query_simple _ _ _ _ E).
Qed.

End SimpleRuns.

(** ** Each match once *)

Lemma NoDup_flat_map {A B} (f : A -> list B) l :
  NoDup l ->
  (forall x, In x l -> NoDup (f x)) ->
  (forall x y z, In x l -> In y l -> In z (f x) -> In z (f y) -> x = y) ->
  NoDup (flat_map f l).
Proof.
  induction 1 as [| x l Hx Nd IH]; intros Each Apart; simpl; [constructor |].
  apply NoDup_app.
  - apply Each. now left.
  - apply IH.
    + intros y Hy. apply Each. now right.
    + intros y y' z Hy Hy'. apply Apart; now right.
  - intros z Hz Hz'. apply in_flat_map in Hz'. destruct Hz' as (y & Hy & Hzy).
    apply Hx. rewrite (Apart x y z); auto; [now left | now right].
Qed.

Lemma NoDup_map_injective {A B} (f : A -> B) l :
  (forall x y, f x = f y -> x = y) -> NoDup l -> NoDup (map f l).
Proof.
  intros Inj. induction 1 as [| x l Hx Nd IH]; simpl; constructor; [| exact IH].
  intros H. apply in_map_iff in H. destruct H as (y & E & Hy).
  apply Inj in E. subst y. contradiction.
Qed.

Lemma NoDup_nodes {X} (nodes : list (nat * X)) :
  NoDup (map fst nodes) -> NoDup nodes.
Proof. apply NoDup_map_inv. Qed.

Lemma NoDup_node_at {X} (nodes : list (nat * X)) n :
  NoDup (map fst nodes) -> NoDup (node_at nodes n).
Proof.
  intros H. unfold node_at. apply NoDup_filter. now apply NoDup_nodes.
Qed.

Lemma NoDup_match_action_used_mcp g :
  simple g -> NoDup (match_action_used_mcp g).
Proof.
  intros (_ & Nm & Na & _ & Ns & _). unfold match_action_used_mcp.
  apply NoDup_flat_map; [now apply NoDup_nodes | |].
  - intros a _. apply NoDup_flat_map; [exact Ns | |].
    + intros e _. destruct (Nat.eqb (fst e) (fst a)); [| constructor].
      apply NoDup_map_injective; [intros x y [=]; assumption |].
      now apply NoDup_node_at.
    + intros [n m] [n' m'] z _ _ Hz Hz'. simpl in Hz, Hz'.
      destruct (Nat.eqb_spec n (fst a)) as [-> | _]; [| destruct Hz].
      destruct (Nat.eqb_spec n' (fst a)) as [-> | _]; [| destruct Hz'].
      apply in_map_iff in Hz, Hz'.
      destruct Hz as (x & <- & Hx). destruct Hz' as (x' & E & Hx').
      inversion E; subst x'. apply In_node_at in Hx, Hx'.
      destruct Hx as (_ & <-). destruct Hx' as (_ & <-). reflexivity.
  - intros a a' z _ _ Hz Hz'.
    apply in_flat_map in Hz, Hz'.
    destruct Hz as (e & _ & Hz). destruct Hz' as (e' & _ & Hz').
    destruct (Nat.eqb (fst e) (fst a)); [| destruct Hz].
    destruct (Nat.eqb (fst e') (fst a')); [| destruct Hz'].
    apply in_map_iff in Hz, Hz'.
    destruct Hz as (x & <- & _). destruct Hz' as (x' & E & _).
    now inversion E.
Qed.

Lemma NoDup_performers_of g a : simple g -> NoDup (performers_of g a).
Proof.
  intros (Nu & _ & _ & Np & _). unfold performers_of.
  apply NoDup_flat_map; [exact Np | |].
  - intros e _. destruct (Nat.eqb (snd e) a); [| constructor].
    now apply NoDup_node_at.
  - intros [u n] [u' n'] z _ _ Hz Hz'. simpl in Hz, Hz'.
    destruct (Nat.eqb_spec n a) as [-> | _]; [| destruct Hz].
    destruct (Nat.eqb_spec n' a) as [-> | _]; [| destruct Hz'].
    apply In_node_at in Hz, Hz'.
    destruct Hz as (_ & <-). destruct Hz' as (_ & <-). reflexivity.
Qed.

Lemma NoDup_used_between g n m :
  NoDup (USED g) ->
  forall a : nat * Action.t, fst a = n ->
  NoDup (flat_map (fun e' => if Nat.eqb (fst e') (fst a) && Nat.eqb (snd e') m
                             then [a] else [])
                  (USED g)).
Proof.
  intros Ns a Ea. apply NoDup_flat_map; [exact Ns | |].
  - intros e _. destruct (_ && _); repeat constructor. intros [].
  - intros [x y] [x' y'] z _ _ Hz Hz'. simpl in Hz, Hz'.
    destruct (Nat.eqb_spec x (fst a)) as [-> | _]; [| destruct Hz].
    destruct (Nat.eqb_spec y m) as [-> | _]; [| destruct Hz].
    destruct (Nat.eqb_spec x' (fst a)) as [-> | _]; [| destruct Hz'].
    destruct (Nat.eqb_spec y' m) as [-> | _]; [| destruct Hz'].
    reflexivity.
Qed.

Lemma NoDup_actions_by_on g u m : simple g -> NoDup (actions_by_on g u m).
Proof.
  intros (_ & _ & Na & Np & Ns & _). unfold actions_by_on.
  apply NoDup_flat_map; [exact Np | |].
  - intros e _. destruct (Nat.eqb (fst e) u); [| constructor].
    apply NoDup_flat_map; [now apply NoDup_node_at | |].
    + intros a _. now apply (NoDup_used_between g (fst a) m).
    + intros a a' z _ _ Hz Hz'.
      apply in_flat_map in Hz, Hz'.
      destruct Hz as (e1 & _ & Hz). destruct Hz' as (e2 & _ & Hz').
      destruct (_ && _); [| destruct Hz]. destruct (_ && _); [| destruct Hz'].
      destruct Hz as [<- | []]. destruct Hz' as [<- | []]. reflexivity.
  - intros [x n] [x' n'] z _ _ Hz Hz'. simpl in Hz, Hz'.
    destruct (Nat.eqb_spec x u) as [-> | _]; [| destruct Hz].
    destruct (Nat.eqb_spec x' u) as [-> | _]; [| destruct Hz'].
    apply in_flat_map in Hz, Hz'.
    destruct Hz as (a & Ha & Hz). destruct Hz' as (a' & Ha' & Hz').
    apply In_node_at in Ha, Ha'. destruct Ha as (_ & Ea). destruct Ha' as (_ & Ea').
    apply in_flat_map in Hz, Hz'.
    destruct Hz as (e1 & _ & Hz). destruct Hz' as (e2 & _ & Hz').
    destruct (_ && _); [| destruct Hz]. destruct (_ && _); [| destruct Hz'].
    destruct Hz as [<- | []]. destruct Hz' as [E | []]. subst a'.
    congruence.
Qed.

Section Once.
Context {P : Platform}.

Lemma NoDup_windowed p g : simple g -> NoDup (windowed p g).
Proof.
  intros S. unfold windowed. apply NoDup_filter. unfold successors.
  apply NoDup_flat_map.
  - unfold anchors. apply NoDup_filter. now apply NoDup_match_action_used_mcp.
  - intros r _. apply NoDup_flat_map; [now apply NoDup_performers_of | |].
    + intros u _. apply NoDup_map_injective; [intros x y [=]; assumption |].
      apply NoDup_filter. now apply NoDup_actions_by_on.
    + intros u u' z _ _ Hz Hz'. apply in_map_iff in Hz, Hz'.
      destruct Hz as (x & <- & _). destruct Hz' as (x' & E & _). now inversion E.
  - intros r r' z _ _ Hz Hz'. apply in_flat_map in Hz, Hz'.
    destruct Hz as (u & _ & Hz). destruct Hz' as (u' & _ & Hz').
    apply in_map_iff in Hz, Hz'.
    destruct Hz as (x & <- & _). destruct Hz' as (x' & E & _).
    inversion E. destruct r, r'. simpl in *. congruence.
Qed.

Lemma NoDup_recommend_matches p g : simple g -> NoDup (recommend_matches p g).
Proof.
  intros S. pose proof S as (_ & Nm & Na & _ & Ns & _). unfold recommend_matches.
  apply NoDup_flat_map.
  - apply NoDup_filter. now apply NoDup_nodes.
  - intros a _. apply NoDup_flat_map.
    + apply NoDup_flat_map; [exact Ns | |].
      * intros e _. destruct (Nat.eqb (fst e) (fst a)); [| constructor].
        now apply NoDup_node_at.
      * intros [n m] [n' m'] z _ _ Hz Hz'. simpl in Hz, Hz'.
        destruct (Nat.eqb_spec n (fst a)) as [-> | _]; [| destruct Hz].
        destruct (Nat.eqb_spec n' (fst a)) as [-> | _]; [| destruct Hz'].
        apply In_node_at in Hz, Hz'.
        destruct Hz as (_ & <-). destruct Hz' as (_ & <-). reflexivity.
    + intros m _. apply NoDup_map_injective; [intros x y [=]; assumption |].
      now apply NoDup_performers_of.
    + intros m m' z _ _ Hz Hz'. apply in_map_iff in Hz, Hz'.
      destruct Hz as (x & <- & _). destruct Hz' as (x' & E & _). now inversion E.
  - intros a a' z _ _ Hz Hz'. apply in_flat_map in Hz, Hz'.
    destruct Hz as (m & _ & Hz). destruct Hz' as (m' & _ & Hz').
    apply in_map_iff in Hz, Hz'.
    destruct Hz as (x & <- & _). destruct Hz' as (x' & E & _). now inversion E.
Qed.

End Once.

(** ** Counting *)

Lemma number_of_unique {A} (holds : A -> Prop) n m :
  number_of holds n -> number_of holds m -> n = m.
Proof.
  intros (l & Nl & Hl & <-) (l' & Nl' & Hl' & <-).
  apply Permutation_length. apply NoDup_Permutation; [assumption | assumption |].
  intros x. rewrite Hl, Hl'. tauto.
Qed.

Lemma number_of_filter {A} (holds : A -> Prop) (f : A -> bool) l :
  NoDup l -> (forall x, In x l <-> holds x) ->
  number_of (fun x => holds x /\ f x = true) (length (filter f l)).
Proof.
  intros Nd H. exists (filter f l). split; [now apply NoDup_filter |].
  split; [| reflexivity]. intros x. rewrite filter_In, H. tauto.
Qed.

Lemma number_of_ext {A} (holds holds' : A -> Prop) n :
  (forall x, holds x <-> holds' x) -> number_of holds n -> number_of holds' n.
Proof.
  intros E (l & Nd & H & L). exists l. split; [exact Nd |]. split; [| exact L].
  intros x. rewrite H. apply E.
Qed.

Lemma toInt_small n : (0 <= n < 2 ^ 31)%Z -> toInt n = n.
Proof.
  intros H. unfold toInt. rewrite Z.mod_small; lia.
Qed.

Lemma Forall2_with_left {A B} (T : A -> B -> Prop) (Q : A -> Prop) l l' :
  Forall2 T l l' -> (forall x, In x l -> Q x) ->
  Forall2 (fun x y => T x y /\ Q x) l l'.
Proof.
  induction 1 as [| x y l l' Tx F IH]; intros H; constructor.
  - split; [exact Tx | apply H; now left].
  - apply IH. intros z Hz. apply H. now right.
Qed.

(** ** What a suggestion counts *)

Section Suggestions.
Context {P : Platform}.

Lemma suggest_groups_keys bs :
  map (fun r => (SuggestQ.nextActionType r, SuggestQ.nextActionName r)) (suggest_groups bs)
  = map fst (group_rows successor_key pair_eqb bs).
Proof.
  unfold suggest_groups. rewrite map_map. apply map_ext.
  intros [[t n] rs]. reflexivity.
Qed.

Lemma suggest_groups_count bs r :
  In r (suggest_groups bs) ->
  SuggestQ.frequency r
  = length (filter (fun b => pair_eqb (SuggestQ.nextActionType r, SuggestQ.nextActionName r)
                                      (successor_key b)) bs)
  /\ 1 <= SuggestQ.frequency r.
Proof.
  unfold suggest_groups. intros H. apply in_map_iff in H.
  destruct H as ([[t n] rs] & <- & Hg). simpl.
  destruct (group_rows_grouped _ _ successor_key pair_eqb pair_eqb_eq bs)
    as (_ & Rows & _).
  destruct (Rows (t, n) rs Hg) as (E & Ne).
  split; [rewrite E at 1; reflexivity |].
  destruct rs; [congruence | simpl; lia].
Qed.

(** On a simple graph the count of a group is the number of pairs with
    the key of the group. *)
Lemma suggest_groups_counted p g r :
  simple g -> In r (suggest_groups (windowed p g)) ->
  successors_counted p g (SuggestQ.nextActionType r, SuggestQ.nextActionName r)
                     (SuggestQ.frequency r)
  /\ 1 <= SuggestQ.frequency r.
Proof.
  intros S H. destruct (suggest_groups_count _ _ H) as (E & Pos).
  split; [| exact Pos]. rewrite E. unfold successors_counted.
  eapply number_of_ext;
    [| apply (number_of_filter (paired p g)
                (fun b => pair_eqb (SuggestQ.nextActionType r, SuggestQ.nextActionName r)
                                   (successor_key b)));
       [now apply NoDup_windowed | intros b; apply windowed_pairs]].
  intros b. cbv beta. rewrite pair_eqb_eq. intuition congruence.
Qed.

Lemma suggest_post_entry rows found :
  suggest_post rows = inr found ->
  Forall2 (fun r x => Suggestion.actionType x = SuggestQ.nextActionType r
                      /\ Suggestion.actionName x = SuggestQ.nextActionName r
                      /\ Suggestion.frequency x = toInt (Z.of_nat (SuggestQ.frequency r)))
          rows found.
Proof.
  intros H. apply map_throw_Forall2 in H.
  eapply Forall2_impl; [| exact H]. cbv beta. intros r x E.
  destruct (map_throw parse (SuggestQ.parametersList r)); [discriminate |].
  inversion E; subst. simpl. auto.
Qed.

Lemma Forall2_map_eq {A B C} (f : A -> C) (g : B -> C) l l' :
  Forall2 (fun x y => g y = f x) l l' -> map g l' = map f l.
Proof.
  induction 1 as [| x y l l' E F IH]; simpl; [reflexivity |]. now rewrite E, IH.
Qed.

(** X15.  Suggestions are counted groups.  Take a store in which every
    node has one identity and no relationship is stored twice (every
    store that runs of the class reach from the empty one).  A list that
    [suggestNextAction] returns has at most three suggestions, no two
    with the same pair of [actionType] and [actionName].  For each, the
    number of pairs of an anchor and a successor with that type and name
    is at least 1, and [frequency] is that number put through
    [toInt()]: the number itself below 2^31.  A pair counts when the
    anchor has the type asked for, used an MCP of the type asked for and
    scores above 0.7 against the query, one User node performed both
    Actions, the successor used the same MCP node at a later time, and
    the two pass the window test of the query; the [userId] of the call
    is no part of it.  The suggestions come by falling number of pairs,
    and a list shorter than three leaves out no type and name that has a
    pair. *)
Theorem suggestions_are_counted_groups self a ext w found w' :
  simple (db w) ->
  suggestNextAction self a ext w = (inr (Success found), w') ->
  length found <= 3
  /\ NoDup (map (fun s => (Suggestion.actionType s, Suggestion.actionName s)) found)
  /\ (forall s, In s found ->
        exists n,
          successors_counted (suggest_params a) (db w)
            (Suggestion.actionType s, Suggestion.actionName s) n
          /\ 1 <= n
          /\ Suggestion.frequency s = toInt (Z.of_nat n)
          /\ ((Z.of_nat n < 2 ^ 31)%Z -> Suggestion.frequency s = Z.of_nat n))
  /\ StronglySorted
       (fun x y => forall nx ny,
          successors_counted (suggest_params a) (db w)
            (Suggestion.actionType x, Suggestion.actionName x) nx ->
          successors_counted (suggest_params a) (db w)
            (Suggestion.actionType y, Suggestion.actionName y) ny ->
          ny <= nx)
       found
  /\ (length found < 3 ->
      forall b, paired (suggest_params a) (db w) b ->
        In (successor_key b)
           (map (fun s => (Suggestion.actionType s, Suggestion.actionName s)) found)).
Proof.
  intros Simple E.
  destruct (disabled self) eqn:D.
  { unfold suggestNextAction in E. rewrite D in E. discriminate. }
  rewrite (suggestNextAction_enabled self a ext w D) in E.
  destruct (reachable ext); [| discriminate].
  destruct (suggest_query (suggest_params a) (db w)) as [e | rows] eqn:Q;
    [discriminate |].
  destruct (suggest_post rows) as [e | xs] eqn:Post; [discriminate |].
  inversion E; subst xs w'; clear E.
  unfold suggest_query in Q.
  set (groups := suggest_groups (windowed (suggest_params a) (db w))) in Q.
  set (ahead := fun x y => SuggestQ.frequency y <? SuggestQ.frequency x) in Q.
  assert (Rows : rows = firstn 3 (order_by ahead groups)).
  { unfold limit_rows in Q. simpl in Q. inversion Q. reflexivity. }
  assert (F : Forall2
                (fun r x =>
                   (Suggestion.actionType x = SuggestQ.nextActionType r
                    /\ Suggestion.actionName x = SuggestQ.nextActionName r
                    /\ Suggestion.frequency x = toInt (Z.of_nat (SuggestQ.frequency r)))
                   /\ (successors_counted (suggest_params a) (db w)
                         (SuggestQ.nextActionType r, SuggestQ.nextActionName r)
                         (SuggestQ.frequency r)
                       /\ 1 <= SuggestQ.frequency r))
                rows found).
  { apply Forall2_with_left; [exact (suggest_post_entry rows found Post) |].
    intros r Hr. rewrite Rows in Hr. apply In_firstn_inv in Hr. apply In_order_by in Hr.
    now apply suggest_groups_counted. }
  assert (Len : length found = length rows) by (symmetry; exact (Forall2_length F)).
  assert (Keys : map (fun s => (Suggestion.actionType s, Suggestion.actionName s)) found
                 = map (fun r => (SuggestQ.nextActionType r, SuggestQ.nextActionName r))
                       rows).
  { apply Forall2_map_eq.
    eapply Forall2_impl; [| exact F]. cbv beta. intros r x ((Et & En & _) & _).
    now rewrite Et, En. }
  split.
  { rewrite Len, Rows. rewrite length_firstn. lia. }
  split.
  { rewrite Keys, Rows, <- firstn_map_comm. apply NoDup_firstn_keeps.
    apply (Permutation_NoDup
             (l := map (fun r => (SuggestQ.nextActionType r, SuggestQ.nextActionName r))
                       groups)).
    - apply Permutation_map, Permutation_sym, order_by_perm.
    - unfold groups. rewrite suggest_groups_keys.
      exact (proj1 (group_rows_grouped _ _ successor_key pair_eqb pair_eqb_eq _)). }
  split.
  { intros s Hs.
    destruct (Forall2_from_right _ _ _ _ F Hs) as (r & _ & (Et & En & Ef) & C & Pos).
    exists (SuggestQ.frequency r). rewrite Et, En.
    split; [exact C |]. split; [exact Pos |]. split; [exact Ef |].
    intros Small. rewrite Ef. apply toInt_small. lia. }
  split.
  { refine (Forall2_sorted _
              (fun r r' => SuggestQ.frequency r' <= SuggestQ.frequency r) _ _
              rows found F _).
    - intros r r' x x' ((Et & En & _) & C & _) ((Et' & En' & _) & C' & _) Le nx ny Cx Cy.
      rewrite Et, En in Cx. rewrite Et', En' in Cy.
      rewrite (number_of_unique _ _ _ Cx C), (number_of_unique _ _ _ Cy C'). exact Le.
    - rewrite Rows. apply firstn_sorted. apply (order_by_sorted _ ahead).
      + intros x y z. lia.
      + intros x y. unfold ahead. rewrite Nat.ltb_lt. lia.
      + intros x y. unfold ahead. rewrite Nat.ltb_ge. lia. }
  intros Few b Hb. rewrite Keys.
  assert (All : rows = order_by ahead groups).
  { rewrite Rows. apply firstn_all2.
    rewrite Len, Rows, length_firstn in Few. lia. }
  rewrite All.
  apply (Permutation_in (l := map (fun r => (SuggestQ.nextActionType r,
                                             SuggestQ.nextActionName r)) groups)).
  { apply Permutation_map, Permutation_sym, order_by_perm. }
  unfold groups. rewrite suggest_groups_keys.
  apply (proj2 (proj2 (group_rows_grouped _ _ successor_key pair_eqb pair_eqb_eq _))).
  now apply windowed_pairs.
Qed.

End Suggestions.

(** ** Nothing is thrown to the caller *)

Section NoThrow.
Context {P : Platform}.

Lemma connect_returns self ext w : exists self' w', connect self ext w = (inr self', w').
Proof.
  unfold connect. destruct (disabled self).
  - unfold bind, log, ret. simpl. eauto.
  - unfold try_catch.
    destruct (bind verifyConnectivity _ ext w) as [[e | x] w1] eqn:E.
    + unfold bind, log, ret. simpl. eauto.
    + eauto.
Qed.

Lemma close_returns self ext w : exists w', close self ext w = (inr tt, w').
Proof.
  unfold close.
  destruct (enabled self && match driver self with Some _ => true | None => false end);
    unfold driver_close, ret; eauto.
Qed.

Lemma step_returns c ext self w : negb (thrown (fst (fst (step c ext self w)))) = true.
Proof.
  destruct (disabled self) eqn:D.
  { rewrite (step_disabled c ext self w D). simpl. destruct c; reflexivity. }
  destruct c; simpl.
  - destruct (connect_returns self ext w) as (s' & w' & ->). reflexivity.
  - destruct (close_returns self ext w) as (w' & ->). reflexivity.
  - rewrite (recordAction_enabled self a ext w D).
    destruct (if reachable ext then _ else _) as [e' | [g' rows]]; reflexivity.
  - rewrite (getRelatedActions_enabled self a ext w D).
    destruct (if reachable ext then _ else _); reflexivity.
  - rewrite (findSimilarActions_enabled self a ext w D).
    destruct (if reachable ext then _ else _); reflexivity.
  - rewrite (getUserActionHistory_enabled self userId limit ext w D).
    destruct (if reachable ext then _ else _); reflexivity.
  - rewrite (suggestNextAction_enabled self a ext w D).
    destruct (if reachable ext then _ else _); reflexivity.
  - rewrite (getActionRecommendations_enabled self userId context ext w D).
    destruct (if reachable ext then _ else _); reflexivity.
Qed.

(** X17.  No method throws.  Whatever the state of the object, the
    store and what a call meets outside (a store that does not answer,
    a write that is refused, a record that does not parse), no call of a
    run ends in an exception: [connect] and [close] return and every
    other method returns its object with the [success] flag.  Each [try]
    has a [catch] that returns, and nothing outside a [try] can fail. *)
Theorem no_method_throws calls self w :
  forallb (fun r => negb (thrown r)) (fst (fst (run calls self w))) = true.
Proof.
  revert self w. induction calls as [| [c ext] rest IH]; intros self w; [reflexivity |].
  simpl. destruct (step c ext self w) as [[r self'] w'] eqn:S.
  specialize (IH self' w'). destruct (run rest self' w') as [[rs self''] w''].
  simpl in *. rewrite IH, andb_true_r.
  replace r with (fst (fst (step c ext self w))) by now rewrite S.
  apply step_returns.
Qed.

(** X18.  Nothing found is not an error.  On an enabled object with the
    store answering: the history of a [userId] that no User node has is
    [{success: true, actions: []}]; the suggestions for an action type
    that no Action has are [{success: true, suggestions: []}]; and
    [getRelatedActions] for an id that no Action has is
    [{success: true}] with no graph ([records[0]] is undefined). *)
Theorem nothing_found_is_success self ext w :
  disabled self = false -> reachable ext = true ->
  (forall userId limit,
      (0 <= default 20%Z limit)%Z ->
      (forall u usr, In (u, usr) (users (db w)) -> User.id usr <> userId) ->
      fst (getUserActionHistory self userId limit ext w) = inr (Success []))
  /\ (forall a,
         (forall n act, In (n, act) (actions (db w)) ->
                        Action.type act <> SuggestArgs.currentActionType a) ->
         fst (suggestNextAction self a ext w) = inr (Success []))
  /\ (forall a,
         (forall n act, In (n, act) (actions (db w)) ->
                        Action.id act <> RelatedArgs.actionId a) ->
         fst (getRelatedActions self a ext w) = inr (Success None)).
Proof.
  intros D R. split; [| split].
  - intros userId limit L Hno.
    rewrite (getUserActionHistory_enabled self userId limit ext w D), R.
    assert (E : history_matches (HistoryQ.mk userId (default 20%Z limit)) (db w) = []).
    { unfold history_matches. rewrite filter_none; [reflexivity |].
      intros [u usr] Hu. simpl. apply String.eqb_neq. exact (Hno u usr Hu). }
    unfold history_query, limit_rows. rewrite E. simpl.
    destruct (Z.ltb_spec (default 20%Z limit) 0); [lia |].
    rewrite firstn_nil. reflexivity.
  - intros a Hno.
    rewrite (suggestNextAction_enabled self a ext w D), R.
    assert (E : anchors (suggest_params a) (db w) = []).
    { unfold anchors. rewrite filter_none; [reflexivity |].
      intros [[n act] mc] Hr. apply match_action_used_mcp_action in Hr. simpl in *.
      rewrite (proj2 (String.eqb_neq _ _) (Hno n act Hr)). reflexivity. }
    unfold suggest_query, windowed, successors. rewrite E. reflexivity.
  - intros a Hno.
    rewrite (getRelatedActions_enabled self a ext w D), R.
    unfold related_query. rewrite filter_none; [reflexivity |].
    intros [n act] Hr. simpl. apply String.eqb_neq. exact (Hno n act Hr).
Qed.

End NoThrow.

(** ** Recommendations *)

Lemma quad_eqb_eq x y : quad_eqb x y = true <-> x = y.
Proof.
  destruct x as [[[a b] c] d], y as [[[a' b'] c'] d']. unfold quad_eqb.
  rewrite !andb_true_iff, !String.eqb_eq.
  split; [intros (((-> & ->) & ->) & ->) | intros [= -> -> -> ->]]; auto.
Qed.

Section Recommendations.
Context {P : Platform}.

Lemma recommend_groups_keys bs :
  map (fun r => (RecommendQ.mcpType r, RecommendQ.mcpName r,
                 RecommendQ.actionType r, RecommendQ.actionName r)) (recommend_groups bs)
  = map fst (group_rows recommend_key quad_eqb bs).
Proof.
  unfold recommend_groups. rewrite map_map. apply map_ext.
  intros [[[[mt mn] t] n] rs]. reflexivity.
Qed.

Lemma recommend_groups_count bs r :
  In r (recommend_groups bs) ->
  RecommendQ.frequency r
  = length (filter (fun b => quad_eqb (RecommendQ.mcpType r, RecommendQ.mcpName r,
                                       RecommendQ.actionType r, RecommendQ.actionName r)
                                      (recommend_key b)) bs)
  /\ 1 <= RecommendQ.frequency r.
Proof.
  unfold recommend_groups. intros H. apply in_map_iff in H.
  destruct H as ([[[[mt mn] t] n] rs] & <- & Hg). simpl.
  destruct (group_rows_grouped _ _ recommend_key quad_eqb quad_eqb_eq bs)
    as (_ & Rows & _).
  destruct (Rows (mt, mn, t, n) rs Hg) as (E & Ne).
  split; [rewrite E at 1; reflexivity |].
  destruct rs; [congruence | simpl; lia].
Qed.

Lemma recommend_post_entry rows found :
  recommend_post rows = inr found ->
  Forall2 (fun r x => Recommendation.mcpType x = RecommendQ.mcpType r
                      /\ Recommendation.mcpName x = RecommendQ.mcpName r
                      /\ Recommendation.actionType x = RecommendQ.actionType r
                      /\ Recommendation.actionName x = RecommendQ.actionName r
                      /\ Recommendation.frequency x
                         = toInt (Z.of_nat (RecommendQ.frequency r)))
          rows found.
Proof.
  intros H. apply map_throw_Forall2 in H.
  eapply Forall2_impl; [| exact H]. cbv beta. intros r x E.
  destruct (map_throw parse (RecommendQ.parameterSamples r)); [discriminate |].
  inversion E; subst. simpl. auto.
Qed.

Lemma recommend_matches_iff p g b :
  In b (recommend_matches p g) <-> recommended p g b.
Proof.
  unfold recommend_matches, recommended. rewrite in_flat_map. split.
  - intros ([n act] & Ha & H). apply filter_In in Ha. destruct Ha as (Ha & Hf).
    simpl in Hf, H.
    apply in_flat_map in H. destruct H as ([m mc] & Hm & H).
    apply in_flat_map in Hm. destruct Hm as ([n' m'] & He & Hm). simpl in Hm.
    destruct (Nat.eqb_spec n' n) as [-> | _]; [| destruct Hm].
    apply In_node_at in Hm. destruct Hm as (Hm & Em). simpl in Em. subst m'.
    apply in_map_iff in H. destruct H as ([u usr] & <- & Hu).
    apply performers_of_iff in Hu. destruct Hu as (Hp & Hu). simpl. auto 10.
  - destruct b as [[n act] [m mc] [u usr]]. simpl.
    intros (Ha & Hm & Hu & He & Hp & Hf).
    exists (n, act). split; [apply filter_In; auto |]. simpl.
    apply in_flat_map. exists (m, mc). split.
    { apply in_flat_map. exists (n, m). split; [exact He |]. simpl.
      rewrite Nat.eqb_refl. apply In_node_at. auto. }
    apply in_map_iff. exists (u, usr). split; [reflexivity |].
    apply performers_of_iff. auto.
Qed.


(** On a simple graph the count of a group is the number of matches with
    the key of the group. *)
Lemma recommend_groups_counted p g r :
  simple g -> In r (recommend_groups (recommend_matches p g)) ->
  matches_counted p g (RecommendQ.mcpType r, RecommendQ.mcpName r,
                       RecommendQ.actionType r, RecommendQ.actionName r)
                  (RecommendQ.frequency r)
  /\ 1 <= RecommendQ.frequency r.
Proof.
  intros S H. destruct (recommend_groups_count _ _ H) as (E & Pos).
  split; [| exact Pos]. rewrite E. unfold matches_counted.
  eapply number_of_ext;
    [| apply (number_of_filter (recommended p g)
                (fun b => quad_eqb (RecommendQ.mcpType r, RecommendQ.mcpName r,
                                    RecommendQ.actionType r, RecommendQ.actionName r)
                                   (recommend_key b)));
       [now apply NoDup_recommend_matches | intros b; apply recommend_matches_iff]].
  intros b. cbv beta. rewrite quad_eqb_eq. intuition congruence.
Qed.

(** X19.  Recommendations are counted groups.  Take a store in which
    every node has one identity and no relationship is stored twice.  A
    list that [getActionRecommendations] returns has at most five
    recommendations, no two with the same [mcpType], [mcpName],
    [actionType] and [actionName].  For each, the number of matches with
    these four values is at least 1, and [frequency] is that number put
    through [toInt()]: the number itself below 2^31.  A match is an
    Action that the full-text index returns for the context, with an MCP
    node it used and a User node that performed it: the Actions of all
    users count.  The recommendations come by falling number of matches,
    and a list shorter than five leaves out no group that has a match. *)
Theorem recommendations_are_counted_groups self userId context ext w found w' :
  simple (db w) ->
  getActionRecommendations self userId context ext w = (inr (Success found), w') ->
  let key := fun s : Recommendation.t Json =>
               (Recommendation.mcpType s, Recommendation.mcpName s,
                Recommendation.actionType s, Recommendation.actionName s) in
  let counted := matches_counted (RecommendQ.mk userId context) (db w) in
  length found <= 5
  /\ NoDup (map key found)
  /\ (forall s, In s found ->
        exists n,
          counted (key s) n /\ 1 <= n
          /\ Recommendation.frequency s = toInt (Z.of_nat n)
          /\ ((Z.of_nat n < 2 ^ 31)%Z -> Recommendation.frequency s = Z.of_nat n))
  /\ StronglySorted
       (fun x y => forall nx ny, counted (key x) nx -> counted (key y) ny -> ny <= nx)
       found
  /\ (length found < 5 ->
      forall b, recommended (RecommendQ.mk userId context) (db w) b ->
        In (recommend_key b) (map key found)).
Proof.
  intros Simple E key counted.
  destruct (disabled self) eqn:D.
  { unfold getActionRecommendations in E. rewrite D in E. discriminate. }
  rewrite (getActionRecommendations_enabled self userId context ext w D) in E.
  destruct (reachable ext); [| discriminate].
  destruct (recommend_query (RecommendQ.mk userId context) (db w)) as [e | rows] eqn:Q;
    [discriminate |].
  destruct (recommend_post rows) as [e | xs] eqn:Post; [discriminate |].
  inversion E; subst xs w'; clear E.
  unfold recommend_query in Q.
  destruct (has_schema (db w) (FulltextIndex "actionContext")); [| discriminate].
  set (matches := recommend_matches (RecommendQ.mk userId context) (db w)) in Q.
  set (groups := recommend_groups matches) in Q.
  set (ahead := fun x y => RecommendQ.frequency y <? RecommendQ.frequency x) in Q.
  set (rkey := fun r => (RecommendQ.mcpType r, RecommendQ.mcpName r,
                         RecommendQ.actionType r, RecommendQ.actionName r)).
  assert (Rows : rows = firstn 5 (order_by ahead groups)).
  { unfold limit_rows in Q. simpl in Q. inversion Q. reflexivity. }
  assert (F : Forall2
                (fun r x =>
                   (Recommendation.mcpType x = RecommendQ.mcpType r
                    /\ Recommendation.mcpName x = RecommendQ.mcpName r
                    /\ Recommendation.actionType x = RecommendQ.actionType r
                    /\ Recommendation.actionName x = RecommendQ.actionName r
                    /\ Recommendation.frequency x
                       = toInt (Z.of_nat (RecommendQ.frequency r)))
                   /\ (counted (rkey r) (RecommendQ.frequency r)
                       /\ 1 <= RecommendQ.frequency r))
                rows found).
  { apply Forall2_with_left; [exact (recommend_post_entry rows found Post) |].
    intros r Hr. rewrite Rows in Hr. apply In_firstn_inv in Hr. apply In_order_by in Hr.
    now apply recommend_groups_counted. }
  assert (Len : length found = length rows) by (symmetry; exact (Forall2_length F)).
  assert (Keys : map key found = map rkey rows).
  { apply Forall2_map_eq.
    eapply Forall2_impl; [| exact F]. cbv beta.
    intros r x ((E1 & E2 & E3 & E4 & _) & _). unfold key, rkey.
    now rewrite E1, E2, E3, E4. }
  assert (Groups : map rkey groups = map fst (group_rows recommend_key quad_eqb matches)).
  { unfold groups. apply recommend_groups_keys. }
  split.
  { rewrite Len, Rows. rewrite length_firstn. lia. }
  split.
  { rewrite Keys, Rows, <- firstn_map_comm. apply NoDup_firstn_keeps.
    apply (Permutation_NoDup (l := map rkey groups)).
    - apply Permutation_map, Permutation_sym, order_by_perm.
    - rewrite Groups.
      exact (proj1 (group_rows_grouped _ _ recommend_key quad_eqb quad_eqb_eq _)). }
  split.
  { intros s Hs.
    destruct (Forall2_from_right _ _ _ _ F Hs)
      as (r & _ & (E1 & E2 & E3 & E4 & Ef) & C & Pos).
    exists (RecommendQ.frequency r). unfold key. rewrite E1, E2, E3, E4.
    split; [exact C |]. split; [exact Pos |]. split; [exact Ef |].
    intros Small. rewrite Ef. apply toInt_small. lia. }
  split.
  { refine (Forall2_sorted _
              (fun r r' => RecommendQ.frequency r' <= RecommendQ.frequency r) _ _
              rows found F _).
    - intros r r' x x' ((E1 & E2 & E3 & E4 & _) & C & _)
             ((E1' & E2' & E3' & E4' & _) & C' & _) Le nx ny Cx Cy.
      unfold key in Cx, Cy.
      rewrite E1, E2, E3, E4 in Cx. rewrite E1', E2', E3', E4' in Cy.
      rewrite (number_of_unique _ _ _ Cx C), (number_of_unique _ _ _ Cy C'). exact Le.
    - rewrite Rows. apply firstn_sorted. apply (order_by_sorted _ ahead).
      + intros x y z. lia.
      + intros x y. unfold ahead. rewrite Nat.ltb_lt. lia.
      + intros x y. unfold ahead. rewrite Nat.ltb_ge. lia. }
  intros Few b Hb. rewrite Keys.
  assert (All : rows = order_by ahead groups).
  { rewrite Rows. apply firstn_all2.
    rewrite Len, Rows, length_firstn in Few. lia. }
  rewrite All.
  apply (Permutation_in (l := map rkey groups)).
  { apply Permutation_map, Permutation_sym, order_by_perm. }
  rewrite Groups.
  apply (proj2 (proj2 (group_rows_grouped _ _ recommend_key quad_eqb quad_eqb_eq _))).
  now apply recommend_matches_iff.
Qed.

End Recommendations.

(** ** The tracker of the server *)



(** ** The properties on the session of Ann *)

Lemma run_keeps_ids_unique_witness :
  unique_nodes (db (snd (run Example.session_of_ann Example.on_tracker boot))).
Proof.
  apply (@run_keeps_ids_unique Example.platform Example.session_of_ann
           Example.on_tracker boot).
  split; reflexivity.
Defined.

Lemma recordAction_appends_one_witness :
  exists n u m,
    actions (db Example.exported_twice)
    = actions (db Example.recorded)
      ++ [(n, new_action (record_params
                            (Example.record_args "u1" "Ann" "export" "scan_table")
                            (Example.at_time "a3" 1200000%Z)))]
    /\ PERFORMED (db Example.exported_twice) = PERFORMED (db Example.recorded) ++ [(u, n)]
    /\ USED (db Example.exported_twice) = USED (db Example.recorded) ++ [(n, m)].
Proof.
  refine (@recordAction_appends_one Example.platform Example.on_tracker
            (Example.record_args "u1" "Ann" "export" "scan_table")
            (Example.at_time "a3" 1200000%Z) Example.recorded
            (Recorded.mk "a3" (Text "Action recorded successfully"))
            Example.exported_twice eq_refl _ _).
  - split; reflexivity.
  - vm_compute. reflexivity.
Defined.

Lemma recordAction_refuses_taken_id_witness :
  fst (recordAction Example.on_tracker
         (Example.record_args "u1" "Ann" "export" "scan_table")
         (Example.at_time "a1" 1200000%Z) Example.recorded)
  = inr (Failure (Template "Failed to record action: " ConstraintValidationFailed))
  /\ db (snd (recordAction Example.on_tracker
                (Example.record_args "u1" "Ann" "export" "scan_table")
                (Example.at_time "a1" 1200000%Z) Example.recorded))
     = db Example.recorded.
Proof.
  refine (@recordAction_refuses_taken_id Example.platform Example.on_tracker
            (Example.record_args "u1" "Ann" "export" "scan_table")
            (Example.at_time "a1" 1200000%Z) Example.recorded eq_refl eq_refl _ _).
  - reflexivity.
  - simpl. tauto.
Defined.


Lemma connect_again_changes_nothing_witness :
  fst (connect Example.on_tracker Example.up Example.recorded) = inr Example.on_tracker
  /\ db (snd (connect Example.on_tracker Example.up Example.recorded))
     = db Example.recorded.
Proof.
  refine (connect_again_changes_nothing Example.on_tracker
            Example.up Example.recorded eq_refl eq_refl _).
  intros i H. simpl in H.
  destruct H as [<- | [<- | [<- | [<- | [<- | []]]]]]; reflexivity.
Defined.

Lemma connect_disables_on_duplicate_ids_witness :
  fst (connect Example.on_tracker Example.up Example.doubled)
  = inr (mkTracker None false)
  /\ same_data (db Example.doubled)
               (db (snd (connect Example.on_tracker Example.up Example.doubled))).
Proof.
  refine (connect_disables_on_duplicate_ids Example.on_tracker
            Example.up Example.doubled LUser eq_refl eq_refl _ _); reflexivity.
Defined.

Lemma recommendations_need_the_index_witness :
  getActionRecommendations Example.on_tracker "u1" "scan_table" Example.up Example.recorded
  = (inr (Failure (Template "Failed to get action recommendations: "
                            (NoSuchIndex "actionContext"))),
     mkWorld (db Example.recorded) (3 + driver_calls Example.recorded)
             (console Example.recorded ++ ["Error getting action recommendations:"])).
Proof.
  refine (proj2 (@recommendations_need_the_index Example.platform)
            Example.on_tracker "u1" "scan_table" Example.up Example.recorded
            eq_refl eq_refl _).
  reflexivity.
Defined.

Lemma history_is_the_users_actions_witness :
  (Z.of_nat (length Example.history_of_ann) <= 20)%Z
  /\ performed_by (db Example.recorded) "u1" Example.first_export Example.the_mcp.
Proof.
  destruct (@history_is_the_users_actions Example.platform Example.on_tracker "u1" None
              Example.up Example.recorded Example.history_of_ann
              (snd (getUserActionHistory Example.on_tracker "u1" None Example.up
                      Example.recorded)))
    as (Bound & _ & Sound & _).
  - vm_compute. reflexivity.
  - split; [exact Bound |].
    refine (Sound (History.mk (Parsed.mk Example.first_export Example.JObject
                                 Example.JTrue)
                              Example.the_mcp) _).
    simpl. tauto.
Defined.

Lemma negative_limit_fails_witness :
  fst (getUserActionHistory Example.on_tracker "u1" (Some (-1)%Z) Example.up
         Example.recorded)
  = inr (Failure (Template "Failed to get user action history: " (InvalidLimit (-1)))).
Proof.
  rewrite (@negative_limit_fails Example.platform Example.on_tracker "u1" Example.up
             Example.recorded (-1)%Z eq_refl eq_refl); [reflexivity | lia].
Defined.

Lemma own_writes_parse_witness :
  json_store (db (snd (run Example.session_of_ann Example.on_tracker boot))).
Proof.
  refine (proj1 (@own_writes_parse Example.platform _)
            Example.session_of_ann Example.on_tracker boot _).
  - intros []; reflexivity.
  - intros n a [].
Defined.

Lemma recorded_action_is_in_history_witness :
  exists found x,
    fst (getUserActionHistory Example.on_tracker "u1" None Example.up
           Example.exported_twice)
    = inr (Success found)
    /\ In x found
    /\ Parsed.action (History.action x)
       = new_action (record_params
                       (Example.record_args "u1" "Ann" "export" "scan_table")
                       (Example.at_time "a3" 1200000%Z))
    /\ Parsed.parameters (History.action x) = Example.JObject
    /\ Parsed.result (History.action x) = Example.JTrue.
Proof.
  refine (@recorded_action_is_in_history Example.platform Example.on_tracker
            (Example.record_args "u1" "Ann" "export" "scan_table")
            (Example.at_time "a3" 1200000%Z) Example.recorded
            (Recorded.mk "a3" (Text "Action recorded successfully"))
            Example.exported_twice None Example.up _ eq_refl _ _ _ eq_refl _).
  - intros []; reflexivity.
  - exact (run_sound Example.session_of_ann Example.on_tracker boot empty_sound).
  - intros n a H. simpl in H.
    destruct H as [H | [H | []]]; inversion H; subst;
      (split; [exists Example.JObject | exists Example.JTrue]; reflexivity).
  - vm_compute. reflexivity.
  - vm_compute. discriminate.
Defined.

Lemma suggestions_are_counted_groups_witness :
  NoDup (map (fun s => (Suggestion.actionType s, Suggestion.actionName s))
             Example.suggested_after_query).
Proof.
  refine (proj1 (proj2
    (@suggestions_are_counted_groups Example.platform Example.on_tracker
       Example.after_query Example.up Example.recorded Example.suggested_after_query
       (snd (suggestNextAction Example.on_tracker Example.after_query Example.up
               Example.recorded))
       _ _))).
  - exact (run_simple Example.session_of_ann Example.on_tracker boot empty_simple).
  - vm_compute. reflexivity.
Defined.

Lemma nothing_found_is_success_witness :
  fst (getUserActionHistory Example.on_tracker "u2" None Example.up Example.recorded)
  = inr (Success []).
Proof.
  refine (proj1 (@nothing_found_is_success Example.platform Example.on_tracker
                   Example.up Example.recorded eq_refl eq_refl) "u2" None _ _).
  - discriminate.
  - intros u usr H. simpl in H. destruct H as [H | []]. inversion H. discriminate.
Defined.

Lemma recommendations_are_counted_groups_witness :
  length Example.recommended_for_scan <= 5.
Proof.
  refine (proj1
    (@recommendations_are_counted_groups Example.platform Example.on_tracker
       "u1" "scan_table" Example.up Example.indexed Example.recommended_for_scan
       (snd (getActionRecommendations Example.on_tracker "u1" "scan_table" Example.up
               Example.indexed))
       _ _)).
  - exact (run_simple Example.session_of_ann Example.on_tracker boot empty_simple).
  - vm_compute. reflexivity.
Defined.


Lemma findSimilarActions_needs_a_procedure_witness :
  db (snd (@findSimilarActions Example.apoc Example.on_tracker
             (Example.similar_to_export None) Example.up Example.recorded))
  = db Example.recorded.
Proof.
  rewrite (@findSimilarActions_needs_a_procedure Example.apoc Example.on_tracker
             (Example.similar_to_export None) Example.up Example.recorded
             eq_refl eq_refl eq_refl).
  reflexivity.
Defined.
